(** * EPS extraction from financial filings: a model of
      [financial_filing_parser.py] and the properties of its heuristics.

    The Python functions are embedded as executable Rocq functions that keep
    their names: [extract_numeric_value] (the later of the two definitions in
    the file, which is the one bound at run time), [check_eps_pattern],
    [is_basic_eps], [is_gaap_eps], [select_eps_value],
    [extract_eps_from_filing], [get_priority], [select_final_eps] and
    [process_directory].

    Texts.  A Python [str] is modelled as a list of characters over the
    code points U+0000 to U+00FF and the two dashes that the patterns of the
    source name, the minus sign U+2212 and the en dash U+2013.  On this
    alphabet the character classes below ([\s], [\d], [\w], [str.lower],
    [str.strip]) are those of Python 3, and [re.IGNORECASE] matches a letter
    of a pattern with exactly the characters that have its lowercase form.
    Beyond the alphabet [re.IGNORECASE] also matches U+017F with s, U+0131
    and U+0130 with i and U+212A with k, which [str.lower] does not map to
    these letters: a statement that ties a case-insensitive pattern to the
    lowercase form of a text is a statement about the texts of the alphabet,
    and says so.

    Regular expressions.  Every pattern of the source is transcribed into a
    small abstract syntax and run by a backtracking matcher with the
    behaviour of Python's [re]: leftmost match, alternatives tried in order,
    greedy repetition and option.

    Floats.  A Python float is a primitive binary64 float of Rocq, with its
    comparison.  The library operations [float(s)], [sum] over floats and
    the format [f"{x:.{n}f}"] are parameters of the resolver, so that its
    properties hold whatever they compute; the module [PyFloat] gives them
    as CPython computes them, for running the resolver on examples. *)

From Stdlib Require Import Ascii String.
From Stdlib Require Import List Bool Arith ZArith Lia.
From Stdlib Require Import Sorting.Sorted Sorting.Permutation.
From Stdlib Require Import Floats DecimalString.
Import ListNotations.

Set Implicit Arguments.

(* ================================================================== *)
(** * Texts *)
(* ================================================================== *)

Module Text.

(** A character: a code point below 256, the minus sign or the en dash. *)
Inductive char : Type :=
| Latin (a : ascii)
| MinusSign
| EnDash.

Coercion Latin : ascii >-> char.
Bind Scope char_scope with char.

Definition str := list char.

(** String literals are written with the standard notation and read as
    lists of characters. *)
Definition lit (s : string) : str := map Latin (list_ascii_of_string s).

(** The code point of a character. *)
Definition code (c : char) : N :=
  match c with
  | Latin a => N_of_ascii a
  | MinusSign => 8722
  | EnDash => 8211
  end.

Definition char_eqb (a b : char) : bool :=
  match a, b with
  | Latin x, Latin y => Ascii.eqb x y
  | MinusSign, MinusSign => true
  | EnDash, EnDash => true
  | _, _ => false
  end.

(** [lo <= code c <= hi] *)
Definition in_range (lo hi : N) (c : char) : bool :=
  ((lo <=? code c) && (code c <=? hi))%N.

(** [str.isspace] and the class [\s]: TAB..CR, FS..US, space, NEL, NBSP. *)
Definition is_space (c : char) : bool :=
  in_range 9 13 c || in_range 28 32 c || (code c =? 133)%N || (code c =? 160)%N.

(** The class [\d]: the decimal digits. *)
Definition is_digit (c : char) : bool := in_range 48 57 c.

(** The class [\w]: alphanumeric characters and the underscore. *)
Definition is_word (c : char) : bool :=
  is_digit c || in_range 65 90 c || in_range 97 122 c || (code c =? 95)%N
  || (code c =? 170)%N || in_range 178 179 c || (code c =? 181)%N
  || in_range 185 186 c || in_range 188 190 c
  || in_range 192 214 c || in_range 216 246 c || in_range 248 255 c.

(** Upper-case letters, the characters [str.lower] changes. *)
Definition is_upper (c : char) : bool :=
  in_range 65 90 c || in_range 192 214 c || in_range 216 222 c.

Definition lower_char (c : char) : char :=
  if is_upper c then Latin (ascii_of_N (code c + 32)) else c.

(** [s.lower()] *)
Definition lower (s : str) : str := map lower_char s.

Fixpoint lstrip (s : str) : str :=
  match s with
  | c :: s' => if is_space c then lstrip s' else s
  | [] => []
  end.

Definition rstrip (s : str) : str := rev (lstrip (rev s)).

(** [s.strip()] *)
Definition strip (s : str) : str := rstrip (lstrip s).

(** [s.replace(c, '')] for a one-character [c]. *)
Definition remove_char (c : char) (s : str) : str :=
  filter (fun x => negb (char_eqb x c)) s.

Fixpoint str_eqb (a b : str) : bool :=
  match a, b with
  | [], [] => true
  | x :: a', y :: b' => char_eqb x y && str_eqb a' b'
  | _, _ => false
  end.

(** [s.startswith(p)] *)
Fixpoint startswith (p s : str) : bool :=
  match p, s with
  | [], _ => true
  | x :: p', y :: s' => char_eqb x y && startswith p' s'
  | _ :: _, [] => false
  end.

(** [s.endswith(p)] *)
Definition endswith (p s : str) : bool := startswith (rev p) (rev s).

(** [sub in s] *)
Fixpoint contains (sub s : str) : bool :=
  startswith sub s ||
  match s with
  | [] => false
  | _ :: s' => contains sub s'
  end.

(** [s[:n]] *)
Definition slice_to (n : nat) (s : str) : str := firstn n s.

(** [s.split(c)[-1]]: what follows the last occurrence of [c], the whole
    text when there is none. *)
Fixpoint last_segment (c : char) (s : str) : str :=
  match s with
  | [] => []
  | x :: s' =>
      if existsb (char_eqb c) s' then last_segment c s'
      else if char_eqb x c then s' else s
  end.

Definition digit_value (c : char) : N := (code c - 48)%N.

(** [int(s)] on a text of decimal digits (the only texts the source passes
    to [int] are matches of [\d+]). *)
Definition int_of_digits (s : str) : N :=
  fold_left (fun acc c => (10 * acc + digit_value c)%N) s 0%N.

(** [max(l, key=lambda x: int(x))]: the first element whose key is maximal;
    [None] stands for the [ValueError] on an empty list. *)
Fixpoint max_by_int (l : list str) : option str :=
  match l with
  | [] => None
  | x :: l' =>
      match max_by_int l' with
      | None => Some x
      | Some y => if (int_of_digits y <=? int_of_digits x)%N then Some x else Some y
      end
  end.

End Text.

Import Text.

(* ================================================================== *)
(** * Regular expressions *)
(* ================================================================== *)

Module Re.

(** The fragment of Python's pattern language the source uses.  Repetition
    is only ever applied to a character class, option to a group; there is
    at most one capturing group in a pattern. *)
Inductive regex : Type :=
| Emp                          (* the empty pattern *)
| Cls (p : char -> bool)      (* one character of a class *)
| Cat (r1 r2 : regex)          (* r1 r2 *)
| Alt (r1 r2 : regex)          (* r1|r2 *)
| Opt (r : regex)              (* (?:r)? *)
| Star (p : char -> bool)     (* [class]* *)
| Plus (p : char -> bool)     (* [class]+ *)
| Grp (r : regex)              (* (r), capturing group 1 *)
| Bnd                          (* \b *)
| Bol.                         (* ^ *)

(** A literal character, and the same under [re.IGNORECASE]. *)
Definition Chr (c : char) : regex := Cls (char_eqb c).
Definition ChrI (c : char) : regex := Cls (fun x => char_eqb (lower_char x) (lower_char c)).

Fixpoint seq_of (f : char -> regex) (s : str) : regex :=
  match s with
  | [] => Emp
  | [c] => f c
  | c :: s' => Cat (f c) (seq_of f s')
  end.

(** A literal word, and the same under [re.IGNORECASE]. *)
Definition Lit (s : string) : regex := seq_of Chr (lit s).
Definition LitI (s : string) : regex := seq_of ChrI (lit s).

(** A position in the subject: the character before it (none at the start)
    and the text from it on. *)
Definition word_before (prev : option char) : bool :=
  match prev with Some c => is_word c | None => false end.

Definition word_after (s : str) : bool :=
  match s with c :: _ => is_word c | [] => false end.

(** What a successful match reports: the text of group 1 (if the group took
    part) and the text that follows the match. *)
Record matched : Type := Matched { group1 : option str; after : str }.

Section Matcher.

Variable R : Type.

(** The continuation receives the position reached and the capture. *)
Definition cont : Type := option char -> str -> option str -> option R.

(** Greedy repetition of a class: take the longest run first and give
    characters back one at a time. *)
Fixpoint star (p : char -> bool) (prev : option char) (s : str)
    (k : option char -> str -> option R) : option R :=
  match s with
  | c :: s' =>
      if p c then
        match star p (Some c) s' k with
        | Some x => Some x
        | None => k prev s
        end
      else k prev s
  | [] => k prev s
  end.

Fixpoint rmatch (r : regex) (prev : option char) (s : str) (g : option str)
    (k : cont) : option R :=
  match r with
  | Emp => k prev s g
  | Cls p =>
      match s with
      | c :: s' => if p c then k (Some c) s' g else None
      | [] => None
      end
  | Cat r1 r2 =>
      rmatch r1 prev s g (fun prev' s' g' => rmatch r2 prev' s' g' k)
  | Alt r1 r2 =>
      match rmatch r1 prev s g k with
      | Some x => Some x
      | None => rmatch r2 prev s g k
      end
  | Opt r1 =>
      match rmatch r1 prev s g k with
      | Some x => Some x
      | None => k prev s g
      end
  | Star p => star p prev s (fun prev' s' => k prev' s' g)
  | Plus p =>
      match s with
      | c :: s' => if p c then star p (Some c) s' (fun prev' s' => k prev' s' g) else None
      | [] => None
      end
  | Grp r1 =>
      rmatch r1 prev s g
        (fun prev' s' _ => k prev' s' (Some (firstn (length s - length s') s)))
  | Bnd => if xorb (word_before prev) (word_after s) then k prev s g else None
  | Bol => match prev with None => k prev s g | Some _ => None end
  end.

End Matcher.

(** A match of [r] at the given position. *)
Definition match_at (r : regex) (prev : option char) (s : str) : option matched :=
  rmatch r prev s None (fun _ s' g => Some (Matched g s')).

(** The leftmost match at or after the given position. *)
Fixpoint search_from (r : regex) (prev : option char) (s : str) : option matched :=
  match match_at r prev s with
  | Some m => Some m
  | None =>
      match s with
      | [] => None
      | c :: s' => search_from r (Some c) s'
      end
  end.

(** [re.search(r, s)] *)
Definition search (r : regex) (s : str) : option matched := search_from r None s.

(** [bool(re.search(r, s))] *)
Definition found (r : regex) (s : str) : bool :=
  match search r s with Some _ => true | None => false end.

(** [re.search(r, s).group(1)] for a pattern whose group always takes part. *)
Definition search_group (r : regex) (s : str) : option str :=
  match search r s with
  | Some m => group1 m
  | None => None
  end.

(** The last character of [pre], the character before the position that
    follows [pre]. *)
Definition last_char (prev : option char) (pre : str) : option char :=
  match rev pre with c :: _ => Some c | [] => prev end.

(** [re.findall(r, s)] for a pattern with one group whose matches are never
    empty (the source's only such pattern is [\b(\d+)\b]): the group of every
    match, left to right, each search resuming where the previous match
    ended.  Every round consumes a character, so [length s + 1] rounds
    exhaust the text. *)
Fixpoint findall_from (fuel : nat) (r : regex) (prev : option char) (s : str)
    : list str :=
  match fuel with
  | O => []
  | S fuel' =>
      match match_at r prev s, s with
      | Some m, c :: s' =>
          let g := match group1 m with Some t => t | None => [] end in
          let consumed := firstn (length s - length (after m)) s in
          if length (after m) <? length s
          then g :: findall_from fuel' r (last_char prev consumed) (after m)
          else g :: findall_from fuel' r (Some c) s'
      | Some m, [] => [match group1 m with Some t => t | None => [] end]
      | None, c :: s' => findall_from fuel' r (Some c) s'
      | None, [] => []
      end
  end.

Definition findall (r : regex) (s : str) : list str :=
  findall_from (S (length s)) r None s.

End Re.

Import Re.

(* ================================================================== *)
(** * The numeric normalizer *)
(* ================================================================== *)

Module Normalizer.

Definition is_dot (c : char) : bool := char_eqb c ".".

(** The class [[\d\.]]. *)
Definition digit_or_dot (c : char) : bool := is_digit c || is_dot c.

(** The class [[\-−–]]: hyphen-minus, minus sign (U+2212) and en dash
    (U+2013). *)
Definition is_dash (c : char) : bool :=
  char_eqb c "-" || char_eqb c MinusSign || char_eqb c EnDash.

(** [([\d]+\.[\d]+)] *)
Definition decimal_re : regex :=
  Grp (Cat (Plus is_digit) (Cat (Chr ".") (Plus is_digit))).

(** [^\s*[\-−–]] *)
Definition leading_minus_re : regex :=
  Cat Bol (Cat (Star is_space) (Cls is_dash)).

(** [\(?([\d\.]+)] *)
Definition open_paren_re : regex :=
  Cat (Opt (Chr "(")) (Grp (Plus digit_or_dot)).

(** [\(([\d\.]+)\)] *)
Definition paren_re : regex :=
  Cat (Chr "(") (Cat (Grp (Plus digit_or_dot)) (Chr ")")).

(** [([\d\.]+)] *)
Definition number_re : regex := Grp (Plus digit_or_dot).

(** [\b(\d+)\b] *)
Definition int_token_re : regex := Cat Bnd (Cat (Grp (Plus is_digit)) Bnd).

(** [text.replace('$', '').replace(',', '').strip()] *)
Definition clean (text : str) : str :=
  strip (remove_char "," (remove_char "$" text)).

Definition negative (v : str) : str := Latin "-" :: v.

(** [cleaned_text.startswith('(') and not cleaned_text.endswith(')')] *)
Definition opens_unclosed (cleaned : str) : bool :=
  startswith (lit "(") cleaned && negb (endswith (lit ")") cleaned).

(** The branch taken when a decimal token [d] was found. *)
Definition decimal_case (cleaned d : str) : str :=
  if contains (lit "(" ++ d ++ lit ")") cleaned
     || contains (lit "( " ++ d ++ lit " )") cleaned
  then negative d
  else if found leading_minus_re cleaned then negative d
  else if opens_unclosed cleaned then negative d
  else d.

(** Opening parenthesis without the closing one. *)
Definition split_paren_case (cleaned : str) : option str :=
  if opens_unclosed cleaned
  then option_map negative (search_group open_paren_re cleaned)
  else None.

(** A number between parentheses. *)
Definition paren_case (cleaned : str) : option str :=
  if contains (lit "(") cleaned && contains (lit ")") cleaned
  then option_map negative (search_group paren_re cleaned)
  else None.

(** A leading dash. *)
Definition minus_case (cleaned : str) : option str :=
  if found leading_minus_re cleaned
  then option_map negative (search_group number_re cleaned)
  else None.

(** [len(n) > 2 or int(n) > 20] *)
Definition survives (n : str) : bool :=
  (2 <? length n) || (20 <? int_of_digits n)%N.

(** The bare-integer fallback. *)
Definition integer_case (cleaned : str) : option str :=
  let int_matches := findall int_token_re cleaned in
  match int_matches with
  | [] => None
  | _ :: _ =>
      let valid_ints := filter survives int_matches in
      match valid_ints with
      | v :: _ => Some v
      | [] =>
          match max_by_int int_matches with
          | Some largest =>
              if length largest + 3 <? length cleaned then Some largest else None
          | None => None
          end
      end
  end.

Definition or_else {A} (x : option A) (y : option A) : option A :=
  match x with Some _ => x | None => y end.

Definition extract_numeric_value (text : str) : option str :=
  match text with
  | [] => None
  | _ :: _ =>
      let cleaned_text := clean text in
      match search_group decimal_re cleaned_text with
      | Some d => Some (decimal_case cleaned_text d)
      | None =>
          or_else (split_paren_case cleaned_text)
         (or_else (paren_case cleaned_text)
         (or_else (minus_case cleaned_text)
           (if str_eqb cleaned_text (lit ")") then None
            else integer_case cleaned_text)))
      end
  end.

End Normalizer.

Import Normalizer.

(* ================================================================== *)
(** * The label classifiers *)
(* ================================================================== *)

Module Classifier.

(** [\s*] and [\s+] *)
Definition ws : regex := Star is_space.
Definition ws1 : regex := Plus is_space.

(** The concatenation and the alternation of a list of patterns. *)
Definition cats (rs : list regex) : regex := fold_right Cat Emp rs.

Fixpoint alts (rs : list regex) : regex :=
  match rs with
  | [] => Emp
  | [r] => r
  | r :: rs' => Alt r (alts rs')
  end.

(** The class [[a-z\s]] under [re.IGNORECASE]. *)
Definition az_or_space (c : char) : bool :=
  in_range 97 122 (lower_char c) || is_space (lower_char c).

(** [(?:common|outstanding|ordinary)?] *)
Definition share_kind : regex :=
  Opt (alts [LitI "common"; LitI "outstanding"; LitI "ordinary"]).

(** [(?:basic|diluted)?] *)
Definition variant_prefix : regex := Opt (alts [LitI "basic"; LitI "diluted"]).

(** The list [patterns] of [check_eps_pattern], compiled with
    [re.IGNORECASE], in the order of the source. *)
Definition patterns : list regex :=
  [ cats [variant_prefix; ws; LitI "earnings"; ws; Opt (LitI "(loss)"); ws;
          LitI "per"; ws; share_kind; ws; LitI "share"];
    cats [variant_prefix; ws; LitI "loss"; ws; LitI "per"; ws; share_kind; ws;
          LitI "share"];
    cats [LitI "earnings"; ws; LitI "(loss)"; ws; LitI "per"; ws; share_kind;
          ws; LitI "share"];
    cats [LitI "net"; ws; alts [LitI "income"; LitI "loss"; LitI "earnings"];
          ws;
          Opt (cats [LitI "attributable"; ws; LitI "to"; ws; Plus az_or_space]);
          ws; LitI "per"; ws; LitI "share"];
    cats [LitI "income"; ws; LitI "(loss)"; ws; LitI "per"; ws; LitI "share"];
    cats [Bnd; LitI "eps"; Bnd];
    cats [LitI "earnings"; ws; LitI "per"; ws; LitI "share"];
    cats [LitI "net"; ws1; LitI "income"; ws1; LitI "available"; ws1;
          LitI "to"; ws1; LitI "common"; ws1; LitI "stockholders"; ws1;
          LitI "per"; ws1; LitI "share"];
    cats [LitI "net"; ws1; LitI "income"; ws1; LitI "per"; ws1; LitI "common";
          ws1; LitI "share"];
    cats [LitI "net"; ws;
          Alt (cats [LitI "(loss)"; ws; LitI "income"])
              (cats [LitI "income"; ws; LitI "(loss)"]);
          ws; LitI "per"; ws; LitI "share"] ].

(** [weighted|average|shares\s*outstanding], with [re.IGNORECASE]. *)
Definition exclusion_re : regex :=
  alts [LitI "weighted"; LitI "average";
        cats [LitI "shares"; ws; LitI "outstanding"]].

(** The loop over [patterns]: a pattern that matches returns [True] unless
    the exclusion matches too, in which case the loop goes on. *)
Fixpoint scan_patterns (ps : list regex) (text : str) : bool :=
  match ps with
  | [] => false
  | pattern :: ps' =>
      if found pattern text
      then if found exclusion_re text then scan_patterns ps' text else true
      else scan_patterns ps' text
  end.

Definition check_eps_pattern (text : str) : bool :=
  let text := strip (lower text) in
  scan_patterns patterns text.

(** [\bbasic\b], [\bdiluted\b] *)
Definition basic_word_re : regex := cats [Bnd; Lit "basic"; Bnd].
Definition diluted_word_re : regex := cats [Bnd; Lit "diluted"; Bnd].

(** [basic\s+(?:and|&)\s+diluted] and [diluted\s+(?:and|&)\s+basic] *)
Definition basic_and_diluted_re : regex :=
  cats [Lit "basic"; ws1; Alt (Lit "and") (Lit "&"); ws1; Lit "diluted"].
Definition diluted_and_basic_re : regex :=
  cats [Lit "diluted"; ws1; Alt (Lit "and") (Lit "&"); ws1; Lit "basic"].

(** No operation of the body raises on a text, so the handler of the
    source's [try] is never entered. *)
Definition is_basic_eps (text : str) : bool * bool :=
  let text := lower text in
  let has_basic := found basic_word_re text in
  let has_diluted := found diluted_word_re text in
  if found basic_and_diluted_re text || found diluted_and_basic_re text
  then (true, true)
  else (has_basic, has_diluted).

(** [non-gaap|non\s*gaap|adjusted] *)
Definition non_gaap_re : regex :=
  alts [Lit "non-gaap"; cats [Lit "non"; ws; Lit "gaap"]; Lit "adjusted"].

Definition is_gaap_eps (text : str) : bool :=
  let text := lower text in
  negb (found non_gaap_re text).

End Classifier.

Import Classifier.

(* ================================================================== *)
(** * Candidates, occurrences and the candidate selector *)
(* ================================================================== *)

(** The dictionary appended to [row_values] for a cell that yields a
    number. *)
Record candidate : Type := Candidate {
  cand_value : str;
  cand_basic : bool;
  cand_diluted : bool;
  cand_gaap : bool
}.

(** The dictionary built by [select_eps_value], one per label row. *)
Record occurrence : Type := Occurrence {
  table_idx : nat;
  row_text : str;
  basic : bool;
  diluted : bool;
  gaap : bool;
  value : str;
  all_values : list str
}.

Module Selector.

Definition select_eps_value (row_values : list candidate) (row_text : str)
    (table_idx : nat) : option occurrence :=
  match row_values with
  | [] => None
  | first :: _ =>
      let basic_values := filter cand_basic row_values in
      let selected_entry :=
        match basic_values with
        | b :: _ => b
        | [] =>
            let diluted_values := filter cand_diluted row_values in
            match diluted_values with
            | d :: _ => d
            | [] => first
            end
        end in
      let value_list := map cand_value row_values in
      Some {| table_idx := table_idx;
              row_text := slice_to 100 row_text;
              basic := cand_basic selected_entry;
              diluted := cand_diluted selected_entry;
              gaap := cand_gaap selected_entry;
              value := cand_value selected_entry;
              all_values := value_list |}
  end.

End Selector.

Import Selector.

(* ================================================================== *)
(** * The document scan and the row stitcher *)
(* ================================================================== *)

Module Aggregator.

(** The parsed tree as the scan reads it: of a row, the text
    [row.get_text()] and the texts [cell.get_text()] of its [td] cells; a
    table is the list of its [tr] rows, a document the list of its tables. *)
Record row : Type := Row { row_get_text : str; row_cells : list str }.
Definition table : Type := list row.
Definition document : Type := list table.

(** [row.get_text().lower().strip().replace(':', '')] *)
Definition text_of_row (r : row) : str :=
  remove_char ":" (strip (lower (row_get_text r))).

(** The variables of the stitching loop. *)
Record stitch_state : Type := Stitch {
  found_value : bool;
  i : nat;
  st_basic : bool;
  st_diluted : bool;
  st_gaap : bool;
  row_values : list candidate
}.

(** The body of [for cell in cells]: a cell that yields a number sets
    [found_value] and appends a candidate with the classification in
    force. *)
Definition scan_cell (b d g : bool) (acc : bool * list candidate) (cell : str)
    : bool * list candidate :=
  let cell_text := strip cell in
  match extract_numeric_value cell_text with
  | Some v => (true, snd acc ++ [Candidate v b d g])
  | None => acc
  end.

Definition scan_cells (b d g : bool) (cells : list str)
    (acc : bool * list candidate) : bool * list candidate :=
  fold_left (scan_cell b d g) cells acc.

(** One round of [while (not found_value and i + 1 < len(rows))]; [None]
    when the loop condition fails. *)
Definition stitch_step (rows : table) (st : stitch_state) : option stitch_state :=
  if negb (found_value st) && (i st + 1 <? length rows) then
    match nth_error rows (i st + 1) with
    | Some next_row =>
        let next_row_text := text_of_row next_row in
        let bd :=
          if negb (st_basic st && st_diluted st)
          then is_basic_eps next_row_text
          else (st_basic st, st_diluted st) in
        let g := is_gaap_eps next_row_text in
        let acc := scan_cells (fst bd) (snd bd) g (row_cells next_row)
                     (found_value st, row_values st) in
        Some {| found_value := fst acc; i := i st + 1;
                st_basic := fst bd; st_diluted := snd bd; st_gaap := g;
                row_values := snd acc |}
    | None => None
    end
  else None.

(** The loop, run for at most [fuel] rounds. *)
Fixpoint stitch_loop (fuel : nat) (rows : table) (st : stitch_state)
    : stitch_state :=
  match fuel with
  | O => st
  | S fuel' =>
      match stitch_step rows st with
      | Some st' => stitch_loop fuel' rows st'
      | None => st
      end
  end.

(** The candidates stitched to the label row at index [idx]: the cells of
    the row itself, then the loop.  Every round moves [i] one row on and
    [i + 1] stays below [len(rows)], so [length rows] rounds are enough. *)
Definition stitch (rows : table) (idx : nat) (r : row) : stitch_state :=
  let row_text := text_of_row r in
  let bd := is_basic_eps row_text in
  let gaap := is_gaap_eps row_text in
  let acc := scan_cells (fst bd) (snd bd) gaap (row_cells r) (false, []) in
  stitch_loop (length rows) rows
    {| found_value := fst acc; i := idx;
       st_basic := fst bd; st_diluted := snd bd; st_gaap := gaap;
       row_values := snd acc |}.

(** The body of [for i, row in enumerate(rows)].  [select_eps_value] has no
    result only on an empty list, which the guard excludes. *)
Definition scan_row (rows : table) (tidx : nat) (eps_values : list occurrence)
    (ir : nat * row) : list occurrence :=
  let row_text := text_of_row (snd ir) in
  if check_eps_pattern row_text then
    let st := stitch rows (fst ir) (snd ir) in
    match row_values st with
    | [] => eps_values
    | _ :: _ =>
        match select_eps_value (row_values st) row_text tidx with
        | Some eps_entry => eps_values ++ [eps_entry]
        | None => eps_values
        end
    end
  else eps_values.

(** A row given by its text and the texts of its cells. *)
Definition row_of (text : string) (cells : list string) : row :=
  Row (lit text) (map lit cells).

(** [enumerate(l)] *)
Definition enumerate {A} (l : list A) : list (nat * A) :=
  combine (seq 0 (length l)) l.

Definition scan_table (eps_values : list occurrence) (it : nat * table)
    : list occurrence :=
  fold_left (scan_row (snd it) (fst it)) (enumerate (snd it)) eps_values.

(** [extract_eps_from_filing], from the parsed tables on. *)
Definition extract_eps_from_filing (tables : document) : list occurrence :=
  fold_left scan_table (enumerate tables) [].

End Aggregator.

Import Aggregator.

(* ================================================================== *)
(** * The final resolver *)
(* ================================================================== *)

Module Resolver.

Section WithFloatText.

(** [float(s)]: the float a text denotes, [None] for [ValueError]. *)
Variable float_of_text : str -> option float.

(** [sum(xs)] over floats. *)
Variable float_sum : list float -> float.

(** [f"{x:.{n}f}"] *)
Variable format_fixed : float -> nat -> str.

(** [-100 <= value_float <= 100] *)
Definition in_eps_band (value_float : float) : bool :=
  ((-100)%float <=? value_float)%float && (value_float <=? 100%float)%float.

Definition get_priority (entry : occurrence) : Z :=
  let priority := 0%Z in
  let priority := if basic entry then (priority + 100)%Z else priority in
  let priority := if gaap entry then (priority + 50)%Z else priority in
  let row_text := lower (row_text entry) in
  let priority :=
    if contains (lit "basic") row_text then (priority + 30)%Z
    else if contains (lit "diluted") row_text then (priority + 20)%Z
    else priority in
  match float_of_text (value entry) with
  | Some value_float =>
      if negb (in_eps_band value_float) then (priority - 1000)%Z else priority
  | None => priority
  end.

(** [shares\s*outstanding], with [re.IGNORECASE]. *)
Definition shares_outstanding_re : regex :=
  cats [LitI "shares"; ws; LitI "outstanding"].

(** [list.sort(key=get_priority, reverse=True)]: the stable sort by
    descending key, here by insertion from the right. *)
Fixpoint insert_desc (x : occurrence) (l : list occurrence) : list occurrence :=
  match l with
  | [] => [x]
  | y :: l' =>
      if (get_priority x <? get_priority y)%Z
      then y :: insert_desc x l'
      else x :: l
  end.

Definition sort_by_priority (l : list occurrence) : list occurrence :=
  fold_right insert_desc [] l.

(** [grouped_values], a dictionary in insertion order: a new key opens a
    group at the end, a known key has the entry appended to its group. *)
Fixpoint group_add (entry : occurrence) (grouped : list (str * list occurrence))
    : list (str * list occurrence) :=
  match grouped with
  | [] => [(row_text entry, [entry])]
  | (k, members) :: grouped' =>
      if str_eqb k (row_text entry)
      then (k, members ++ [entry]) :: grouped'
      else (k, members) :: group_add entry grouped'
  end.

Definition group_by_row_text (l : list occurrence) : list (str * list occurrence) :=
  fold_left (fun grouped entry => group_add entry grouped) l [].

(** [set(...)] of texts, as a list without repetition. *)
Definition char_eq_dec (a b : char) : {a = b} + {a <> b}.
Proof. decide equality. apply ascii_dec. Defined.

Definition str_eq_dec : forall a b : str, {a = b} + {a <> b} :=
  list_eq_dec char_eq_dec.

Definition unique_values (group : list occurrence) : list str :=
  nodup str_eq_dec (map value group).

(** The generator [float(entry['value']) for entry in top_group] as [sum]
    consumes it: the floats of the values in order, [None] when a value is
    not a float ([ValueError]). *)
Fixpoint float_values (group : list occurrence) : option (list float) :=
  match group with
  | [] => Some []
  | entry :: group' =>
      match float_of_text (value entry) with
      | Some x =>
          match float_values group' with
          | Some xs => Some (x :: xs)
          | None => None
          end
      | None => None
      end
  end.

(** [len(v.split('.')[-1]) if '.' in v else 0] *)
Definition decimal_places (v : str) : nat :=
  if contains (lit ".") v then length (last_segment "." v) else 0.

(** What is returned for the top group.  The group of a key of the
    dictionary has a first entry. *)
Definition resolve_group (top_group : list occurrence) : option str :=
  match top_group with
  | [] => None
  | first :: _ =>
      if length (unique_values top_group) =? 1 then Some (value first)
      else
        match float_values top_group with
        | Some xs =>
            let total_value := float_sum xs in
            Some (format_fixed total_value (decimal_places (value first)))
        | None => Some (value first)
        end
  end.

Definition select_final_eps (eps_values : list occurrence) : option str :=
  match eps_values with
  | [] => None
  | _ :: _ =>
      let filtered_values :=
        filter (fun entry => negb (found shares_outstanding_re (row_text entry)))
               eps_values in
      match filtered_values with
      | [] => None
      | _ :: _ =>
          let filtered_values := sort_by_priority filtered_values in
          let grouped_values := group_by_row_text filtered_values in
          match grouped_values with
          | (top_group_text, top_group) :: _ => resolve_group top_group
          | [] => None
          end
      end
  end.

End WithFloatText.

End Resolver.

Import Resolver.

(* ================================================================== *)
(** * The batch over a directory *)
(* ================================================================== *)

Module Batch.

(** An entry of the directory: the name [os.listdir] reports and the
    tables the parser finds in the file of that name. *)
Record filing : Type := Filing { filename : str; filing_tables : document }.

(** A row of the data frame: the dictionary appended to [all_results]. *)
Record result_row : Type := ResultRow { res_filename : str; res_eps : option str }.

Section WithFloatText.

Variable float_of_text : str -> option float.
Variable float_sum : list float -> float.
Variable format_fixed : float -> nat -> str.

(** The body of [for filename in os.listdir(directory_path)]. *)
Definition process_file (all_results : list result_row) (f : filing)
    : list result_row :=
  if endswith (lit ".html") (filename f) then
    let results := extract_eps_from_filing (filing_tables f) in
    let value := select_final_eps float_of_text float_sum format_fixed results in
    all_results ++ [ResultRow (filename f) value]
  else all_results.

(** [process_directory]: the rows of the data frame, in order. *)
Definition process_directory (listing : list filing) : list result_row :=
  fold_left process_file listing [].

End WithFloatText.

End Batch.

Import Batch.

(* ================================================================== *)
(** * The float operations of the Python library *)
(* ================================================================== *)

Module PyFloat.

(** What [float] strips at both ends: TAB..CR, space, NEL, NBSP. *)
Definition is_blank (c : char) : bool :=
  in_range 9 13 c || (code c =? 32)%N || (code c =? 133)%N || (code c =? 160)%N.

Fixpoint ltrim (s : str) : str :=
  match s with
  | c :: s' => if is_blank c then ltrim s' else s
  | [] => []
  end.

Definition trim (s : str) : str := rev (ltrim (rev (ltrim s))).

(** The rest of a [digitpart], digits with single underscores between
    them: the number read so far, the count of digits, and what follows. *)
Fixpoint digits_tail (acc : N) (n : nat) (s : str) : N * nat * str :=
  match s with
  | c :: s' =>
      if is_digit c then digits_tail (10 * acc + digit_value c) (S n) s'
      else if char_eqb c "_" then
        match s' with
        | d :: s'' =>
            if is_digit d
            then digits_tail (10 * acc + digit_value d) (S n) s''
            else (acc, n, s)
        | [] => (acc, n, s)
        end
      else (acc, n, s)
  | [] => (acc, n, s)
  end.

(** A [digitpart] that continues the number [acc]. *)
Definition digitpart (acc : N) (s : str) : option (N * nat * str) :=
  match s with
  | c :: s' =>
      if is_digit c then Some (digits_tail (10 * acc + digit_value c) 1 s')
      else None
  | [] => None
  end.

(** An optional sign. *)
Definition sign_of (s : str) : bool * str :=
  match s with
  | c :: s' =>
      if char_eqb c "-" then (true, s')
      else if char_eqb c "+" then (false, s')
      else (false, s)
  | [] => (false, s)
  end.

(** [number ::= [digitpart] "." digitpart | digitpart ["."]]: the digits
    as one number, the count of digits after the point, and what follows. *)
Definition number (s : str) : option (N * nat * str) :=
  match digitpart 0 s with
  | Some (ip, _, rest) =>
      match rest with
      | c :: rest' =>
          if char_eqb c "." then
            match digitpart ip rest' with
            | Some r => Some r
            | None => Some (ip, 0, rest')
            end
          else Some (ip, 0, rest)
      | [] => Some (ip, 0, [])
      end
  | None =>
      match s with
      | c :: s' => if char_eqb c "." then digitpart 0 s' else None
      | [] => None
      end
  end.

(** [exponent ::= ("e" | "E") [sign] digitpart], optional, up to the end of
    the text. *)
Definition exponent (s : str) : option Z :=
  match s with
  | [] => Some 0%Z
  | c :: s' =>
      if char_eqb (lower_char c) "e" then
        let (neg, s'') := sign_of s' in
        match digitpart 0 s'' with
        | Some (e, _, []) => Some (if neg then (- Z.of_N e)%Z else Z.of_N e)
        | _ => None
        end
      else None
  end.

(** The float nearest to [m * 10 ^ e10], ties to even. *)
Definition float_of_decimal (neg : bool) (m : N) (e10 : Z) : float :=
  SF2Prim
    match m with
    | N0 => S754_zero neg
    | Npos p =>
        if (0 <=? e10)%Z
        then binary_round prec emax neg (p * Z.to_pos (10 ^ e10)) 0
        else SFdiv prec emax (S754_finite neg p 0)
                   (S754_finite false (Z.to_pos (10 ^ (- e10))) 0)
    end.

(** [float(s)] *)
Definition float_of_text (s : str) : option float :=
  let (neg, body) := sign_of (trim s) in
  let word := lower body in
  if str_eqb word (lit "inf") || str_eqb word (lit "infinity")
  then Some (if neg then neg_infinity else infinity)
  else if str_eqb word (lit "nan") then Some nan
  else
    match number body with
    | Some (m, scale, rest) =>
        match exponent rest with
        | Some e => Some (float_of_decimal neg m (e - Z.of_nat scale))
        | None => None
        end
    | None => None
    end.

(** [sum(xs)] as CPython up to 3.11 computes it, adding from the left
    (later versions compensate the rounding errors of the additions). *)
Definition float_sum (xs : list float) : float :=
  fold_left PrimFloat.add xs 0%float.

(** [num / den] rounded to the nearest integer, ties to even. *)
Definition div_half_even (num den : Z) : Z :=
  let q := (num / den)%Z in
  let r := (num mod den)%Z in
  match (2 * r ?= den)%Z with
  | Lt => q
  | Eq => if Z.even q then q else (q + 1)%Z
  | Gt => (q + 1)%Z
  end.

Definition decimal_digits (z : Z) : str :=
  lit (NilZero.string_of_uint (N.to_uint (Z.to_N z))).

(** The digits of [z / 10 ^ n] with [n] places after the point. *)
Definition fixed_point (z : Z) (n : nat) : str :=
  let ds := decimal_digits z in
  let ds := repeat (Latin "0") (S n - length ds) ++ ds in
  let k := length ds - n in
  match n with
  | O => ds
  | S _ => firstn k ds ++ lit "." ++ skipn k ds
  end.

Definition sign_text (neg : bool) : str := if neg then lit "-" else [].

(** [f"{x:.{n}f}"]: the exact value of the float, rounded to [n] places,
    ties to even. *)
Definition format_fixed (x : float) (n : nat) : str :=
  match Prim2SF x with
  | S754_nan => lit "nan"
  | S754_infinity neg => sign_text neg ++ lit "inf"
  | S754_zero neg => sign_text neg ++ fixed_point 0 n
  | S754_finite neg m e =>
      let scaled := (Z.pos m * 10 ^ Z.of_nat n)%Z in
      let z := if (0 <=? e)%Z then (scaled * 2 ^ e)%Z
               else div_half_even scaled (2 ^ (- e)) in
      sign_text neg ++ fixed_point z n
  end.

End PyFloat.

(* ================================================================== *)
(** * Vocabulary of the properties *)
(* ================================================================== *)

Module Props.

(** A decimal number in text form: an optional single minus sign, then
    digits with at most one decimal point and at least one digit. *)
Definition unsigned_decimal (s : str) : bool :=
  forallb digit_or_dot s
  && (length (filter is_dot s) <=? 1)
  && existsb is_digit s.

Definition is_decimal_text (s : str) : bool :=
  match s with
  | c :: s' => if char_eqb c "-" then unsigned_decimal s' else unsigned_decimal s
  | [] => false
  end.

(** A non-empty run of digits and dots, and the same with a minus sign in
    front: the texts the normalizer can return. *)
Definition digits_and_dots (v : str) : bool :=
  match v with
  | [] => false
  | _ :: _ => forallb digit_or_dot v
  end.

Definition numeric_shape (v : str) : bool :=
  match v with
  | c :: v' => if char_eqb c "-" then digits_and_dots v' else digits_and_dots v
  | [] => false
  end.

(** The bare-integer tokens of a text that pass the small-integer
    exclusion, in text order. *)
Definition surviving_tokens (cleaned : str) : list str :=
  filter survives (findall int_token_re cleaned).

(** [sub] neither starts nor ends with white space. *)
Definition tight (sub : str) : bool :=
  match sub, rev sub with
  | c1 :: _, c2 :: _ => negb (is_space c1) && negb (is_space c2)
  | _, _ => false
  end.

(** The candidate the selector prefers: the first flagged basic, else the
    first flagged diluted, else the first of the list. *)
Definition preferred (first : candidate) (rest : list candidate) : candidate :=
  match find cand_basic (first :: rest) with
  | Some b => b
  | None =>
      match find cand_diluted (first :: rest) with
      | Some d => d
      | None => first
      end
  end.

(** The selected value is one of the values gathered. *)
Definition value_gathered (e : occurrence) : Prop :=
  all_values e <> [] /\ In (value e) (all_values e).

(** The candidates of one row under a classification: one per cell that
    yields a number, in cell order. *)
Definition cell_candidates (b d g : bool) (cells : list str) : list candidate :=
  flat_map (fun cell =>
              match extract_numeric_value (strip cell) with
              | Some v => [Candidate v b d g]
              | None => []
              end) cells.

(** The advancement over the rows that follow a label row, as the
    description of the stitcher words it: the candidates found, the number
    of rows advanced over, and the classification in force at the end. *)
Record advanced : Type := Advanced {
  adv_values : list candidate;
  adv_rows : nat;
  adv_basic : bool;
  adv_diluted : bool;
  adv_gaap : bool
}.

(** While no candidate has been found and rows remain: keep basic/diluted
    when both are set, else take them from the row's text; take gaap from
    the row's text; stop at the first row with a candidate. *)
Fixpoint advance_rows (later : list row) (b d g : bool) : advanced :=
  match later with
  | [] => Advanced [] 0 b d g
  | r :: later' =>
      let bd := if b && d then (true, true) else is_basic_eps (text_of_row r) in
      let g' := is_gaap_eps (text_of_row r) in
      match cell_candidates (fst bd) (snd bd) g' (row_cells r) with
      | [] =>
          let res := advance_rows later' (fst bd) (snd bd) g' in
          Advanced (adv_values res) (S (adv_rows res))
                   (adv_basic res) (adv_diluted res) (adv_gaap res)
      | c :: cs => Advanced (c :: cs) 1 (fst bd) (snd bd) g'
      end
  end.

(** The state the loop ends in, read off the advancement. *)
Definition state_after (idx : nat) (res : advanced) : stitch_state :=
  {| found_value := match adv_values res with [] => false | _ :: _ => true end;
     i := idx + adv_rows res;
     st_basic := adv_basic res;
     st_diluted := adv_diluted res;
     st_gaap := adv_gaap res;
     row_values := adv_values res |}.

(** Descending order of the scores. *)
Definition score_ge (float_of_text : str -> option float) (a b : occurrence)
    : Prop :=
  (get_priority float_of_text b <= get_priority float_of_text a)%Z.

(** The occurrences the resolver keeps: those whose row text does not match
    "shares outstanding". *)
Definition survivors (eps_values : list occurrence) : list occurrence :=
  filter (fun entry => negb (found shares_outstanding_re (row_text entry)))
         eps_values.

End Props.

Import Props.

(* ================================================================== *)
(** * What a pattern matches *)
(* ================================================================== *)

Module Meaning.

(** [matches r prev t rest]: the pattern [r] matches the text [t] at a
    position that has [prev] before it and [rest] after [t]. *)
Fixpoint matches (r : regex) (prev : option char) (t rest : str) : Prop :=
  match r with
  | Emp => t = []
  | Cls p => exists c, t = [c] /\ p c = true
  | Cat r1 r2 =>
      exists t1 t2,
        t = t1 ++ t2
        /\ matches r1 prev t1 (t2 ++ rest)
        /\ matches r2 (last_char prev t1) t2 rest
  | Alt r1 r2 => matches r1 prev t rest \/ matches r2 prev t rest
  | Opt r1 => t = [] \/ matches r1 prev t rest
  | Star p => forallb p t = true
  | Plus p => t <> [] /\ forallb p t = true
  | Grp r1 => matches r1 prev t rest
  | Bnd => t = [] /\ xorb (word_before prev) (word_after rest) = true
  | Bol => t = [] /\ prev = None
  end.

(** The pattern matches somewhere in the text. *)
Definition occurs (r : regex) (s : str) : Prop :=
  exists pre t post,
    s = pre ++ t ++ post /\ matches r (last_char None pre) t post.

(** [w] stands in [s] as a whole word: no word character before or after
    it. *)
Definition word_in (w s : str) : Prop :=
  exists pre post,
    s = pre ++ w ++ post
    /\ word_before (last_char None pre) = false
    /\ word_after post = false.

(** [a], white space, [b] stand in [s]; [some] asks for at least one
    character of white space. *)
Definition spaced_in (some : bool) (a b s : str) : Prop :=
  exists ws,
    forallb is_space ws = true
    /\ (some = true -> ws <> [])
    /\ contains (a ++ ws ++ b) s = true.

(** The same text up to the case of the letters. *)
Definition same_letters (a b : str) : Prop := lower a = lower b.

(** [a], white space, "and" or "&", white space, [b] stand in [s]. *)
Definition joined_in (a b s : str) : Prop :=
  exists ws1 conj ws2,
    (conj = lit "and" \/ conj = lit "&")
    /\ ws1 <> [] /\ forallb is_space ws1 = true
    /\ ws2 <> [] /\ forallb is_space ws2 = true
    /\ contains (a ++ ws1 ++ conj ++ ws2 ++ b) s = true.

(** A label row: its text passes [check_eps_pattern]. *)
Definition is_label (r : row) : bool := check_eps_pattern (text_of_row r).

(** The occurrences the scan adds for the row [r] at index [idx] of the
    table [rows]: none or one. *)
Definition row_occurrences (rows : table) (tidx : nat) (ir : nat * row)
    : list occurrence :=
  scan_row rows tidx [] ir.

(** The occurrences the scan adds for a table. *)
Definition table_occurrences (it : nat * table) : list occurrence :=
  flat_map (row_occurrences (snd it) (fst it)) (enumerate (snd it)).

(** The numbers of the cells of a row, in cell order. *)
Definition cell_values (cells : list str) : list str :=
  flat_map (fun cell =>
              match extract_numeric_value (strip cell) with
              | Some v => [v]
              | None => []
              end) cells.

(** The numbers of the first row that has any. *)
Fixpoint first_values (rows : list row) : list str :=
  match rows with
  | [] => []
  | r :: rows' =>
      match cell_values (row_cells r) with
      | [] => first_values rows'
      | v :: vs => v :: vs
      end
  end.

(** The occurrence's value reads as a float outside the band
    [-100, 100], the case [get_priority] penalises. *)
Definition out_of_band (float_of_text : str -> option float) (e : occurrence)
    : bool :=
  match float_of_text (value e) with
  | Some x => negb (in_eps_band x)
  | None => false
  end.

(** The occurrences of the tables [l], numbered from [start]. *)
Definition occurrences_from (start : nat) (l : list table) : list occurrence :=
  flat_map table_occurrences (combine (seq start (length l)) l).

(** An occurrence with its table index moved by [n]. *)
Definition shift_table (n : nat) (e : occurrence) : occurrence :=
  {| table_idx := n + table_idx e;
     row_text := row_text e;
     basic := basic e;
     diluted := diluted e;
     gaap := gaap e;
     value := value e;
     all_values := all_values e |}.

(** The combined heading of basic and diluted, in either order. *)
Definition both_named (s : str) : Prop :=
  joined_in (lit "basic") (lit "diluted") s
  \/ joined_in (lit "diluted") (lit "basic") s.

(** The rows from a label row down to the first row that has a number,
    that row included; all the rows when none has a number. *)
Fixpoint rows_to_value (rows : list row) : list row :=
  match rows with
  | [] => []
  | r :: rows' =>
      match cell_values (row_cells r) with
      | [] => r :: rows_to_value rows'
      | _ :: _ => [r]
      end
  end.

(** The text of the row is classified as both basic and diluted. *)
Definition names_both (r : row) : bool :=
  fst (is_basic_eps (text_of_row r)) && snd (is_basic_eps (text_of_row r)).

(** No label row of the document has a number in its cells or in the
    cells of a row below it in its table. *)
Definition no_labelled_value (tables : document) : Prop :=
  forall rows idx r,
    In rows tables -> nth_error rows idx = Some r -> is_label r = true ->
    first_values (skipn idx rows) = [].

(** No character of the text is a digit or a dot. *)
Definition no_digit_or_dot (s : str) : bool :=
  forallb (fun c => negb (digit_or_dot c)) s.

End Meaning.

Import Meaning.

(* ================================================================== *)
(** * Properties of the numeric normalizer *)
(* ================================================================== *)

(** C1 (fails on the code): a returned value should read as a decimal
    number.  On the cell text [(.] the rule for an opening parenthesis
    without its closing one captures the lone dot with [[\d\.]+] and the
    normalizer returns [-.], which is not a decimal number and which
    [float] rejects. *)
Theorem extract_numeric_value_emits_lone_dot :
  extract_numeric_value (lit "(.") = Some (lit "-.")
  /\ is_decimal_text (lit "-.") = false
  /\ PyFloat.float_of_text (lit "-.") = None.
Proof. repeat split; vm_compute; reflexivity. Qed.

(** The three dashes of the sign test. *)
Example extract_numeric_value_dashes :
  extract_numeric_value (lit "-0.30") = Some (lit "-0.30")
  /\ extract_numeric_value (MinusSign :: lit "0.30") = Some (lit "-0.30")
  /\ extract_numeric_value (EnDash :: lit " 7") = Some (lit "-7").
Proof. repeat split; vm_compute; reflexivity. Qed.

(** The same class lets the two other sign rules emit runs of dots. *)
Example extract_numeric_value_dots :
  extract_numeric_value (lit "(..)") = Some (lit "-..")
  /\ extract_numeric_value (lit "-.") = Some (lit "-.")
  /\ extract_numeric_value (lit "(1..2") = Some (lit "-1..2").
Proof. repeat split; vm_compute; reflexivity. Qed.

(** C3: the worked examples of the normalizer. *)
Theorem extract_numeric_value_examples :
  extract_numeric_value (lit "$(1,234.56)") = Some (lit "-1234.56")
  /\ extract_numeric_value (lit "1.23") = Some (lit "1.23")
  /\ extract_numeric_value (lit "(5") = Some (lit "-5")
  /\ extract_numeric_value (lit ")") = None
  /\ extract_numeric_value (lit "") = None
  /\ extract_numeric_value (lit "12") = None.
Proof. repeat split; vm_compute; reflexivity. Qed.

(** The rounds of [findall] are bounded by the length of the text: any
    fuel above it gives the same list. *)
Lemma findall_from_fuel (r : regex) :
  forall (n m : nat) (prev : option char) (s : str),
    length s < n -> length s < m ->
    findall_from n r prev s = findall_from m r prev s.
Proof.
  induction n as [|n IH]; intros m prev s Hn Hm; [lia|].
  destruct m as [|m]; [lia|].
  simpl. destruct (match_at r prev s) as [mt|], s as [|c s']; auto.
  - destruct (length (after mt) <? length (c :: s')) eqn:E.
    + apply Nat.ltb_lt in E. f_equal. apply IH; lia.
    + f_equal. apply IH; simpl in *; lia.
  - apply IH; simpl in *; lia.
Qed.

Lemma found_false_search_group (r : regex) (s : str) :
  found r s = false -> search_group r s = None.
Proof.
  unfold found, search_group. destruct (search r s); [discriminate | reflexivity].
Qed.

Lemma char_eqb_eq (a b : char) : char_eqb a b = true -> a = b.
Proof.
  destruct a as [x| |], b as [y| |]; simpl; try discriminate; auto.
  intros H. apply Ascii.eqb_eq in H. subst. reflexivity.
Qed.

Lemma char_eqb_refl (a : char) : char_eqb a a = true.
Proof. destruct a; simpl; auto. apply Ascii.eqb_refl. Qed.

Lemma str_eqb_eq (a b : str) : str_eqb a b = true -> a = b.
Proof.
  revert b. induction a as [|x a IH]; intros [|y b]; simpl; try discriminate; auto.
  intros H. apply andb_prop in H as [Hxy Hab].
  apply char_eqb_eq in Hxy. subst. f_equal. auto.
Qed.

Lemma str_eqb_refl (a : str) : str_eqb a a = true.
Proof.
  induction a as [|x a IH]; simpl; auto. rewrite char_eqb_refl. exact IH.
Qed.

(** C2 as stated fails: with the two surviving tokens [100] and [200] the
    normalizer returns [100], not the larger [200]. *)
Lemma largest_survivor_not_returned :
  ~ (forall text : str,
       found decimal_re (clean text) = false ->
       opens_unclosed (clean text) = false ->
       found paren_re (clean text) = false ->
       found leading_minus_re (clean text) = false ->
       1 < length (surviving_tokens (clean text)) ->
       extract_numeric_value text = max_by_int (surviving_tokens (clean text))).
Proof.
  intros H. specialize (H (lit "100 200")).
  assert (E : extract_numeric_value (lit "100 200") = Some (lit "100"))
    by (vm_compute; reflexivity).
  rewrite E in H.
  assert (M : max_by_int (surviving_tokens (clean (lit "100 200"))) = Some (lit "200"))
    by (vm_compute; reflexivity).
  rewrite M in H.
  assert (C : Some (lit "100") = Some (lit "200")).
  { apply H; vm_compute; first [reflexivity | lia]. }
  vm_compute in C. discriminate C.
Qed.

(** The cleaned text of the amended C2 must not open with a parenthesis
    that is left unclosed at its end: there the rule for a split
    parenthesis takes the first run of digits and negates it, words in
    between or not. *)
Example extract_numeric_value_open_note :
  extract_numeric_value (lit "(see note) 100 200") = Some (lit "-100")
  /\ found decimal_re (clean (lit "(see note) 100 200")) = false
  /\ found paren_re (clean (lit "(see note) 100 200")) = false
  /\ found leading_minus_re (clean (lit "(see note) 100 200")) = false
  /\ surviving_tokens (clean (lit "(see note) 100 200")) = [lit "100"; lit "200"]
  /\ opens_unclosed (clean (lit "(see note) 100 200")) = true.
Proof. repeat split; vm_compute; reflexivity. Qed.

(** C2, amended: when the cleaned text has no decimal token (digits, a
    point, digits), does not open with a parenthesis while not ending with
    the closing one, has no run of digits and dots enclosed in parentheses
    and has no leading dash, and more than one bare-integer token survives
    the small-integer exclusion, the normalizer returns the first surviving
    token in text order.  The four conditions are conditions on the text:
    each is a pattern or a prefix and suffix test on the cleaned text. *)
Theorem extract_numeric_value_first_survivor (text : str) :
  found decimal_re (clean text) = false ->
  opens_unclosed (clean text) = false ->
  found paren_re (clean text) = false ->
  found leading_minus_re (clean text) = false ->
  1 < length (surviving_tokens (clean text)) ->
  extract_numeric_value text = hd_error (surviving_tokens (clean text)).
Proof.
  intros Hdec Hopen Hpar Hminus Hmany.
  unfold extract_numeric_value.
  destruct text as [|c0 text0].
  { vm_compute in Hmany. lia. }
  cbv beta iota zeta.
  set (text := c0 :: text0) in *.
  rewrite (found_false_search_group _ _ Hdec).
  unfold split_paren_case. rewrite Hopen. simpl or_else.
  unfold paren_case. rewrite (found_false_search_group _ _ Hpar).
  assert (Epar : (if contains (lit "(") (clean text) && contains (lit ")") (clean text)
                  then option_map negative (@None str)
                  else None) = None)
    by (destruct (contains (lit "(") (clean text) && contains (lit ")") (clean text));
        reflexivity).
  rewrite Epar. simpl or_else.
  unfold minus_case. rewrite Hminus. simpl or_else.
  destruct (str_eqb (clean text) (lit ")")) eqn:Eclose.
  { apply str_eqb_eq in Eclose. rewrite Eclose in Hmany.
    vm_compute in Hmany. lia. }
  unfold integer_case, surviving_tokens in *.
  destruct (findall int_token_re (clean text)) as [|t ts] eqn:Etok.
  { simpl in Hmany. lia. }
  destruct (filter survives (t :: ts)) as [|v vs].
  { simpl in Hmany. lia. }
  reflexivity.
Qed.

Lemma extract_numeric_value_first_survivor_witness :
  extract_numeric_value (lit "(see note 3) 100 200)")
  = hd_error (surviving_tokens (clean (lit "(see note 3) 100 200)"))).
Proof.
  apply extract_numeric_value_first_survivor.
  - vm_compute; reflexivity.
  - vm_compute; reflexivity.
  - vm_compute; reflexivity.
  - vm_compute; reflexivity.
  - vm_compute; lia.
Defined.

(* ================================================================== *)
(** * What the matcher captures *)
(* ================================================================== *)

Section Captures.

Lemma last_char_cons (prev : option char) (c : char) (t : str) :
  last_char prev (c :: t) = last_char (Some c) t.
Proof.
  unfold last_char. simpl. destruct (rev t) as [|z zs]; reflexivity.
Qed.

Lemma firstn_consumed {A} (t rest : list A) :
  firstn (length (t ++ rest) - length rest) (t ++ rest) = t.
Proof.
  rewrite length_app, Nat.add_sub.
  rewrite firstn_app, Nat.sub_diag, firstn_all. simpl. apply app_nil_r.
Qed.

(** A repetition consumes a run of characters of its class. *)
Lemma star_consumes {R} (p : char -> bool) :
  forall (s : str) (prev : option char) (k : option char -> str -> option R) x,
    star p prev s k = Some x ->
    exists t rest,
      s = t ++ rest /\ forallb p t = true /\ k (last_char prev t) rest = Some x.
Proof.
  induction s as [|c s IH]; intros prev k x H; simpl in H.
  - exists [], []. auto.
  - destruct (p c) eqn:Hc.
    + destruct (star p (Some c) s k) as [y|] eqn:E.
      * injection H as <-. apply IH in E as (t & rest & -> & Ht & Hk).
        exists (c :: t), rest. simpl. rewrite Hc, Ht, last_char_cons. auto.
      * exists [], (c :: s). auto.
    + exists [], (c :: s). auto.
Qed.

(** How a match of each construct proceeds. *)
Lemma rmatch_cat {R} (r1 r2 : regex) (prev : option char) (s : str)
    (g : option str) (k : cont R) :
  rmatch (Cat r1 r2) prev s g k
  = rmatch r1 prev s g (fun prev' s' g' => rmatch r2 prev' s' g' k).
Proof. reflexivity. Qed.

Lemma rmatch_grp {R} (r : regex) (prev : option char) (s : str)
    (g : option str) (k : cont R) :
  rmatch (Grp r) prev s g k
  = rmatch r prev s g
      (fun prev' s' _ => k prev' s' (Some (firstn (length s - length s') s))).
Proof. reflexivity. Qed.

Lemma cls_consumes {R} (p : char -> bool) (prev : option char) (s : str)
    (g : option str) (k : cont R) x :
  rmatch (Cls p) prev s g k = Some x ->
  exists c rest, s = c :: rest /\ p c = true /\ k (Some c) rest g = Some x.
Proof.
  simpl. destruct s as [|c rest]; [discriminate|].
  destruct (p c) eqn:Hc; [|discriminate]. eauto.
Qed.

Lemma plus_consumes {R} (p : char -> bool) (prev : option char) (s : str)
    (g : option str) (k : cont R) x :
  rmatch (Plus p) prev s g k = Some x ->
  exists t rest,
    s = t ++ rest /\ t <> [] /\ forallb p t = true
    /\ k (last_char prev t) rest g = Some x.
Proof.
  simpl. destruct s as [|c s]; [discriminate|].
  destruct (p c) eqn:Hc; [|discriminate].
  intros H. apply star_consumes in H as (t & rest & -> & Ht & Hk).
  exists (c :: t), rest. rewrite last_char_cons.
  repeat split; auto; [discriminate | simpl; rewrite Hc; exact Ht].
Qed.

Lemma bnd_passes {R} (prev : option char) (s : str) (g : option str)
    (k : cont R) x :
  rmatch Bnd prev s g k = Some x -> k prev s g = Some x.
Proof. simpl. destruct (xorb _ _); [auto | discriminate]. Qed.

(** An optional character in front of a pattern: the pattern matches at
    one of the two positions. *)
Lemma optional_char_then {R} (c0 : char) (r : regex) (prev : option char)
    (s : str) (g : option str) (k : cont R) x :
  rmatch (Cat (Opt (Chr c0)) r) prev s g k = Some x ->
  exists prev' s', rmatch r prev' s' g k = Some x.
Proof.
  change (rmatch (Cat (Opt (Chr c0)) r) prev s g k)
    with (match
            match s with
            | c :: s' => if char_eqb c0 c then rmatch r (Some c) s' g k else None
            | [] => None
            end
          with
          | Some y => Some y
          | None => rmatch r prev s g k
          end).
  destruct s as [|c s']; [eauto|].
  destruct (char_eqb c0 c); [|eauto].
  destruct (rmatch r (Some c) s' g k) eqn:E; [intros [= <-]; eauto | eauto].
Qed.

(** The group [([class]+)] captures a non-empty run of the class. *)
Lemma group_plus_captures {R} (p : char -> bool) (prev : option char) (s : str)
    (g : option str) (k : cont R) x :
  rmatch (Grp (Plus p)) prev s g k = Some x ->
  exists t rest,
    s = t ++ rest /\ t <> [] /\ forallb p t = true
    /\ k (last_char prev t) rest (Some t) = Some x.
Proof.
  rewrite rmatch_grp. intros H.
  apply plus_consumes in H as (t & rest & -> & Hne & Ht & Hk).
  rewrite firstn_consumed in Hk. exists t, rest. auto.
Qed.

Lemma digits_are_digits_or_dots (t : str) :
  forallb is_digit t = true -> forallb digit_or_dot t = true.
Proof.
  intros H. rewrite forallb_forall in *. intros c Hc.
  unfold digit_or_dot. rewrite (H c Hc). reflexivity.
Qed.

Lemma digits_and_dots_intro (t : str) :
  t <> [] -> forallb digit_or_dot t = true -> digits_and_dots t = true.
Proof. destruct t; [contradiction | auto]. Qed.

(** What a match of each capturing pattern of the normalizer reports. *)
Lemma number_re_captures (prev : option char) (s : str) (m : matched) :
  match_at number_re prev s = Some m ->
  exists v, group1 m = Some v /\ digits_and_dots v = true.
Proof.
  unfold match_at, number_re. intros H.
  apply group_plus_captures in H as (t & rest & _ & Hne & Ht & [= <-]).
  exists t. split; [reflexivity | apply digits_and_dots_intro; assumption].
Qed.

Lemma open_paren_re_captures (prev : option char) (s : str) (m : matched) :
  match_at open_paren_re prev s = Some m ->
  exists v, group1 m = Some v /\ digits_and_dots v = true.
Proof.
  unfold match_at, open_paren_re. intros H.
  apply optional_char_then in H as (prev' & s' & H).
  apply group_plus_captures in H as (t & rest & _ & Hne & Ht & [= <-]).
  exists t. split; [reflexivity | apply digits_and_dots_intro; assumption].
Qed.

Lemma paren_re_captures (prev : option char) (s : str) (m : matched) :
  match_at paren_re prev s = Some m ->
  exists v, group1 m = Some v /\ digits_and_dots v = true.
Proof.
  unfold match_at, paren_re, Chr. intros H.
  rewrite rmatch_cat in H.
  apply cls_consumes in H as (c & s' & _ & _ & H).
  rewrite rmatch_cat in H.
  apply group_plus_captures in H as (t & rest & _ & Hne & Ht & H).
  apply cls_consumes in H as (c' & rest' & _ & _ & [= <-]).
  exists t. split; [reflexivity | apply digits_and_dots_intro; assumption].
Qed.

Lemma int_token_re_captures (prev : option char) (s : str) (m : matched) :
  match_at int_token_re prev s = Some m ->
  exists v, group1 m = Some v /\ v <> [] /\ forallb is_digit v = true.
Proof.
  unfold match_at, int_token_re. intros H.
  rewrite rmatch_cat in H. apply bnd_passes in H.
  rewrite rmatch_cat in H.
  apply group_plus_captures in H as (t & rest & _ & Hne & Ht & H).
  apply bnd_passes in H. injection H as <-. exists t. auto.
Qed.

Lemma decimal_re_captures (prev : option char) (s : str) (m : matched) :
  match_at decimal_re prev s = Some m ->
  exists whole frac,
    group1 m = Some (whole ++ Latin "." :: frac)
    /\ whole <> [] /\ forallb is_digit whole = true
    /\ frac <> [] /\ forallb is_digit frac = true.
Proof.
  unfold match_at, decimal_re, Chr. intros H.
  rewrite rmatch_grp, rmatch_cat in H.
  apply plus_consumes in H as (t1 & s2 & -> & Hne1 & Ht1 & H).
  rewrite rmatch_cat in H.
  apply cls_consumes in H as (dot & s3 & -> & Hdot & H).
  apply char_eqb_eq in Hdot. subst dot.
  apply plus_consumes in H as (t2 & s5 & -> & Hne2 & Ht2 & H).
  injection H as <-. simpl group1.
  exists t1, t2.
  replace (t1 ++ Latin "." :: t2 ++ s5) with ((t1 ++ Latin "." :: t2) ++ s5)
    by (rewrite <- app_assoc; reflexivity).
  rewrite firstn_consumed. auto.
Qed.

(** A successful search is a match at some position. *)
Lemma search_from_matches (r : regex) :
  forall (s : str) (prev : option char) (m : matched),
    search_from r prev s = Some m ->
    exists prev' s', match_at r prev' s' = Some m.
Proof.
  induction s as [|c s IH]; intros prev m H; simpl in H.
  - destruct (match_at r prev []) eqn:E; [|discriminate].
    injection H as <-. eauto.
  - destruct (match_at r prev (c :: s)) eqn:E.
    + injection H as <-. eauto.
    + eapply IH. exact H.
Qed.

Lemma search_group_shape (r : regex) (P : str -> Prop) :
  (forall prev s m, match_at r prev s = Some m ->
                    exists v, group1 m = Some v /\ P v) ->
  forall s v, search_group r s = Some v -> P v.
Proof.
  intros Hr s v. unfold search_group, search.
  destruct (search_from r None s) as [m|] eqn:E; [|discriminate].
  apply search_from_matches in E as (prev' & s' & E).
  apply Hr in E as (w & Hw & HP). rewrite Hw. intros [= <-]. exact HP.
Qed.

(** Every token of [findall] is a non-empty run of digits. *)
Lemma findall_from_digits :
  forall (fuel : nat) (prev : option char) (s : str),
    Forall (fun v => v <> [] /\ forallb is_digit v = true)
           (findall_from fuel int_token_re prev s).
Proof.
  induction fuel as [|fuel IH]; intros prev s; simpl; [constructor|].
  destruct (match_at int_token_re prev s) as [m|] eqn:E.
  - apply int_token_re_captures in E as (v & Hv & Hne & Hd). rewrite Hv.
    destruct s as [|c s'].
    + constructor; [auto | constructor].
    + destruct (_ <? _); constructor; auto.
  - destruct s as [|c s']; [constructor | apply IH].
Qed.

Lemma max_by_int_in (l : list str) (x : str) : max_by_int l = Some x -> In x l.
Proof.
  revert x. induction l as [|a l IH]; intros x; simpl; [discriminate|].
  destruct (max_by_int l) as [y|].
  - destruct (_ <=? _)%N; intros [= <-]; [left; reflexivity | right; auto].
  - intros [= <-]. left. reflexivity.
Qed.

End Captures.

(* ================================================================== *)
(** * What the normalizer can return *)
(* ================================================================== *)

Section Shapes.

Lemma digit_not_dot (c : char) : is_digit c = true -> is_dot c = false.
Proof.
  intros H. destruct (is_dot c) eqn:E; auto.
  apply char_eqb_eq in E. subst c. vm_compute in H. discriminate.
Qed.

Lemma digit_not_dash (c : char) : is_digit c = true -> char_eqb c "-" = false.
Proof.
  intros H. destruct (char_eqb c "-") eqn:E; auto.
  apply char_eqb_eq in E. subst c. vm_compute in H. discriminate.
Qed.

Lemma digits_no_dots (t : str) :
  forallb is_digit t = true -> filter is_dot t = [].
Proof.
  induction t as [|c t IH]; simpl; auto.
  intros H. apply andb_prop in H as [Hc Ht].
  rewrite (digit_not_dot _ Hc). auto.
Qed.

Lemma unsigned_decimal_digits (t : str) :
  t <> [] -> forallb is_digit t = true -> unsigned_decimal t = true.
Proof.
  intros Hne Ht. unfold unsigned_decimal.
  rewrite (digits_are_digits_or_dots _ Ht), (digits_no_dots _ Ht).
  destruct t as [|c t]; [contradiction|].
  simpl in *. apply andb_prop in Ht as [-> _]. reflexivity.
Qed.

Lemma unsigned_decimal_point (whole frac : str) :
  whole <> [] -> forallb is_digit whole = true ->
  forallb is_digit frac = true ->
  unsigned_decimal (whole ++ Latin "." :: frac) = true.
Proof.
  intros Hne Hw Hf. unfold unsigned_decimal.
  rewrite forallb_app, filter_app, existsb_app. simpl.
  rewrite (digits_are_digits_or_dots _ Hw), (digits_are_digits_or_dots _ Hf).
  rewrite (digits_no_dots _ Hw), (digits_no_dots _ Hf).
  destruct whole as [|c whole]; [contradiction|].
  simpl in *. apply andb_prop in Hw as [-> _]. reflexivity.
Qed.

(** A decimal token, with or without the sign, is a decimal number. *)
Lemma decimal_token_is_decimal (whole frac : str) :
  whole <> [] -> forallb is_digit whole = true ->
  forallb is_digit frac = true ->
  is_decimal_text (whole ++ Latin "." :: frac) = true
  /\ is_decimal_text (negative (whole ++ Latin "." :: frac)) = true.
Proof.
  intros Hne Hw Hf.
  pose proof (unsigned_decimal_point frac Hne Hw Hf) as U.
  split; [|exact U].
  destruct whole as [|c whole]; [contradiction|].
  simpl in Hw. apply andb_prop in Hw as [Hc _].
  simpl app in *. unfold is_decimal_text.
  rewrite (digit_not_dash _ Hc). exact U.
Qed.

Lemma digits_token_is_decimal (t : str) :
  t <> [] -> forallb is_digit t = true -> is_decimal_text t = true.
Proof.
  intros Hne Ht. pose proof (unsigned_decimal_digits Hne Ht) as U.
  destruct t as [|c t]; [contradiction|].
  simpl in Ht. apply andb_prop in Ht as [Hc _].
  unfold is_decimal_text. rewrite (digit_not_dash _ Hc). exact U.
Qed.

Lemma decimal_is_shaped (v : str) : is_decimal_text v = true -> numeric_shape v = true.
Proof.
  assert (U : forall w, unsigned_decimal w = true -> digits_and_dots w = true).
  { intros w H. unfold unsigned_decimal in H.
    apply andb_prop in H as [H He]. apply andb_prop in H as [H _].
    destruct w; [discriminate | exact H]. }
  unfold is_decimal_text, numeric_shape.
  destruct v as [|c v]; auto. destruct (char_eqb c "-"); apply U.
Qed.

(** The value of the decimal branch. *)
Lemma decimal_case_is_decimal (cleaned d : str) :
  search_group decimal_re cleaned = Some d ->
  is_decimal_text (decimal_case cleaned d) = true.
Proof.
  intros H.
  assert (Hr : forall prev s m,
             match_at decimal_re prev s = Some m ->
             exists v, group1 m = Some v
                       /\ (is_decimal_text v = true
                           /\ is_decimal_text (negative v) = true)).
  { intros prev s m Hm.
    apply decimal_re_captures in Hm as (whole & frac & Hg & Hne & Hw & _ & Hf).
    exists (whole ++ Latin "." :: frac). split; [exact Hg|].
    apply decimal_token_is_decimal; assumption. }
  destruct (@search_group_shape _ _ Hr _ _ H) as [Hpos Hneg].
  unfold decimal_case.
  repeat match goal with |- context [if ?b then _ else _] => destruct b end;
    assumption.
Qed.

(** The value of a sign rule: a minus sign and a run of digits and dots. *)
Lemma sign_rule_shape (r : regex) (cleaned v : str) :
  (forall prev s m, match_at r prev s = Some m ->
                    exists w, group1 m = Some w /\ digits_and_dots w = true) ->
  option_map negative (search_group r cleaned) = Some v ->
  numeric_shape v = true.
Proof.
  intros Hr H. destruct (search_group r cleaned) as [w|] eqn:E; [|discriminate].
  injection H as <-.
  exact (@search_group_shape _ (fun w => digits_and_dots w = true) Hr _ _ E).
Qed.

(** The value of the integer branch. *)
Lemma integer_case_is_decimal (cleaned v : str) :
  integer_case cleaned = Some v -> is_decimal_text v = true.
Proof.
  unfold integer_case.
  pose proof (findall_from_digits (S (length cleaned)) None cleaned) as F.
  fold (findall int_token_re cleaned) in F.
  rewrite Forall_forall in F.
  assert (D : forall x, In x (findall int_token_re cleaned) ->
                        is_decimal_text x = true).
  { intros x Hx. destruct (F x Hx). apply digits_token_is_decimal; assumption. }
  destruct (findall int_token_re cleaned) as [|t ts] eqn:E; [discriminate|].
  destruct (filter survives (t :: ts)) as [|w ws] eqn:Ef.
  - destruct (max_by_int (t :: ts)) as [largest|] eqn:Em; [|discriminate].
    destruct (_ <? _); [|discriminate].
    intros [= <-]. apply D, max_by_int_in, Em.
  - intros [= <-]. apply D.
    assert (Hin : In w (filter survives (t :: ts))) by (rewrite Ef; left; reflexivity).
    apply filter_In in Hin. tauto.
Qed.

End Shapes.

Lemma returned_value_shaped (text v : str) :
  extract_numeric_value text = Some v -> numeric_shape v = true.
Proof.
  unfold extract_numeric_value. destruct text as [|c0 text0]; [discriminate|].
  cbv zeta. set (cleaned := clean (c0 :: text0)).
  destruct (search_group decimal_re cleaned) as [d|] eqn:Ed.
  { intros [= <-]. apply decimal_is_shaped, decimal_case_is_decimal, Ed. }
  unfold split_paren_case, paren_case, minus_case.
  destruct (opens_unclosed cleaned);
    [destruct (option_map negative (search_group open_paren_re cleaned)) eqn:E1;
     [intros [= <-]; exact (@sign_rule_shape _ _ _ open_paren_re_captures E1)|]|];
  simpl or_else;
  (destruct (contains (lit "(") cleaned && contains (lit ")") cleaned);
    [destruct (option_map negative (search_group paren_re cleaned)) eqn:E2;
     [intros [= <-]; exact (@sign_rule_shape _ _ _ paren_re_captures E2)|]|]);
  simpl or_else;
  (destruct (found leading_minus_re cleaned);
    [destruct (option_map negative (search_group number_re cleaned)) eqn:E3;
     [intros [= <-]; exact (@sign_rule_shape _ _ _ number_re_captures E3)|]|]);
  simpl or_else;
  (destruct (str_eqb cleaned (lit ")")); [discriminate|]);
  intros H; apply decimal_is_shaped, (@integer_case_is_decimal _ _ H).
Qed.

(** What every returned value looks like: a non-empty run of digits and
    dots, with or without a minus sign in front. *)
Theorem extract_numeric_value_shape (text v : str) :
  extract_numeric_value text = Some v -> numeric_shape v = true.
Proof. apply returned_value_shaped. Qed.

Lemma extract_numeric_value_shape_witness :
  numeric_shape (lit "-1234.56") = true.
Proof.
  apply (extract_numeric_value_shape (lit "$(1,234.56)")).
  vm_compute. reflexivity.
Defined.

(** Outside the three sign rules the value is a decimal number: when a
    decimal token exists, and when the bare-integer fallback is reached. *)
Theorem extract_numeric_value_decimal (text v : str) :
  extract_numeric_value text = Some v ->
  found decimal_re (clean text) = true
  \/ (split_paren_case (clean text) = None
      /\ paren_case (clean text) = None
      /\ minus_case (clean text) = None) ->
  is_decimal_text v = true.
Proof.
  unfold extract_numeric_value. destruct text as [|c0 text0]; [discriminate|].
  cbv zeta. set (cleaned := clean (c0 :: text0)).
  unfold found, search_group.
  destruct (search decimal_re cleaned) as [m|] eqn:Es.
  - intros H _. destruct (group1 m) as [d|] eqn:Eg.
    + injection H as <-. apply decimal_case_is_decimal.
      unfold search_group. rewrite Es. exact Eg.
    + exfalso. unfold search in Es.
      apply search_from_matches in Es as (prev' & s' & Es).
      apply decimal_re_captures in Es as (whole & frac & Hg & _).
      congruence.
  - intros H [Hf | (H1 & H2 & H3)]; [discriminate|].
    rewrite H1, H2, H3 in H. simpl or_else in H.
    destruct (str_eqb cleaned (lit ")")); [discriminate|].
    apply (@integer_case_is_decimal _ _ H).
Qed.

Lemma extract_numeric_value_decimal_witness :
  is_decimal_text (lit "-1234.56") = true.
Proof.
  apply (extract_numeric_value_decimal (lit "$(1,234.56)")).
  - vm_compute. reflexivity.
  - left. vm_compute. reflexivity.
Defined.

(* ================================================================== *)
(** * Occurrences of a phrase survive lowering and stripping *)
(* ================================================================== *)

Section Phrases.

Lemma startswith_split (p s : str) :
  startswith p s = true -> exists post, s = p ++ post.
Proof.
  revert s. induction p as [|x p IH]; intros s H.
  - exists s. reflexivity.
  - destruct s as [|y s]; simpl in H; [discriminate|].
    apply andb_prop in H as [Hxy Hp].
    apply char_eqb_eq in Hxy. subst y.
    destruct (IH _ Hp) as [post ->]. exists post. reflexivity.
Qed.

Lemma contains_split (sub s : str) :
  contains sub s = true -> exists pre post, s = pre ++ sub ++ post.
Proof.
  induction s as [|c s IH]; simpl; intros H.
  - rewrite orb_false_r in H. apply startswith_split in H as [post E].
    exists [], post. exact E.
  - apply orb_prop in H as [H|H].
    + apply startswith_split in H as [post E]. exists [], post. exact E.
    + destruct (IH H) as (pre & post & ->). exists (c :: pre), post. reflexivity.
Qed.

Lemma lower_app (a b : str) : lower (a ++ b) = lower a ++ lower b.
Proof. apply map_app. Qed.

(** A text that starts with a character that is not white space stops
    [lstrip]. *)
Lemma lstrip_app (a : str) (c : char) (x : str) :
  is_space c = false -> lstrip (a ++ c :: x) = lstrip a ++ c :: x.
Proof.
  intros Hc. induction a as [|y a IH]; simpl.
  - rewrite Hc. reflexivity.
  - destruct (is_space y); [exact IH | reflexivity].
Qed.

Lemma rstrip_app (y : str) (c : char) (b : str) :
  is_space c = false -> rstrip ((y ++ [c]) ++ b) = (y ++ [c]) ++ rstrip b.
Proof.
  intros Hc. unfold rstrip.
  rewrite rev_app_distr, rev_app_distr. simpl.
  rewrite lstrip_app by exact Hc.
  rewrite rev_app_distr. simpl. rewrite rev_involutive.
  rewrite <- app_assoc. reflexivity.
Qed.

(** A match at some position makes the search succeed. *)
Lemma search_from_app (r : regex) (post : str) :
  forall (pre : str) (prev : option char),
    match_at r (last_char prev pre) post <> None ->
    search_from r prev (pre ++ post) <> None.
Proof.
  induction pre as [|c pre IH]; intros prev H.
  - simpl. unfold last_char in H. simpl in H.
    destruct post; simpl; destruct (match_at r prev _); congruence.
  - simpl. destruct (match_at r prev (c :: pre ++ post)); [discriminate|].
    apply IH. unfold last_char in *. simpl in H.
    destruct (rev pre) as [|z zs]; simpl in *; exact H.
Qed.

Lemma strip_tight (a sub b : str) :
  tight sub = true -> strip (a ++ sub ++ b) = lstrip a ++ sub ++ rstrip b.
Proof.
  unfold tight. intros H.
  destruct sub as [|c1 mid]; [discriminate|].
  destruct (rev (c1 :: mid)) as [|c2 back] eqn:E; [discriminate|].
  apply andb_prop in H as [H1 H2].
  apply negb_true_iff in H1. apply negb_true_iff in H2.
  unfold strip. simpl app. rewrite lstrip_app by exact H1.
  assert (Esub : c1 :: mid = rev back ++ [c2]).
  { rewrite <- (rev_involutive (c1 :: mid)), E. reflexivity. }
  change (lstrip a ++ c1 :: mid ++ b) with (lstrip a ++ (c1 :: mid) ++ b).
  rewrite Esub.
  replace (lstrip a ++ (rev back ++ [c2]) ++ b)
    with (((lstrip a ++ rev back) ++ [c2]) ++ b)
    by (repeat rewrite <- app_assoc; reflexivity).
  rewrite rstrip_app by exact H2.
  change (lstrip a ++ c1 :: mid ++ rstrip b)
    with (lstrip a ++ (c1 :: mid) ++ rstrip b).
  rewrite Esub. repeat rewrite <- app_assoc. reflexivity.
Qed.

Lemma found_at (r : regex) (pre post : str) :
  (forall prev, match_at r prev post <> None) -> found r (pre ++ post) = true.
Proof.
  intros H. unfold found, search.
  pose proof (search_from_app r post pre None (H _)) as F.
  destruct (search_from r None (pre ++ post)); congruence.
Qed.

End Phrases.

(* ================================================================== *)
(** * Properties of the label classifiers *)
(* ================================================================== *)

Lemma scan_patterns_excluded (ps : list regex) (text : str) :
  found exclusion_re text = true -> scan_patterns ps text = false.
Proof.
  intros H. induction ps as [|pattern ps IH]; simpl; auto.
  rewrite H. destruct (found pattern text); exact IH.
Qed.

(** A lower-case phrase [sub] without white space at its ends that the
    pattern [r] matches wherever it stands is found by [r] in the lowered
    and stripped text. *)
Lemma found_in_label (r : regex) (sub text : str) :
  lower sub = sub -> tight sub = true ->
  (forall prev post, match_at r prev (sub ++ post) <> None) ->
  contains sub text = true ->
  found r (strip (lower text)) = true.
Proof.
  intros Hlow Htight Hmatch H.
  apply contains_split in H as (pre & post & ->).
  rewrite !lower_app, Hlow, strip_tight by exact Htight.
  apply found_at. intros prev. apply Hmatch.
Qed.

Lemma found_in_lower (r : regex) (sub text : str) :
  lower sub = sub ->
  (forall prev post, match_at r prev (sub ++ post) <> None) ->
  contains sub text = true ->
  found r (lower text) = true.
Proof.
  intros Hlow Hmatch H.
  apply contains_split in H as (pre & post & ->).
  rewrite !lower_app, Hlow.
  apply found_at. intros prev. apply Hmatch.
Qed.

Ltac phrase_matches := intros ? ?; vm_compute; discriminate.

(** C4: a text that contains "weighted", "average" or "shares outstanding"
    is never an EPS label, whatever else it contains; and the three worked
    examples of the label classifier. *)
Theorem check_eps_pattern_exclusion :
  (forall text : str,
     contains (lit "weighted") text = true
     \/ contains (lit "average") text = true
     \/ contains (lit "shares outstanding") text = true ->
     check_eps_pattern text = false)
  /\ check_eps_pattern (lit "diluted earnings per share") = true
  /\ check_eps_pattern (lit "weighted average shares outstanding") = false
  /\ check_eps_pattern (lit "basic loss per common share") = true.
Proof.
  split; [|repeat split; vm_compute; reflexivity].
  intros text H. unfold check_eps_pattern.
  apply scan_patterns_excluded.
  destruct H as [H|[H|H]];
    (eapply found_in_label; [| | | exact H];
     [vm_compute; reflexivity | vm_compute; reflexivity | phrase_matches]).
Qed.

Lemma check_eps_pattern_exclusion_witness :
  check_eps_pattern (lit "Earnings per share - weighted average") = false.
Proof.
  apply (proj1 check_eps_pattern_exclusion).
  left. vm_compute. reflexivity.
Defined.

(** C5: the phrases "basic and diluted", "diluted and basic",
    "basic & diluted" and "diluted & basic" set both flags; and the two
    worked examples of the variant classifier. *)
Theorem is_basic_eps_both :
  (forall text : str,
     contains (lit "basic and diluted") text = true
     \/ contains (lit "diluted and basic") text = true
     \/ contains (lit "basic & diluted") text = true
     \/ contains (lit "diluted & basic") text = true ->
     is_basic_eps text = (true, true))
  /\ is_basic_eps (lit "basic and diluted eps") = (true, true)
  /\ is_basic_eps (lit "diluted eps") = (false, true).
Proof.
  split; [|split; vm_compute; reflexivity].
  intros text H. unfold is_basic_eps. cbv zeta.
  assert (E : found basic_and_diluted_re (lower text)
              || found diluted_and_basic_re (lower text) = true).
  { apply orb_true_iff.
    destruct H as [H|[H|[H|H]]];
      [left | right | left | right];
      (eapply found_in_lower; [| | exact H];
       [vm_compute; reflexivity | phrase_matches]). }
  rewrite E. reflexivity.
Qed.

Lemma is_basic_eps_both_witness :
  is_basic_eps (lit "net loss per share, diluted & basic") = (true, true).
Proof.
  apply (proj1 is_basic_eps_both).
  right. right. right. vm_compute. reflexivity.
Defined.

(* ================================================================== *)
(** * Properties of the candidate selector *)
(* ================================================================== *)

Lemma head_filter_find {A} (p : A -> bool) (l : list A) :
  match filter p l with x :: _ => Some x | [] => None end = find p l.
Proof.
  induction l as [|a l IH]; simpl; auto. destruct (p a); auto.
Qed.

Lemma selected_is_preferred (first : candidate) (rest : list candidate)
    (text : str) (tidx : nat) :
  select_eps_value (first :: rest) text tidx
  = Some {| table_idx := tidx;
            row_text := firstn 100 text;
            basic := cand_basic (preferred first rest);
            diluted := cand_diluted (preferred first rest);
            gaap := cand_gaap (preferred first rest);
            value := cand_value (preferred first rest);
            all_values := map cand_value (first :: rest) |}.
Proof.
  unfold select_eps_value, preferred, slice_to.
  rewrite <- (head_filter_find cand_basic (first :: rest)).
  rewrite <- (head_filter_find cand_diluted (first :: rest)).
  destruct (filter cand_basic (first :: rest)); [|reflexivity].
  destruct (filter cand_diluted (first :: rest)); reflexivity.
Qed.

Lemma preferred_in (first : candidate) (rest : list candidate) :
  In (preferred first rest) (first :: rest).
Proof.
  unfold preferred.
  destruct (find cand_basic (first :: rest)) eqn:Eb.
  - apply find_some in Eb. tauto.
  - destruct (find cand_diluted (first :: rest)) eqn:Ed.
    + apply find_some in Ed. tauto.
    + left. reflexivity.
Qed.

(** C7: on a non-empty candidate list the selector picks the first
    candidate flagged basic, else the first flagged diluted, else the first
    candidate; the occurrence takes value, basic, diluted and gaap from the
    chosen candidate, lists every candidate's value in order, and keeps the
    first 100 characters of the row text. *)
Theorem select_eps_value_priority (first : candidate) (rest : list candidate)
    (text : str) (tidx : nat) :
  let row_values := first :: rest in
  let chosen :=
    match find cand_basic row_values with
    | Some b => b
    | None =>
        match find cand_diluted row_values with
        | Some d => d
        | None => first
        end
    end in
  select_eps_value row_values text tidx
  = Some {| table_idx := tidx;
            row_text := firstn 100 text;
            basic := cand_basic chosen;
            diluted := cand_diluted chosen;
            gaap := cand_gaap chosen;
            value := cand_value chosen;
            all_values := map cand_value row_values |}.
Proof. cbv zeta. apply selected_is_preferred. Qed.

Lemma selected_value_gathered (rv : list candidate) (text : str) (tidx : nat)
    (e : occurrence) :
  select_eps_value rv text tidx = Some e ->
  all_values e <> [] /\ In (value e) (all_values e).
Proof.
  destruct rv as [|first rest]; [discriminate|].
  rewrite selected_is_preferred. intros [= <-]. simpl all_values. simpl value.
  split; [discriminate|].
  apply (in_map cand_value (first :: rest)), preferred_in.
Qed.

(* ================================================================== *)
(** * Properties of the document scan *)
(* ================================================================== *)

Lemma scan_row_gathered (rows : table) (tidx : nat) (acc : list occurrence)
    (ir : nat * row) :
  Forall value_gathered acc -> Forall value_gathered (scan_row rows tidx acc ir).
Proof.
  intros Hacc. unfold scan_row.
  destruct (check_eps_pattern _); [|exact Hacc].
  destruct (row_values _) as [|c cs]; [exact Hacc|].
  destruct (select_eps_value _ _ _) as [e|] eqn:E; [|exact Hacc].
  apply Forall_app. split; [exact Hacc|].
  constructor; [|constructor].
  exact (selected_value_gathered _ _ _ E).
Qed.

Lemma fold_left_invariant {A B} (P : A -> Prop) (f : A -> B -> A) (l : list B) :
  (forall a b, P a -> P (f a b)) -> forall a, P a -> P (fold_left f l a).
Proof.
  intros Hf. induction l as [|b l IH]; simpl; auto.
Qed.

(** C10: every occurrence returned for a document has at least one
    gathered value, and its selected value is one of them. *)
Theorem extract_eps_from_filing_value_gathered (tables : document) :
  Forall (fun e => all_values e <> [] /\ In (value e) (all_values e))
         (extract_eps_from_filing tables).
Proof.
  unfold extract_eps_from_filing.
  apply (fold_left_invariant (Forall value_gathered)); [|constructor].
  intros acc it Hacc. unfold scan_table.
  apply (fold_left_invariant (Forall value_gathered)); [|exact Hacc].
  intros acc' ir. apply scan_row_gathered.
Qed.

(* ================================================================== *)
(** * Properties of the row stitcher *)
(* ================================================================== *)

Section Stitcher.

Lemma scan_cells_candidates (b d g : bool) (cells : list str) :
  forall acc,
    scan_cells b d g cells acc
    = (match cell_candidates b d g cells with [] => fst acc | _ :: _ => true end,
       snd acc ++ cell_candidates b d g cells).
Proof.
  unfold scan_cells.
  induction cells as [|cell cells IH]; intros [fv rv]; simpl.
  - rewrite app_nil_r. reflexivity.
  - rewrite IH. unfold scan_cell.
    destruct (extract_numeric_value (strip cell)) as [v|]; simpl.
    + rewrite <- app_assoc. simpl.
      destruct (cell_candidates b d g cells); reflexivity.
    + reflexivity.
Qed.

(** Once a value has been found the loop does not run. *)
Lemma stitch_loop_found (fuel : nat) (rows : table) (st : stitch_state) :
  found_value st = true -> stitch_loop fuel rows st = st.
Proof.
  intros H. destruct fuel; simpl; auto.
  unfold stitch_step. rewrite H. reflexivity.
Qed.

Lemma skipn_cons_nth {A} (n : nat) :
  forall (l : list A) (r : A) (later : list A),
    skipn n l = r :: later ->
    nth_error l n = Some r /\ skipn (S n) l = later /\ n < length l.
Proof.
  induction n as [|n IH]; intros [|a l] r later H; simpl in H; try discriminate.
  - injection H as -> ->. simpl. repeat split. lia.
  - destruct (IH _ _ _ H) as (H1 & H2 & H3). simpl. repeat split; auto. lia.
Qed.

Lemma skipn_nil_length {A} (n : nat) :
  forall l : list A, skipn n l = [] -> length l <= n.
Proof.
  induction n as [|n IH]; intros [|a l] H; simpl in *; try lia; try discriminate.
  specialize (IH _ H). lia.
Qed.

Lemma stitch_loop_advances :
  forall (later : list row) (rows : table) (idx : nat) (b d g : bool) (fuel : nat),
    skipn (S idx) rows = later ->
    length later <= fuel ->
    stitch_loop fuel rows (Stitch false idx b d g [])
    = state_after idx (advance_rows later b d g).
Proof.
  induction later as [|r later IH]; intros rows idx b d g fuel Hskip Hfuel.
  - apply skipn_nil_length in Hskip.
    unfold state_after. simpl. rewrite Nat.add_0_r.
    destruct fuel; simpl; auto.
    unfold stitch_step. simpl.
    replace (idx + 1 <? length rows) with false
      by (symmetry; apply Nat.ltb_ge; lia).
    reflexivity.
  - apply skipn_cons_nth in Hskip as (Hnth & Hrest & Hlt).
    destruct fuel as [|fuel]; [simpl in Hfuel; lia|].
    simpl in Hfuel. simpl stitch_loop.
    unfold stitch_step. simpl found_value. simpl i. simpl negb at 1.
    replace (idx + 1 <? length rows) with true
      by (symmetry; apply Nat.ltb_lt; lia).
    replace (idx + 1) with (S idx) by lia.
    rewrite Hnth. simpl andb. cbv iota beta.
    simpl st_basic. simpl st_diluted. simpl row_values.
    rewrite scan_cells_candidates. simpl fst. simpl snd. simpl app.
    simpl advance_rows.
    replace (if negb (b && d) then is_basic_eps (text_of_row r) else (b, d))
      with (if b && d then (true, true) else is_basic_eps (text_of_row r))
      by (destruct b, d; reflexivity).
    set (bd := if b && d then (true, true) else is_basic_eps (text_of_row r)).
    set (g' := is_gaap_eps (text_of_row r)).
    destruct (cell_candidates (fst bd) (snd bd) g' (row_cells r)) as [|c cs].
    + rewrite (IH rows (S idx) (fst bd) (snd bd) g' fuel Hrest) by lia.
      unfold state_after. simpl. f_equal. lia.
    + rewrite stitch_loop_found by reflexivity.
      unfold state_after. simpl. f_equal. lia.
Qed.

Lemma advance_rows_keeps_both (later : list row) :
  forall g,
    let res := advance_rows later true true g in
    adv_basic res = true /\ adv_diluted res = true
    /\ Forall (fun c => cand_basic c = true /\ cand_diluted c = true)
              (adv_values res).
Proof.
  induction later as [|r later IH]; intros g; cbn -[cell_candidates].
  - auto.
  - set (g' := is_gaap_eps (text_of_row r)).
    destruct (cell_candidates true true g' (row_cells r)) as [|c cs] eqn:E.
    + cbn -[cell_candidates]. apply IH.
    + cbn -[cell_candidates]. repeat split.
      rewrite <- E. unfold cell_candidates.
      apply Forall_forall. intros x Hx.
      apply in_flat_map in Hx as (cell & _ & Hx).
      destruct (extract_numeric_value (strip cell)); [|contradiction].
      destruct Hx as [<-|[]]. simpl. auto.
Qed.

Lemma advance_rows_exhausts (later : list row) :
  forall b d g,
    adv_values (advance_rows later b d g) = [] ->
    adv_rows (advance_rows later b d g) = length later.
Proof.
  induction later as [|r later IH]; intros b d g; cbn -[cell_candidates]; auto.
  destruct (cell_candidates _ _ _ (row_cells r)); cbn -[cell_candidates].
  - intros H. f_equal. apply IH. exact H.
  - discriminate.
Qed.

(** The loop condition fails in the state the stitcher ends in. *)
Lemma stitch_exits (rows : table) (idx : nat) (r : row) :
  stitch_step rows (stitch rows idx r) = None.
Proof.
  unfold stitch. rewrite scan_cells_candidates. simpl fst at 1. simpl snd at 1.
  simpl app.
  set (bd := is_basic_eps (text_of_row r)).
  set (g := is_gaap_eps (text_of_row r)).
  destruct (cell_candidates _ _ _ (row_cells r)) as [|c cs].
  - simpl fst.
    pose proof (length_skipn (S idx) rows) as Hlen.
    rewrite (@stitch_loop_advances (skipn (S idx) rows) rows idx _ _ _ (length rows) eq_refl)
      by lia.
    remember (skipn (S idx) rows) as later eqn:Elater. clear Elater.
    unfold stitch_step, state_after. cbn [found_value i].
    destruct (adv_values (advance_rows later (fst bd) (snd bd) g)) eqn:E;
      [|reflexivity].
    apply advance_rows_exhausts in E. rewrite E.
    replace (idx + length later + 1 <? length rows) with false
      by (symmetry; apply Nat.ltb_ge; lia).
    reflexivity.
  - rewrite stitch_loop_found by reflexivity. reflexivity.
Qed.

End Stitcher.

(** C6: when the label row yields a candidate the stitcher stays on it;
    when it yields none, the loop ends, within [length rows] rounds, in the
    state of the advancement over the later rows: row after row while no
    candidate has been found and rows remain, basic/diluted re-derived from
    the row's text unless both are already set, gaap re-derived from every
    row, stopping at the first row with a candidate or at the end of the
    table.  The loop condition fails in that state.  A classification with
    both flags set is never downgraded. *)
Theorem stitch_advances_until_value :
  (forall (rows : table) (idx : nat) (r : row),
     let bd := is_basic_eps (text_of_row r) in
     let g := is_gaap_eps (text_of_row r) in
     let st := stitch rows idx r in
     stitch_step rows st = None /\
     match cell_candidates (fst bd) (snd bd) g (row_cells r) with
     | c :: cs => st = Stitch true idx (fst bd) (snd bd) g (c :: cs)
     | [] =>
         let res := advance_rows (skipn (S idx) rows) (fst bd) (snd bd) g in
         st = Stitch (match adv_values res with [] => false | _ :: _ => true end)
                     (idx + adv_rows res)
                     (adv_basic res) (adv_diluted res) (adv_gaap res)
                     (adv_values res)
     end)
  /\ (forall (later : list row) (g : bool),
        let res := advance_rows later true true g in
        adv_basic res = true /\ adv_diluted res = true
        /\ Forall (fun c => cand_basic c = true /\ cand_diluted c = true)
                  (adv_values res)).
Proof.
  split; [|intros later g; apply advance_rows_keeps_both].
  intros rows idx r. cbv zeta. split; [apply stitch_exits|]. unfold stitch.
  rewrite scan_cells_candidates. simpl fst at 1. simpl snd at 1. simpl app.
  destruct (cell_candidates _ _ _ (row_cells r)) as [|c cs] eqn:E.
  - simpl fst. simpl snd.
    rewrite (@stitch_loop_advances (skipn (S idx) rows) rows idx _ _ _ (length rows) eq_refl).
    + reflexivity.
    + rewrite length_skipn. lia.
  - simpl. apply stitch_loop_found. reflexivity.
Qed.

(** A label row without a number, followed by a row without one, a row that
    sets both flags, a row that would set diluted alone, and an adjusted row
    with two numbers: the loop advances four rows, keeps both flags and
    takes gaap from the last row. *)
Example stitch_carries_both :
  let rows := [row_of "EPS" ["EPS"]%string; row_of "note" ["a"]%string;
               row_of "basic and diluted" ["basic and diluted"]%string;
               row_of "diluted" ["x"]%string;
               row_of "adjusted" ["5.5"; "(1.0)"]%string;
               row_of "basic" ["7.5"]%string] in
  stitch rows 0 (row_of "EPS" ["EPS"]%string)
  = Stitch true 4 true true false
      [Candidate (lit "5.5") true true false;
       Candidate (lit "-1.0") true true false].
Proof. vm_compute. reflexivity. Qed.

(** A label row and its value on the next row give one occurrence. *)
Example extract_eps_from_filing_two_rows :
  extract_eps_from_filing
    [[row_of "Diluted loss per share:" ["Diluted loss per share:"]%string;
      row_of "$ (0.30)" ["$"; "(0.30)"]%string]]
  = [Occurrence 0 (lit "diluted loss per share") false false true
       (lit "-0.30") [lit "-0.30"]].
Proof. vm_compute. reflexivity. Qed.

(* ================================================================== *)
(** * Properties of the final resolver *)
(* ================================================================== *)

Lemma get_priority_parts (float_of_text : str -> option float)
    (entry : occurrence) :
  get_priority float_of_text entry
  = ((if basic entry then 100 else 0)
     + (if gaap entry then 50 else 0)
     + (if contains (lit "basic") (lower (row_text entry)) then 30
        else if contains (lit "diluted") (lower (row_text entry)) then 20
        else 0)
     + (match float_of_text (value entry) with
        | Some x => if in_eps_band x then 0 else -1000
        | None => 0
        end))%Z.
Proof.
  unfold get_priority.
  destruct (basic entry), (gaap entry),
    (contains (lit "basic") (lower (row_text entry))),
    (contains (lit "diluted") (lower (row_text entry))),
    (float_of_text (value entry)) as [x|];
    try destruct (in_eps_band x);
    reflexivity.
Qed.

(** C8: the score of an occurrence is the sum of 100 for the basic flag, 50
    for the gaap flag, 30 when "basic" occurs in the lowered row text or
    else 20 when "diluted" does, and -1000 when the value reads as a float
    outside [-100, 100]; a value that does not read as a float carries no
    range penalty. *)
Theorem get_priority_score (float_of_text : str -> option float)
    (entry : occurrence) :
  get_priority float_of_text entry
  = ((if basic entry then 100 else 0)
     + (if gaap entry then 50 else 0)
     + (if contains (lit "basic") (lower (row_text entry)) then 30
        else if contains (lit "diluted") (lower (row_text entry)) then 20
        else 0)
     + (match float_of_text (value entry) with
        | Some x =>
            if ((-100)%float <=? x)%float && (x <=? 100%float)%float
            then 0 else -1000
        | None => 0
        end))%Z.
Proof.
  unfold get_priority, in_eps_band.
  destruct (basic entry), (gaap entry),
    (contains (lit "basic") (lower (row_text entry))),
    (contains (lit "diluted") (lower (row_text entry))),
    (float_of_text (value entry)) as [x|];
    try destruct (((-100)%float <=? x)%float && (x <=? 100%float)%float);
    reflexivity.
Qed.

Section ResolverFacts.

Variable float_of_text : str -> option float.
Variable float_sum : list float -> float.
Variable format_fixed : float -> nat -> str.

Let prio := get_priority float_of_text.
Let sort := sort_by_priority float_of_text.
Let ins := insert_desc float_of_text.

Let score_ge := Props.score_ge float_of_text.

Lemma insert_desc_perm (x : occurrence) (l : list occurrence) :
  Permutation (x :: l) (ins x l).
Proof.
  induction l as [|y l IH]; simpl; auto.
  fold prio. destruct (prio x <? prio y)%Z; auto.
  apply perm_trans with (y :: x :: l); [apply perm_swap|].
  apply perm_skip. exact IH.
Qed.

Lemma sort_perm (l : list occurrence) : Permutation l (sort l).
Proof.
  induction l as [|x l IH]; simpl; auto.
  apply perm_trans with (x :: sort l); [apply perm_skip; exact IH|].
  apply insert_desc_perm.
Qed.

Lemma insert_desc_sorted (x : occurrence) (l : list occurrence) :
  StronglySorted score_ge l -> StronglySorted score_ge (ins x l).
Proof.
  induction 1 as [|y l Hl IH Hy]; simpl.
  - constructor; constructor.
  - fold prio. destruct (prio x <? prio y)%Z eqn:E.
    + constructor; [exact IH|].
      apply (Permutation_Forall (insert_desc_perm x l)).
      constructor; [|exact Hy].
      apply Z.ltb_lt in E. unfold score_ge, Props.score_ge, prio in *. lia.
    + apply Z.ltb_ge in E.
      constructor; [constructor; assumption|].
      constructor; [exact E|].
      eapply Forall_impl; [|exact Hy].
      unfold score_ge, Props.score_ge, prio in *. intros z Hz. lia.
Qed.

Lemma sort_sorted (l : list occurrence) : StronglySorted score_ge (sort l).
Proof.
  induction l as [|x l IH]; simpl; [constructor|].
  apply insert_desc_sorted. exact IH.
Qed.

(** Stability: the occurrences of one score keep their order. *)
Lemma insert_desc_stable (k : Z) (x : occurrence) (l : list occurrence) :
  filter (fun e => (prio e =? k)%Z) (ins x l)
  = filter (fun e => (prio e =? k)%Z) (x :: l).
Proof.
  induction l as [|y l IH]; auto.
  simpl ins. fold prio. destruct (prio x <? prio y)%Z eqn:E; auto.
  apply Z.ltb_lt in E.
  change (filter (fun e => (prio e =? k)%Z) (y :: ins x l))
    with (if (prio y =? k)%Z
          then y :: filter (fun e => (prio e =? k)%Z) (ins x l)
          else filter (fun e => (prio e =? k)%Z) (ins x l)).
  rewrite IH. simpl.
  destruct (prio y =? k)%Z eqn:Ey, (prio x =? k)%Z eqn:Ex; auto.
  apply Z.eqb_eq in Ey, Ex. lia.
Qed.

Lemma sort_stable (k : Z) (l : list occurrence) :
  filter (fun e => (prio e =? k)%Z) (sort l)
  = filter (fun e => (prio e =? k)%Z) l.
Proof.
  induction l as [|x l IH]; auto.
  simpl sort. fold sort. fold ins. rewrite insert_desc_stable.
  simpl. rewrite IH. reflexivity.
Qed.

(** The first group of the dictionary keeps its key and gathers, in order,
    the entries of that row text. *)
Lemma group_fold_first (l : list occurrence) :
  forall (k : str) (members : list occurrence) (rest : list (str * list occurrence)),
  exists rest',
    fold_left (fun grouped entry => group_add entry grouped) l
              ((k, members) :: rest)
    = (k, members ++ filter (fun e => str_eqb k (row_text e)) l) :: rest'.
Proof.
  induction l as [|e l IH]; intros k members rest; simpl.
  - exists rest. rewrite app_nil_r. reflexivity.
  - destruct (str_eqb k (row_text e)).
    + destruct (IH k (members ++ [e]) rest) as [rest' ->].
      exists rest'. rewrite <- app_assoc. reflexivity.
    + apply IH.
Qed.

Lemma group_by_row_text_first (top : occurrence) (l : list occurrence) :
  exists rest',
    group_by_row_text (top :: l)
    = (row_text top,
       filter (fun e => str_eqb (row_text top) (row_text e)) (top :: l)) :: rest'.
Proof.
  unfold group_by_row_text. simpl fold_left.
  destruct (group_fold_first l (row_text top) [top] []) as [rest' ->].
  exists rest'. simpl. rewrite str_eqb_refl. reflexivity.
Qed.

Lemma str_eqb_neq (a b : str) : str_eqb a b = false -> a <> b.
Proof.
  intros H ->. rewrite str_eqb_refl in H. discriminate.
Qed.

Lemma nodup_constant (v : str) (l : list str) :
  (forall x, In x l -> x = v) -> l <> [] -> nodup str_eq_dec l = [v].
Proof.
  induction l as [|a l IH]; intros Hall Hne; [contradiction|].
  assert (a = v) by (apply Hall; left; reflexivity). subst a.
  simpl. destruct l as [|b l].
  - destruct (in_dec str_eq_dec v []) as [[]|_]. reflexivity.
  - assert (b = v) by (apply Hall; right; left; reflexivity). subst b.
    destruct (in_dec str_eq_dec v (v :: l)) as [_|N].
    + apply IH; [|discriminate]. intros x Hx. apply Hall. right. exact Hx.
    + exfalso. apply N. left. reflexivity.
Qed.

(** The set of the values has one element exactly when all values equal
    the first. *)
Lemma one_value_all_equal (v : str) (vs : list str) :
  (length (nodup str_eq_dec (v :: vs)) =? 1) = forallb (str_eqb v) (v :: vs).
Proof.
  destruct (forallb (str_eqb v) (v :: vs)) eqn:E.
  - rewrite (nodup_constant (v := v)); [reflexivity| |discriminate].
    intros x Hx. rewrite forallb_forall in E.
    symmetry. apply str_eqb_eq, E, Hx.
  - apply Nat.eqb_neq. intros Hlen.
    assert (Hex : exists x, In x (v :: vs) /\ str_eqb v x = false).
    { clear Hlen. induction (v :: vs) as [|a l IH]; simpl in E; [discriminate|].
      destruct (str_eqb v a) eqn:Ea.
      - destruct (IH E) as (x & Hx & Hvx). exists x. split; [right|]; assumption.
      - exists a. split; [left; reflexivity | exact Ea]. }
    destruct Hex as (x & Hx & Hvx). apply str_eqb_neq in Hvx.
    assert (Hv : In v (nodup str_eq_dec (v :: vs)))
      by (apply nodup_In; left; reflexivity).
    assert (Hx' : In x (nodup str_eq_dec (v :: vs)))
      by (apply nodup_In; exact Hx).
    destruct (nodup str_eq_dec (v :: vs)) as [|w [|w' t]];
      simpl in Hlen; try discriminate.
    destruct Hv as [<-|[]]. destruct Hx' as [<-|[]]. apply Hvx. reflexivity.
Qed.

Lemma forallb_map_value (p : str -> bool) (l : list occurrence) :
  forallb p (map value l) = forallb (fun e => p (value e)) l.
Proof.
  induction l as [|e l IH]; simpl; auto. rewrite IH. reflexivity.
Qed.

Lemma insert_desc_cons (x : occurrence) (l : list occurrence) :
  exists top rest, ins x l = top :: rest.
Proof.
  destruct l as [|y l]; simpl; [eauto|].
  destruct (_ <? _)%Z; eauto.
Qed.

Lemma resolve_top_group (eps_values : list occurrence) :
  select_final_eps float_of_text float_sum format_fixed eps_values
  = match sort (survivors eps_values) with
    | [] => None
    | top :: _ =>
        let top_group :=
          filter (fun e => str_eqb (row_text top) (row_text e))
                 (sort (survivors eps_values)) in
        if forallb (fun e => str_eqb (value top) (value e)) top_group
        then Some (value top)
        else
          match float_values float_of_text top_group with
          | Some xs =>
              Some (format_fixed (float_sum xs) (decimal_places (value top)))
          | None => Some (value top)
          end
    end.
Proof.
  unfold select_final_eps.
  destruct eps_values as [|e0 es]; [reflexivity|].
  fold (survivors (e0 :: es)).
  destruct (survivors (e0 :: es)) as [|s0 ss]; [reflexivity|].
  fold sort.
  destruct (insert_desc_cons s0 (sort ss)) as (top & rest & Esort).
  change (sort (s0 :: ss)) with (ins s0 (sort ss)). rewrite Esort.
  destruct (group_by_row_text_first top rest) as [rest' ->].
  cbv zeta.
  set (top_group := filter _ (top :: rest)).
  assert (Etop : top_group
                 = top :: filter (fun e => str_eqb (row_text top) (row_text e)) rest).
  { unfold top_group. simpl. rewrite str_eqb_refl. reflexivity. }
  rewrite Etop at 1. unfold resolve_group. rewrite <- Etop.
  unfold unique_values. rewrite Etop at 1. simpl map.
  rewrite one_value_all_equal.
  change (value top :: map value (filter (fun e => str_eqb (row_text top) (row_text e)) rest))
    with (map value (top :: filter (fun e => str_eqb (row_text top) (row_text e)) rest)).
  rewrite <- Etop, forallb_map_value.
  destruct (forallb _ top_group); reflexivity.
Qed.

(** The values of a group are identical exactly when each equals the
    first. *)
Lemma identical_values (top : occurrence) (group : list occurrence) :
  forallb (fun e => str_eqb (value top) (value e)) group = true
  <-> forall e, In e group -> value e = value top.
Proof.
  rewrite forallb_forall. split; intros H e He.
  - symmetry. apply str_eqb_eq, H, He.
  - rewrite (H e He). apply str_eqb_refl.
Qed.

(** The floats summed are the floats of the values, in order; there are
    none to sum as soon as one value is not a float. *)
Lemma float_values_all (group : list occurrence) (xs : list float) :
  Forall2 (fun e x => float_of_text (value e) = Some x) group xs ->
  float_values float_of_text group = Some xs.
Proof.
  induction 1 as [|e x group xs He _ IH]; simpl; [reflexivity|].
  rewrite He, IH. reflexivity.
Qed.

Lemma float_values_fails (group : list occurrence) :
  (exists e, In e group /\ float_of_text (value e) = None) ->
  float_values float_of_text group = None.
Proof.
  induction group as [|a group IH]; intros (e & Hin & He); [contradiction|].
  simpl. destruct Hin as [->|Hin]; [rewrite He; reflexivity|].
  destruct (float_of_text (value a)); [|reflexivity].
  rewrite IH; [reflexivity|]. exists e. auto.
Qed.

Lemma char_in_text (c : char) (s : str) :
  existsb (char_eqb c) s = true <-> In c s.
Proof.
  rewrite existsb_exists. split.
  - intros (x & Hx & E). apply char_eqb_eq in E. subst x. exact Hx.
  - intros H. exists c. split; [exact H | apply char_eqb_refl].
Qed.

Lemma contains_char (c : char) (s : str) :
  contains [c] s = existsb (char_eqb c) s.
Proof.
  induction s as [|x s IH]; [reflexivity|].
  simpl. rewrite IH, andb_true_r. reflexivity.
Qed.

(** What follows the last occurrence of a character. *)
Lemma last_segment_after (c : char) (before after : str) :
  ~ In c after -> last_segment c (before ++ c :: after) = after.
Proof.
  intros Hf.
  assert (Ef : existsb (char_eqb c) after = false).
  { destruct (existsb (char_eqb c) after) eqn:E; [|reflexivity].
    apply char_in_text in E. contradiction. }
  induction before as [|x before IH]; simpl.
  - rewrite Ef, char_eqb_refl. reflexivity.
  - assert (E : existsb (char_eqb c) (before ++ c :: after) = true).
    { apply char_in_text, in_or_app. right. left. reflexivity. }
    rewrite E. exact IH.
Qed.

(** The number of decimal places of a value: the number of characters
    after its last point, none when it has no point. *)
Lemma decimal_places_counts (v : str) :
  (forall whole frac,
     v = whole ++ Latin "." :: frac -> ~ In (Latin ".") frac ->
     decimal_places v = length frac)
  /\ (~ In (Latin ".") v -> decimal_places v = 0).
Proof.
  unfold decimal_places. change (lit ".") with [Latin "."].
  rewrite contains_char. split.
  - intros whole frac -> Hf.
    assert (E : existsb (char_eqb ".") (whole ++ Latin "." :: frac) = true).
    { apply char_in_text, in_or_app. right. left. reflexivity. }
    rewrite E, last_segment_after by exact Hf. reflexivity.
  - intros Hn. destruct (existsb (char_eqb ".") v) eqn:E; [|reflexivity].
    apply char_in_text in E. contradiction.
Qed.

End ResolverFacts.

(** C9: the surviving occurrences are sorted by descending score, stably
    (the sorted list is a permutation in descending order in which the
    occurrences of one score keep their order); the top group is made of the
    sorted occurrences with the row text of the first one.  When all its
    values are identical that value is returned unchanged.  Otherwise, when
    every value reads as a float, the sum of these floats, in the order of
    the group, is returned, formatted with as many decimal places as the
    first entry's value has characters after its last point (none without a
    point); and when some value does not read as a float, the first entry's
    value itself is returned. *)
Theorem select_final_eps_top_group
    (float_of_text : str -> option float) (float_sum : list float -> float)
    (format_fixed : float -> nat -> str) (eps_values : list occurrence) :
  let score := get_priority float_of_text in
  let sorted := sort_by_priority float_of_text (survivors eps_values) in
  let result := select_final_eps float_of_text float_sum format_fixed eps_values in
  (Permutation (survivors eps_values) sorted
   /\ StronglySorted (fun a b => (score b <= score a)%Z) sorted
   /\ (forall k : Z,
         filter (fun e => (score e =? k)%Z) sorted
         = filter (fun e => (score e =? k)%Z) (survivors eps_values)))
  /\ match sorted with
     | [] => result = None
     | top :: _ =>
         let top_group :=
           filter (fun e => str_eqb (row_text top) (row_text e)) sorted in
         let identical := forall e, In e top_group -> value e = value top in
         (identical -> result = Some (value top))
         /\ (~ identical ->
             forall xs : list float,
               Forall2 (fun e x => float_of_text (value e) = Some x) top_group xs ->
               exists places : nat,
                 result = Some (format_fixed (float_sum xs) places)
                 /\ (forall whole frac,
                       value top = whole ++ Latin "." :: frac ->
                       ~ In (Latin ".") frac ->
                       places = length frac)
                 /\ (~ In (Latin ".") (value top) -> places = 0))
         /\ (~ identical ->
             (exists e, In e top_group /\ float_of_text (value e) = None) ->
             result = Some (value top))
     end.
Proof.
  cbv zeta. split; [split; [|split]|].
  - apply sort_perm.
  - apply sort_sorted.
  - intros k. apply sort_stable.
  - rewrite resolve_top_group.
    destruct (sort_by_priority float_of_text (survivors eps_values))
      as [|top rest]; [reflexivity|].
    cbv zeta.
    set (top_group := filter (fun e => str_eqb (row_text top) (row_text e))
                             (top :: rest)).
    pose proof (identical_values top top_group) as Hid.
    destruct (forallb (fun e => str_eqb (value top) (value e)) top_group).
    + assert (Hall : forall e, In e top_group -> value e = value top)
        by (apply Hid; reflexivity).
      split; [reflexivity|]. split; intros Hn; contradiction.
    + assert (Hnot : ~ (forall e, In e top_group -> value e = value top)).
      { intros Hall. apply Hid in Hall. discriminate. }
      split; [intros Hall; contradiction|]. split.
      * intros _ xs Hxs. rewrite (float_values_all float_of_text Hxs).
        exists (decimal_places (value top)).
        split; [reflexivity | apply decimal_places_counts].
      * intros _ Hex. rewrite (float_values_fails float_of_text _ Hex).
        reflexivity.
Qed.

Lemma select_final_eps_top_group_witness :
  select_final_eps PyFloat.float_of_text PyFloat.float_sum PyFloat.format_fixed
    [Occurrence 0 (lit "basic eps") true false true (lit "1.5") [lit "1.5"];
     Occurrence 3 (lit "basic eps") true false true (lit "2.25") [lit "2.25"]]
  = Some (PyFloat.format_fixed (PyFloat.float_sum [1.5%float; 2.25%float]) 1).
Proof.
  set (e1 := Occurrence 0 (lit "basic eps") true false true (lit "1.5") [lit "1.5"]).
  set (e2 := Occurrence 3 (lit "basic eps") true false true (lit "2.25") [lit "2.25"]).
  pose proof (select_final_eps_top_group PyFloat.float_of_text PyFloat.float_sum
                PyFloat.format_fixed [e1; e2]) as H.
  cbv zeta in H. destruct H as [_ H].
  assert (Es : sort_by_priority PyFloat.float_of_text (survivors [e1; e2]) = [e1; e2])
    by (vm_compute; reflexivity).
  rewrite Es in H.
  assert (Eg : filter (fun e => str_eqb (row_text e1) (row_text e)) [e1; e2] = [e1; e2])
    by (vm_compute; reflexivity).
  rewrite Eg in H. destruct H as (_ & H & _).
  destruct (H ltac:(intros Hall; specialize (Hall e2 (or_intror (or_introl eq_refl)));
                    discriminate Hall)
              [1.5%float; 2.25%float])
    as (places & Hres & Hplaces & _).
  { constructor; [vm_compute; reflexivity|].
    constructor; [vm_compute; reflexivity | constructor]. }
  rewrite Hres.
  rewrite (Hplaces (lit "1") (lit "5") eq_refl
             ltac:(intros [E|[]]; discriminate E)).
  reflexivity.
Defined.

(** Two occurrences of one row text with the same value: the value is
    returned as it is, whatever the floats are. *)
Example select_final_eps_same_value
    (float_of_text : str -> option float) (float_sum : list float -> float)
    (format_fixed : float -> nat -> str) :
  select_final_eps float_of_text float_sum format_fixed
    [Occurrence 0 (lit "basic eps") true false true (lit "0.50") [lit "0.50"];
     Occurrence 1 (lit "basic eps") true false true (lit "0.50") [lit "0.50"]]
  = Some (lit "0.50").
Proof.
  rewrite resolve_top_group.
  change (survivors _) with
    [Occurrence 0 (lit "basic eps") true false true (lit "0.50") [lit "0.50"];
     Occurrence 1 (lit "basic eps") true false true (lit "0.50") [lit "0.50"]].
  unfold sort_by_priority. simpl fold_right.
  destruct (_ <? _)%Z; reflexivity.
Qed.

(* ================================================================== *)
(** * The resolver run with the float operations of CPython *)
(* ================================================================== *)

Section Runs.

Let score := get_priority PyFloat.float_of_text.
Let resolve :=
  select_final_eps PyFloat.float_of_text PyFloat.float_sum PyFloat.format_fixed.

(** Scores: the flags and the row text add up; a value outside the band
    costs 1000; a value that is not a float costs nothing. *)
Example get_priority_runs :
  score (Occurrence 0 (lit "basic eps") true false true (lit "1.25") []) = 180%Z
  /\ score (Occurrence 0 (lit "diluted eps") false true false (lit "-0.30") []) = 20%Z
  /\ score (Occurrence 0 (lit "basic eps") true false true (lit "150.0") []) = (-820)%Z
  /\ score (Occurrence 0 (lit "eps") false false true (lit "-100") []) = 50%Z
  /\ score (Occurrence 0 (lit "basic eps") true false true (lit "-.") []) = 180%Z.
Proof. repeat split; vm_compute; reflexivity. Qed.

(** The occurrence with the higher score gives the answer. *)
Example select_final_eps_higher_score :
  resolve
    [Occurrence 0 (lit "net income per share, diluted, adjusted")
       false true false (lit "1.95") [lit "1.95"];
     Occurrence 1 (lit "net income per share, basic")
       true false true (lit "2.10") [lit "2.10"]]
  = Some (lit "2.10").
Proof. vm_compute. reflexivity. Qed.

(** Different values under one row text are added and printed with the
    places of the first value. *)
Example select_final_eps_sum :
  resolve
    [Occurrence 0 (lit "basic eps") true false true (lit "1.5") [lit "1.5"];
     Occurrence 3 (lit "basic eps") true false true (lit "2.25") [lit "2.25"]]
  = Some (lit "3.8").
Proof. vm_compute. reflexivity. Qed.

(** A value that is not a float makes the sum fall back on the first
    value. *)
Example select_final_eps_fallback :
  resolve
    [Occurrence 0 (lit "basic eps") true false true (lit "0.25") [lit "0.25"];
     Occurrence 3 (lit "basic eps") true false true (lit "-.") [lit "-."]]
  = Some (lit "0.25").
Proof. vm_compute. reflexivity. Qed.

(** Rows that match "shares outstanding" are dropped first. *)
Example select_final_eps_drops_share_counts :
  resolve
    [Occurrence 0 (lit "basic shares outstanding") true false true
       (lit "1200") [lit "1200"]]
  = None.
Proof. vm_compute. reflexivity. Qed.

End Runs.

(* ================================================================== *)
(** * The matcher finds what the patterns mean *)
(* ================================================================== *)

Section MatcherMeaning.

Lemma last_char_app (prev : option char) (a b : str) :
  last_char (last_char prev a) b = last_char prev (a ++ b).
Proof.
  revert prev. induction a as [|c a IH]; intros prev; [reflexivity|].
  simpl app. rewrite !last_char_cons. apply IH.
Qed.

(** Soundness of the repetition, keeping the continuation's position. *)
Lemma rmatch_sound {R} (r : regex) :
  forall (prev : option char) (s : str) (g : option str) (k : cont R) x,
    rmatch r prev s g k = Some x ->
    exists t rest g',
      s = t ++ rest /\ matches r prev t rest
      /\ k (last_char prev t) rest g' = Some x.
Proof.
  induction r as [|p|r1 IH1 r2 IH2|r1 IH1 r2 IH2|r1 IH1|p|p|r1 IH1| |];
    intros prev s g k x H.
  - exists [], s, g. simpl. auto.
  - apply cls_consumes in H as (c & rest & -> & Hc & Hk).
    exists [c], rest, g. simpl. eauto.
  - rewrite rmatch_cat in H.
    apply IH1 in H as (t1 & rest1 & g1 & -> & M1 & H).
    apply IH2 in H as (t2 & rest & g2 & -> & M2 & H).
    exists (t1 ++ t2), rest, g2. rewrite <- app_assoc, <- last_char_app.
    split; [reflexivity|]. split; [|exact H].
    simpl. exists t1, t2. auto.
  - simpl in H. destruct (rmatch r1 prev s g k) as [y|] eqn:E.
    + injection H as <-. apply IH1 in E as (t & rest & g' & -> & M & Hk).
      exists t, rest, g'. simpl. auto.
    + apply IH2 in H as (t & rest & g' & -> & M & Hk).
      exists t, rest, g'. simpl. auto.
  - simpl in H. destruct (rmatch r1 prev s g k) as [y|] eqn:E.
    + injection H as <-. apply IH1 in E as (t & rest & g' & -> & M & Hk).
      exists t, rest, g'. simpl. auto.
    + exists [], s, g. simpl. auto.
  - simpl in H. apply star_consumes in H as (t & rest & -> & Ht & Hk).
    exists t, rest, g. simpl. auto.
  - apply plus_consumes in H as (t & rest & -> & Hne & Ht & Hk).
    exists t, rest, g. simpl. auto.
  - rewrite rmatch_grp in H.
    apply IH1 in H as (t & rest & g' & -> & M & Hk).
    exists t, rest, (Some (firstn (length (t ++ rest) - length rest) (t ++ rest))).
    simpl. auto.
  - simpl in H. destruct (xorb _ _) eqn:E; [|discriminate].
    exists [], s, g. simpl. auto.
  - simpl in H. destruct prev; [discriminate|].
    exists [], s, g. simpl. auto.
Qed.

Lemma star_complete {R} (p : char -> bool) :
  forall (t : str) (prev : option char) (rest : str)
         (k : option char -> str -> option R),
    forallb p t = true ->
    k (last_char prev t) rest <> None ->
    star p prev (t ++ rest) k <> None.
Proof.
  induction t as [|c t IH]; intros prev rest k Ht Hk.
  - simpl app. destruct rest as [|c rest]; simpl; [exact Hk|].
    destruct (p c); [|exact Hk].
    destruct (star p (Some c) rest k); [discriminate | exact Hk].
  - simpl in Ht. apply andb_prop in Ht as [Hc Ht].
    simpl. rewrite Hc. rewrite last_char_cons in Hk.
    pose proof (IH (Some c) rest k Ht Hk) as G.
    destruct (star p (Some c) (t ++ rest) k); [discriminate | contradiction].
Qed.

(** Completeness: a match that the continuation accepts makes the matcher
    succeed (possibly on a match it prefers). *)
Lemma rmatch_complete {R} (r : regex) :
  forall (prev : option char) (t rest : str) (g : option str) (k : cont R),
    matches r prev t rest ->
    (forall g', k (last_char prev t) rest g' <> None) ->
    rmatch r prev (t ++ rest) g k <> None.
Proof.
  induction r as [|p|r1 IH1 r2 IH2|r1 IH1 r2 IH2|r1 IH1|p|p|r1 IH1| |];
    intros prev t rest g k M Hk; simpl in M.
  - subst t. simpl. apply Hk.
  - destruct M as (c & -> & Hc). simpl. rewrite Hc. apply (Hk g).
  - destruct M as (t1 & t2 & -> & M1 & M2).
    rewrite rmatch_cat, <- app_assoc.
    apply IH1; [exact M1|]. intros g1.
    apply IH2; [exact M2|]. intros g2.
    rewrite last_char_app. apply Hk.
  - simpl. destruct M as [M|M].
    + pose proof (IH1 prev t rest g k M Hk) as G.
      destruct (rmatch r1 prev (t ++ rest) g k); [discriminate | contradiction].
    + destruct (rmatch r1 prev (t ++ rest) g k); [discriminate|].
      apply IH2; assumption.
  - simpl. destruct M as [->|M].
    + destruct (rmatch r1 prev ([] ++ rest) g k); [discriminate | apply Hk].
    + pose proof (IH1 prev t rest g k M Hk) as G.
      destruct (rmatch r1 prev (t ++ rest) g k); [discriminate | contradiction].
  - simpl. apply star_complete; [exact M | apply Hk].
  - destruct M as [Hne Ht]. destruct t as [|c t]; [contradiction|].
    simpl in Ht. apply andb_prop in Ht as [Hc Ht].
    simpl. rewrite Hc.
    apply star_complete; [exact Ht|]. rewrite <- (last_char_cons prev). apply Hk.
  - rewrite rmatch_grp. apply IH1; [exact M|]. intros g'. apply Hk.
  - destruct M as [-> Hx]. simpl. rewrite Hx. apply Hk.
  - destruct M as [-> ->]. simpl. apply Hk.
Qed.

(** A successful search is a match at some position of the text. *)
Lemma search_from_position (r : regex) :
  forall (s : str) (prev : option char) (m : matched),
    search_from r prev s = Some m ->
    exists pre post,
      s = pre ++ post /\ match_at r (last_char prev pre) post = Some m.
Proof.
  induction s as [|c s IH]; intros prev m H; simpl in H.
  - destruct (match_at r prev []) eqn:E; [|discriminate].
    injection H as <-. exists [], []. auto.
  - destruct (match_at r prev (c :: s)) eqn:E.
    + injection H as <-. exists [], (c :: s). auto.
    + apply IH in H as (pre & post & -> & H).
      exists (c :: pre), post. rewrite last_char_cons. auto.
Qed.

(** [re.search] succeeds exactly when the pattern matches somewhere. *)
Lemma found_iff_occurs (r : regex) (s : str) :
  found r s = true <-> occurs r s.
Proof.
  unfold found, search, occurs. split.
  - destruct (search_from r None s) as [m|] eqn:E; [|discriminate].
    intros _. apply search_from_position in E as (pre & post & -> & E).
    unfold match_at in E.
    apply rmatch_sound in E as (t & rest & g' & -> & M & _).
    exists pre, t, rest. auto.
  - intros (pre & t & post & -> & M).
    assert (G : search_from r None (pre ++ t ++ post) <> None).
    { apply search_from_app. unfold match_at.
      apply rmatch_complete; [exact M | discriminate]. }
    destruct (search_from r None (pre ++ t ++ post)); congruence.
Qed.

End MatcherMeaning.

(* ================================================================== *)
(** * What the classifiers accept *)
(* ================================================================== *)

Section ClassifierMeaning.

Lemma contains_intro (sub pre post : str) :
  contains sub (pre ++ sub ++ post) = true.
Proof.
  induction pre as [|c pre IH].
  - simpl app. assert (E : startswith sub (sub ++ post) = true).
    { clear. induction sub as [|x sub IH]; simpl; auto.
      rewrite char_eqb_refl. exact IH. }
    destruct (sub ++ post); simpl; rewrite E; reflexivity.
  - simpl. rewrite IH. apply orb_true_r.
Qed.

Lemma contains_iff (sub s : str) :
  contains sub s = true <-> exists pre post, s = pre ++ sub ++ post.
Proof.
  split; [apply contains_split|].
  intros (pre & post & ->). apply contains_intro.
Qed.

(** A literal word matches itself and nothing else. *)
Lemma matches_literal (w : str) :
  forall prev t rest, matches (seq_of Chr w) prev t rest <-> t = w.
Proof.
  induction w as [|c w IH]; intros prev t rest.
  - simpl. tauto.
  - destruct w as [|c' w'].
    + simpl. split.
      * intros (x & -> & Hx). apply char_eqb_eq in Hx. subst. reflexivity.
      * intros ->. exists c. split; [reflexivity | apply char_eqb_refl].
    + change (seq_of Chr (c :: c' :: w')) with (Cat (Chr c) (seq_of Chr (c' :: w'))).
      simpl matches. split.
      * intros (t1 & t2 & -> & (x & -> & Hx) & M2).
        apply char_eqb_eq in Hx. subst x.
        apply IH in M2. subst t2. reflexivity.
      * intros ->. exists [c], (c' :: w'). split; [reflexivity|]. split.
        -- exists c. split; [reflexivity | apply char_eqb_refl].
        -- apply IH. reflexivity.
Qed.

(** Under [re.IGNORECASE] a literal word matches the texts that have its
    letters, in any case. *)
Lemma matches_literal_nocase (w : str) :
  forall prev t rest, matches (seq_of ChrI w) prev t rest <-> lower t = lower w.
Proof.
  induction w as [|c w IH]; intros prev t rest.
  - simpl. split; [intros ->; reflexivity|].
    destruct t; [reflexivity | discriminate].
  - destruct w as [|c' w'].
    + simpl. split.
      * intros (x & -> & Hx). apply char_eqb_eq in Hx. simpl. rewrite Hx. reflexivity.
      * destruct t as [|x [|y t]]; try discriminate.
        intros [= Hx]. exists x. split; [reflexivity|].
        rewrite Hx. apply char_eqb_refl.
    + change (seq_of ChrI (c :: c' :: w'))
        with (Cat (ChrI c) (seq_of ChrI (c' :: w'))).
      simpl matches. split.
      * intros (t1 & t2 & -> & (x & -> & Hx) & M2).
        apply char_eqb_eq in Hx. apply IH in M2.
        simpl app. change (lower (x :: t2)) with (lower_char x :: lower t2).
        rewrite Hx, M2. reflexivity.
      * destruct t as [|x t2]; [discriminate|].
        change (lower (x :: t2)) with (lower_char x :: lower t2).
        change (lower (c :: c' :: w')) with (lower_char c :: lower (c' :: w')).
        intros [= Hx Ht]. exists [x], t2. split; [reflexivity|]. split.
        -- exists x. split; [reflexivity|]. rewrite Hx. apply char_eqb_refl.
        -- apply IH. exact Ht.
Qed.

Lemma lower_char_idem (c : char) : lower_char (lower_char c) = lower_char c.
Proof.
  destruct c as [a| |]; [|reflexivity|reflexivity].
  destruct a as [b0 b1 b2 b3 b4 b5 b6 b7].
  destruct b0, b1, b2, b3, b4, b5, b6, b7; vm_compute; reflexivity.
Qed.

Lemma lower_idem (s : str) : lower (lower s) = lower s.
Proof.
  unfold lower. rewrite map_map. apply map_ext. intros c. apply lower_char_idem.
Qed.

Lemma is_space_lower_char (c : char) : is_space (lower_char c) = is_space c.
Proof.
  destruct c as [a| |]; [|reflexivity|reflexivity].
  destruct a as [b0 b1 b2 b3 b4 b5 b6 b7].
  destruct b0, b1, b2, b3, b4, b5, b6, b7; vm_compute; reflexivity.
Qed.

Lemma app_same_length {A} (a a' b b' : list A) :
  length a = length a' -> a ++ b = a' ++ b' -> a = a' /\ b = b'.
Proof.
  revert a'. induction a as [|x a IH]; intros [|x' a'] Hl E;
    simpl in *; try discriminate; auto.
  injection E as -> E. injection Hl as Hl.
  destruct (IH _ Hl E) as [-> ->]. auto.
Qed.

(** A part of a lowered text is its own lowering. *)
Lemma lower_part (a t b x : str) : lower x = a ++ t ++ b -> lower t = t.
Proof.
  intros E.
  assert (L : lower (a ++ t ++ b) = a ++ t ++ b) by (rewrite <- E; apply lower_idem).
  rewrite !lower_app in L.
  assert (La : length (lower a) = length a) by apply length_map.
  apply (app_same_length _ _ _ _ La) in L. destruct L as [_ L].
  assert (Lt : length (lower t) = length t) by apply length_map.
  apply (app_same_length _ _ _ _ Lt) in L. tauto.
Qed.

Lemma occurs_alt (r1 r2 : regex) (s : str) :
  occurs (Alt r1 r2) s <-> occurs r1 s \/ occurs r2 s.
Proof.
  unfold occurs. simpl. split.
  - intros (pre & t & post & E & [M|M]); [left | right]; eauto.
  - intros [(pre & t & post & E & M)|(pre & t & post & E & M)]; eauto 6.
Qed.

Lemma occurs_literal (w s : str) :
  occurs (seq_of Chr w) s <-> contains w s = true.
Proof.
  rewrite contains_iff. unfold occurs. split.
  - intros (pre & t & post & -> & M). apply matches_literal in M. subst. eauto.
  - intros (pre & post & ->). exists pre, w, post.
    split; [reflexivity | apply matches_literal; reflexivity].
Qed.

(** On a lowered text, a lower-case word is found under [re.IGNORECASE]
    exactly where it stands. *)
Lemma occurs_literal_nocase (w x : str) :
  lower w = w ->
  occurs (seq_of ChrI w) (lower x) <-> contains w (lower x) = true.
Proof.
  intros Hw. rewrite contains_iff. unfold occurs. split.
  - intros (pre & t & post & E & M). apply matches_literal_nocase in M.
    rewrite (lower_part _ _ _ _ E), Hw in M. subst. eauto.
  - intros (pre & post & E). exists pre, w, post.
    split; [exact E | apply matches_literal_nocase; reflexivity].
Qed.

(** [a\s*b] and [a\s+b] *)
Lemma occurs_spaced (a b s : str) :
  occurs (cats [seq_of Chr a; ws; seq_of Chr b]) s <-> spaced_in false a b s.
Proof.
  unfold occurs, spaced_in. split.
  - intros (pre & t & post & -> & M).
    cbn [cats fold_right matches ws] in M.
    destruct M as (t1 & t2 & -> & M1 & t3 & t4 & -> & M3 & t5 & t6 & -> & M5 & ->).
    apply matches_literal in M1, M5. subst.
    exists t3. split; [exact M3|]. split; [discriminate|].
    rewrite app_nil_r. apply contains_intro.
  - intros (w & Hw & _ & H). apply contains_split in H as (pre & post & ->).
    exists pre, (a ++ w ++ b), post. split; [reflexivity|].
    cbn [cats fold_right matches ws].
    exists a, (w ++ b). split; [reflexivity|].
    split; [apply matches_literal; reflexivity|].
    exists w, b. split; [reflexivity|]. split; [exact Hw|].
    exists b, []. rewrite app_nil_r.
    repeat split. apply matches_literal. reflexivity.
Qed.

Lemma occurs_spaced_nocase (a b x : str) :
  lower a = a -> lower b = b ->
  occurs (cats [seq_of ChrI a; ws; seq_of ChrI b]) (lower x)
  <-> spaced_in false a b (lower x).
Proof.
  intros Ha Hb. unfold occurs, spaced_in. split.
  - intros (pre & t & post & E & M).
    cbn [cats fold_right matches ws] in M.
    destruct M as (t1 & t2 & -> & M1 & t3 & t4 & -> & M3 & t5 & t6 & -> & M5 & ->).
    apply matches_literal_nocase in M1, M5.
    rewrite app_nil_r in E.
    rewrite (lower_part pre t1 ((t3 ++ t5) ++ post) x), Ha in M1
      by (rewrite E, <- !app_assoc; reflexivity).
    rewrite (lower_part (pre ++ t1 ++ t3) t5 post x), Hb in M5
      by (rewrite E, <- !app_assoc; reflexivity).
    subst. exists t3. split; [exact M3|]. split; [discriminate|].
    rewrite E. apply contains_intro.
  - intros (w & Hw & _ & H). apply contains_split in H as (pre & post & E).
    exists pre, (a ++ w ++ b), post. split; [exact E|].
    cbn [cats fold_right matches ws].
    exists a, (w ++ b). split; [reflexivity|].
    split; [apply matches_literal_nocase; reflexivity|].
    exists w, b. split; [reflexivity|]. split; [exact Hw|].
    exists b, []. rewrite app_nil_r.
    repeat split. apply matches_literal_nocase. reflexivity.
Qed.

End ClassifierMeaning.

(** [is_gaap_eps] answers no exactly for the texts whose lowering
    contains "non-gaap", or "non" and "gaap" with only white space (or
    nothing) between them, or "adjusted". *)
Theorem is_gaap_eps_false_iff (text : str) :
  is_gaap_eps text = false
  <-> contains (lit "non-gaap") (lower text) = true
      \/ spaced_in false (lit "non") (lit "gaap") (lower text)
      \/ contains (lit "adjusted") (lower text) = true.
Proof.
  unfold is_gaap_eps. cbv zeta. rewrite negb_false_iff, found_iff_occurs.
  unfold non_gaap_re. cbn [alts].
  rewrite !occurs_alt. unfold Lit.
  rewrite !occurs_literal, occurs_spaced. reflexivity.
Qed.

Section ClassifierWords.

(** [\bw\b] for a word [w] that starts and ends with word characters. *)
Lemma occurs_word (w s : str) :
  (forall rest, word_after (w ++ rest) = true) ->
  (forall p, word_before (last_char p w) = true) ->
  occurs (cats [Bnd; seq_of Chr w; Bnd]) s <-> word_in w s.
Proof.
  intros Hfirst Hlast. unfold occurs, word_in. split.
  - intros (pre & t & post & -> & M).
    cbn [cats fold_right matches] in M.
    destruct M as (t1 & t2 & -> & (-> & B1) & t3 & t4 & -> & M3
                   & t5 & t6 & -> & (-> & B2) & ->).
    apply matches_literal in M3. subst t3.
    simpl app in *. rewrite app_nil_r in *.
    rewrite Hfirst in B1. rewrite Hlast in B2.
    exists pre, post. repeat split.
    + destruct (word_before (last_char None pre)); [discriminate | reflexivity].
    + destruct (word_after post); [discriminate | reflexivity].
  - intros (pre & post & -> & B1 & B2).
    exists pre, w, post. split; [reflexivity|].
    cbn [cats fold_right matches].
    exists [], w. split; [reflexivity|]. split.
    { split; [reflexivity|]. rewrite B1, Hfirst. reflexivity. }
    exists w, []. split; [rewrite app_nil_r; reflexivity|]. split.
    { apply matches_literal. reflexivity. }
    exists [], []. split; [reflexivity|]. split; [|reflexivity].
    split; [reflexivity|]. simpl app. rewrite Hlast, B2. reflexivity.
Qed.

(** [a\s+(?:and|&)\s+b] *)
Lemma occurs_joined (a b s : str) :
  occurs (cats [seq_of Chr a; ws1; Alt (Lit "and") (Lit "&"); ws1; seq_of Chr b]) s
  <-> joined_in a b s.
Proof.
  unfold occurs, joined_in. split.
  - intros (pre & t & post & -> & M).
    cbn [cats fold_right matches ws1] in M.
    destruct M as (t1 & t2 & -> & M1 & t3 & t4 & -> & [N3 M3] & t5 & t6 & -> & M5
                   & t7 & t8 & -> & [N7 M7] & t9 & t10 & -> & M9 & ->).
    apply matches_literal in M1, M9. subst t1 t9.
    exists t3, t5, t7.
    split.
    { destruct M5 as [M5|M5]; unfold Lit in M5; apply matches_literal in M5; auto. }
    repeat split; auto.
    rewrite app_nil_r. apply contains_intro.
  - intros (w1 & conj & w2 & Hc & N1 & S1 & N2 & S2 & H).
    apply contains_split in H as (pre & post & ->).
    exists pre, (a ++ w1 ++ conj ++ w2 ++ b), post. split; [reflexivity|].
    cbn [cats fold_right matches ws1].
    exists a, (w1 ++ conj ++ w2 ++ b). split; [reflexivity|].
    split; [apply matches_literal; reflexivity|].
    exists w1, (conj ++ w2 ++ b). split; [reflexivity|]. split; [auto|].
    exists conj, (w2 ++ b). split; [reflexivity|]. split.
    { destruct Hc as [->| ->]; [left | right]; unfold Lit;
        apply matches_literal; reflexivity. }
    exists w2, b. split; [reflexivity|]. split; [auto|].
    exists b, []. rewrite app_nil_r. repeat split.
    apply matches_literal. reflexivity.
Qed.

Lemma found_both_named (s : str) :
  found basic_and_diluted_re s || found diluted_and_basic_re s = true
  <-> both_named s.
Proof.
  rewrite orb_true_iff, !found_iff_occurs. unfold both_named.
  change basic_and_diluted_re
    with (cats [seq_of Chr (lit "basic"); ws1; Alt (Lit "and") (Lit "&"); ws1;
                seq_of Chr (lit "diluted")]).
  change diluted_and_basic_re
    with (cats [seq_of Chr (lit "diluted"); ws1; Alt (Lit "and") (Lit "&"); ws1;
                seq_of Chr (lit "basic")]).
  rewrite !occurs_joined. reflexivity.
Qed.

Lemma found_basic_word (s : str) :
  found basic_word_re s = true <-> word_in (lit "basic") s.
Proof.
  rewrite found_iff_occurs. unfold basic_word_re, Lit.
  apply occurs_word; intros; vm_compute; reflexivity.
Qed.

Lemma found_diluted_word (s : str) :
  found diluted_word_re s = true <-> word_in (lit "diluted") s.
Proof.
  rewrite found_iff_occurs. unfold diluted_word_re, Lit.
  apply occurs_word; intros; vm_compute; reflexivity.
Qed.

End ClassifierWords.

(** [is_basic_eps] sets the basic flag exactly when the lowered text has
    the whole word "basic" or the combined heading ("basic and diluted",
    "diluted & basic", ...), and the diluted flag exactly when it has the
    whole word "diluted" or the combined heading. *)
Theorem is_basic_eps_flags (text : str) :
  (fst (is_basic_eps text) = true
   <-> word_in (lit "basic") (lower text) \/ both_named (lower text))
  /\ (snd (is_basic_eps text) = true
      <-> word_in (lit "diluted") (lower text) \/ both_named (lower text)).
Proof.
  unfold is_basic_eps. cbv zeta.
  pose proof (found_both_named (lower text)) as B.
  pose proof (found_basic_word (lower text)) as Wb.
  pose proof (found_diluted_word (lower text)) as Wd.
  destruct (found basic_and_diluted_re (lower text)
            || found diluted_and_basic_re (lower text)).
  - simpl. split; split; auto; intros _; right; apply B; reflexivity.
  - simpl. assert (NB : ~ both_named (lower text)).
    { intros H. apply B in H. discriminate. }
    split; split; tauto.
Qed.

Section LabelMeaning.

Lemma lower_lstrip (s : str) : lower (lstrip s) = lstrip (lower s).
Proof.
  induction s as [|c s IH]; [reflexivity|].
  simpl. rewrite is_space_lower_char. destruct (is_space c); [exact IH | reflexivity].
Qed.

Lemma lower_rev (s : str) : lower (rev s) = rev (lower s).
Proof. apply map_rev. Qed.

(** Lowering and stripping commute. *)
Lemma lower_strip (s : str) : lower (strip s) = strip (lower s).
Proof.
  unfold strip, rstrip.
  rewrite lower_rev, lower_lstrip, lower_rev, lower_lstrip. reflexivity.
Qed.

Lemma lstrip_suffix (s : str) :
  exists a, s = a ++ lstrip s /\ forallb is_space a = true.
Proof.
  induction s as [|c s (a & E & Ha)]; [exists []; auto|].
  simpl. destruct (is_space c) eqn:Hc.
  - exists (c :: a). simpl. rewrite Hc, Ha, <- E. auto.
  - exists []. auto.
Qed.

(** The stripped text stands in the text, between white space. *)
Lemma strip_infix (s : str) :
  exists a b,
    s = a ++ strip s ++ b
    /\ forallb is_space a = true /\ forallb is_space b = true.
Proof.
  destruct (lstrip_suffix s) as (a & Ea & Ha).
  destruct (lstrip_suffix (rev (lstrip s))) as (b & Eb & Hb).
  exists a, (rev b). unfold strip, rstrip.
  split; [|split; [exact Ha|]].
  - rewrite <- rev_app_distr, <- Eb, rev_involutive. exact Ea.
  - rewrite forallb_forall in *. intros x Hx. apply Hb, in_rev, Hx.
Qed.

Lemma contains_in_stripped (sub s : str) :
  contains sub (strip s) = true -> contains sub s = true.
Proof.
  intros H. apply contains_split in H as (pre & post & E).
  destruct (strip_infix s) as (a & b & Es & _).
  rewrite Es, E.
  replace (a ++ (pre ++ sub ++ post) ++ b) with ((a ++ pre) ++ sub ++ (post ++ b))
    by (rewrite <- !app_assoc; reflexivity).
  apply contains_intro.
Qed.

(** A phrase without white space at its ends stays under [strip]. *)
Lemma contains_stripped (sub s : str) :
  tight sub = true -> contains sub s = true -> contains sub (strip s) = true.
Proof.
  intros Ht H. apply contains_split in H as (pre & post & ->).
  rewrite strip_tight by exact Ht. apply contains_intro.
Qed.

Lemma found_in_stripped (r : regex) (sub s : str) :
  tight sub = true ->
  (forall prev post, match_at r prev (sub ++ post) <> None) ->
  contains sub s = true ->
  found r (strip s) = true.
Proof.
  intros Ht Hm H. apply contains_split in H as (pre & post & ->).
  rewrite strip_tight by exact Ht. apply found_at. intros prev. apply Hm.
Qed.

(** The loop of [check_eps_pattern]: some pattern matches and the exclusion
    does not. *)
Lemma scan_patterns_gate (ps : list regex) (text : str) :
  scan_patterns ps text
  = existsb (fun pattern => found pattern text) ps && negb (found exclusion_re text).
Proof.
  induction ps as [|pattern ps IH]; [reflexivity|].
  simpl. rewrite IH.
  destruct (found pattern text), (found exclusion_re text); simpl; auto.
  rewrite andb_false_r. reflexivity.
Qed.

(** What follows the last pattern of a sequence. *)
Lemma matches_cats_last (rs : list regex) :
  forall prev t rest,
    rs <> [] ->
    matches (cats rs) prev t rest ->
    exists t1 t2 prev', t = t1 ++ t2 /\ matches (last rs Emp) prev' t2 rest.
Proof.
  induction rs as [|r rs IH]; intros prev t rest Hne M; [contradiction|].
  cbn [cats fold_right matches] in M.
  destruct M as (t1 & t2 & -> & M1 & M2).
  destruct rs as [|r' rs'].
  - simpl in M2. subst t2. rewrite app_nil_r in *.
    exists [], t1, prev. simpl. auto.
  - apply IH in M2 as (u1 & u2 & prev' & -> & M2); [|discriminate].
    exists (t1 ++ u1), u2, prev'. rewrite <- app_assoc.
    split; [reflexivity|]. exact M2.
Qed.

(** A sequence that ends with a lower-case word, on a lowered text. *)
Lemma occurs_ends_with (rs : list regex) (w x : str) :
  rs <> [] -> last rs Emp = seq_of ChrI w -> lower w = w ->
  occurs (cats rs) (lower x) -> contains w (lower x) = true.
Proof.
  intros Hne Hlast Hw (pre & t & post & E & M).
  apply matches_cats_last in M as (t1 & t2 & prev' & -> & M); [|exact Hne].
  rewrite Hlast in M. apply matches_literal_nocase in M.
  rewrite <- app_assoc in E.
  rewrite (lower_part (pre ++ t1) t2 post x), Hw in M
    by (rewrite E, <- !app_assoc; reflexivity).
  subst t2. rewrite E.
  replace (pre ++ t1 ++ w ++ post) with ((pre ++ t1) ++ w ++ post)
    by (rewrite <- !app_assoc; reflexivity).
  apply contains_intro.
Qed.

(** Every label pattern ends with "share", but for [\beps\b]. *)
Lemma patterns_need_share_or_eps :
  Forall (fun pattern =>
            forall x, occurs pattern (lower x) ->
                      contains (lit "share") (lower x) = true
                      \/ contains (lit "eps") (lower x) = true)
         patterns.
Proof.
  unfold patterns.
  repeat (apply Forall_cons; [intros x Ho|]); try apply Forall_nil;
    try (left; eapply occurs_ends_with; [| | |exact Ho];
         [discriminate | reflexivity | reflexivity]).
  right.
  destruct Ho as (pre & t & post & E & M).
  cbn [cats fold_right matches] in M.
  destruct M as (t1 & t2 & -> & _ & t3 & t4 & -> & M3 & _).
  unfold LitI in M3. apply matches_literal_nocase in M3.
  rewrite (lower_part (pre ++ t1) t3 (t4 ++ post) x) in M3
    by (rewrite E, <- !app_assoc; reflexivity).
  subst t3. rewrite E.
  replace (pre ++ (t1 ++ lower (lit "eps") ++ t4) ++ post)
    with ((pre ++ t1) ++ lit "eps" ++ (t4 ++ post))
    by (rewrite <- !app_assoc; reflexivity).
  apply contains_intro.
Qed.

Lemma tight_between (a w b : str) :
  tight a = true -> tight b = true -> tight (a ++ w ++ b) = true.
Proof.
  unfold tight. intros Ha Hb.
  destruct a as [|c1 a']; [discriminate|].
  destruct (rev (c1 :: a')) as [|x xs]; [discriminate|].
  apply andb_prop in Ha as [Ha _].
  destruct b as [|d1 b']; [discriminate|].
  destruct (rev (d1 :: b')) as [|c2 ys] eqn:Eb; [discriminate|].
  apply andb_prop in Hb as [_ Hb].
  cbn [app].
  change (c1 :: a' ++ w ++ d1 :: b') with ((c1 :: a') ++ w ++ d1 :: b').
  rewrite !rev_app_distr, Eb. simpl. rewrite Ha, Hb. reflexivity.
Qed.

(** The exclusion, in plain terms. *)
Lemma excluded_iff (text : str) :
  found exclusion_re (strip (lower text)) = true
  <-> contains (lit "weighted") (lower text) = true
      \/ contains (lit "average") (lower text) = true
      \/ spaced_in false (lit "shares") (lit "outstanding") (lower text).
Proof.
  split.
  - rewrite <- lower_strip, found_iff_occurs.
    unfold exclusion_re. cbn [alts]. rewrite !occurs_alt. unfold LitI.
    rewrite !occurs_literal_nocase, occurs_spaced_nocase by reflexivity.
    rewrite lower_strip.
    intros [H|[H|(w & Hw & Hn & H)]].
    + left. apply contains_in_stripped, H.
    + right. left. apply contains_in_stripped, H.
    + right. right. exists w. repeat split; auto.
      apply contains_in_stripped, H.
  - intros [H|[H|(w & Hw & _ & H)]].
    + eapply found_in_stripped; [| |exact H];
        [vm_compute; reflexivity | phrase_matches].
    + eapply found_in_stripped; [| |exact H];
        [vm_compute; reflexivity | phrase_matches].
    + rewrite <- lower_strip, found_iff_occurs.
      unfold exclusion_re. cbn [alts]. rewrite !occurs_alt. unfold LitI.
      rewrite occurs_spaced_nocase by reflexivity.
      right. right. exists w. repeat split; [exact Hw | discriminate|].
      rewrite lower_strip. apply contains_stripped; [|exact H].
      apply tight_between; reflexivity.
Qed.

End LabelMeaning.

(** On the texts of the alphabet (code points up to U+00FF and the two
    dashes), [check_eps_pattern] accepts only texts whose lowering contains
    "share" or "eps", and none of "weighted", "average" and "shares
    outstanding" (with any white space, or none, between the two words). *)
Theorem check_eps_pattern_accepts_only (text : str) :
  check_eps_pattern text = true ->
  (contains (lit "share") (lower text) = true
   \/ contains (lit "eps") (lower text) = true)
  /\ contains (lit "weighted") (lower text) = false
  /\ contains (lit "average") (lower text) = false
  /\ ~ spaced_in false (lit "shares") (lit "outstanding") (lower text).
Proof.
  unfold check_eps_pattern. cbv zeta. rewrite scan_patterns_gate.
  intros H. apply andb_prop in H as [Hp He].
  apply negb_true_iff in He.
  assert (Hx : ~ (contains (lit "weighted") (lower text) = true
                  \/ contains (lit "average") (lower text) = true
                  \/ spaced_in false (lit "shares") (lit "outstanding") (lower text))).
  { intros Hx. apply excluded_iff in Hx. congruence. }
  split.
  - apply existsb_exists in Hp as (pattern & Hin & Hf).
    apply found_iff_occurs in Hf. rewrite <- lower_strip in Hf.
    pose proof patterns_need_share_or_eps as Hall.
    rewrite Forall_forall in Hall. apply (Hall pattern Hin) in Hf.
    rewrite lower_strip in Hf.
    destruct Hf as [Hf|Hf]; [left | right]; apply contains_in_stripped, Hf.
  - repeat split.
    + destruct (contains (lit "weighted") (lower text)); [exfalso|]; auto.
    + destruct (contains (lit "average") (lower text)); [exfalso|]; auto.
    + tauto.
Qed.

Lemma check_eps_pattern_accepts_only_witness :
  contains (lit "share") (lower (lit "Basic Earnings Per Share")) = true
  \/ contains (lit "eps") (lower (lit "Basic Earnings Per Share")) = true.
Proof.
  apply (check_eps_pattern_accepts_only (lit "Basic Earnings Per Share")).
  vm_compute. reflexivity.
Defined.

Section LabelPhrases.

Lemma last_char_suffix (a b : str) :
  b <> [] -> last_char None (a ++ b) = last_char None b.
Proof.
  intros Hb. unfold last_char. rewrite rev_app_distr.
  destruct (rev b) as [|z zs] eqn:E; [|reflexivity].
  apply (f_equal (@rev char)) in E. rewrite rev_involutive in E. contradiction.
Qed.

(** A whole word stays a whole word under [strip]. *)
Lemma word_in_stripped (w s : str) :
  tight w = true -> word_in w s -> word_in w (strip s).
Proof.
  intros Ht (pre & post & -> & B1 & B2).
  rewrite strip_tight by exact Ht.
  exists (lstrip pre), (rstrip post). split; [reflexivity|]. split.
  - destruct (lstrip_suffix pre) as (a & E & _).
    destruct (lstrip pre) as [|c l] eqn:El; [reflexivity|].
    rewrite E, last_char_suffix in B1 by discriminate. exact B1.
  - destruct (lstrip_suffix (rev post)) as (b & E & _).
    unfold rstrip.
    assert (Ep : post = rev (lstrip (rev post)) ++ rev b).
    { rewrite <- rev_app_distr, <- E, rev_involutive. reflexivity. }
    destruct (rev (lstrip (rev post))) as [|c l]; [reflexivity|].
    rewrite Ep in B2. exact B2.
Qed.

(** [\bw\b] under [re.IGNORECASE] finds a whole word. *)
Lemma word_found_nocase (w s : str) :
  (forall rest, word_after (w ++ rest) = true) ->
  (forall p, word_before (last_char p w) = true) ->
  word_in w s -> found (cats [Bnd; seq_of ChrI w; Bnd]) s = true.
Proof.
  intros Hfirst Hlast (pre & post & -> & B1 & B2).
  apply found_iff_occurs. exists pre, w, post. split; [reflexivity|].
  cbn [cats fold_right matches].
  exists [], w. split; [reflexivity|]. split.
  { split; [reflexivity|]. rewrite B1, Hfirst. reflexivity. }
  exists w, []. split; [rewrite app_nil_r; reflexivity|]. split.
  { apply matches_literal_nocase. reflexivity. }
  exists [], []. split; [reflexivity|]. split; [|reflexivity].
  split; [reflexivity|]. simpl app. rewrite Hlast, B2. reflexivity.
Qed.

(** No excluded phrase: the exclusion does not match. *)
Lemma not_excluded (text : str) :
  contains (lit "weighted") (lower text) = false ->
  contains (lit "average") (lower text) = false ->
  contains (lit "outstanding") (lower text) = false ->
  found exclusion_re (strip (lower text)) = false.
Proof.
  intros Hw Ha Ho.
  destruct (found exclusion_re (strip (lower text))) eqn:E; [|reflexivity].
  apply excluded_iff in E as [E|[E|(w & _ & _ & E)]]; try congruence.
  apply contains_split in E as (pre & post & E).
  rewrite E in Ho.
  replace (pre ++ (lit "shares" ++ w ++ lit "outstanding") ++ post)
    with ((pre ++ lit "shares" ++ w) ++ lit "outstanding" ++ post) in Ho
    by (rewrite <- !app_assoc; reflexivity).
  rewrite contains_intro in Ho. discriminate.
Qed.

Lemma pattern_found_accepts (k : nat) (text : str) :
  k < length patterns ->
  found (nth k patterns Emp) (strip (lower text)) = true ->
  found exclusion_re (strip (lower text)) = false ->
  check_eps_pattern text = true.
Proof.
  intros Hk Hf He. unfold check_eps_pattern. cbv zeta.
  rewrite scan_patterns_gate, He, andb_true_r.
  apply existsb_exists. exists (nth k patterns Emp).
  split; [apply nth_In, Hk | exact Hf].
Qed.

End LabelPhrases.

(** On the texts of the alphabet (code points up to U+00FF and the two
    dashes), [check_eps_pattern] accepts every text whose lowering has the
    whole word "eps" or one of the phrases "earnings per share", "loss per
    share", "earnings (loss) per share", "net income per share" and
    "income (loss) per share", and contains none of "weighted", "average"
    and "outstanding". *)
Theorem check_eps_pattern_accepts (text : str) :
  word_in (lit "eps") (lower text)
  \/ contains (lit "earnings per share") (lower text) = true
  \/ contains (lit "loss per share") (lower text) = true
  \/ contains (lit "earnings (loss) per share") (lower text) = true
  \/ contains (lit "net income per share") (lower text) = true
  \/ contains (lit "income (loss) per share") (lower text) = true ->
  contains (lit "weighted") (lower text) = false ->
  contains (lit "average") (lower text) = false ->
  contains (lit "outstanding") (lower text) = false ->
  check_eps_pattern text = true.
Proof.
  intros H Hw Ha Ho.
  pose proof (not_excluded text Hw Ha Ho) as He.
  destruct H as [H|[H|[H|[H|[H|H]]]]].
  - apply (@pattern_found_accepts 5); [vm_compute; lia| |exact He].
    change (nth 5 patterns Emp) with (cats [Bnd; seq_of ChrI (lit "eps"); Bnd]).
    apply word_found_nocase; try (intros; vm_compute; reflexivity).
    apply word_in_stripped; [reflexivity | exact H].
  - apply (@pattern_found_accepts 0); [vm_compute; lia| |exact He].
    eapply found_in_stripped; [| |exact H]; [reflexivity | phrase_matches].
  - apply (@pattern_found_accepts 1); [vm_compute; lia| |exact He].
    eapply found_in_stripped; [| |exact H]; [reflexivity | phrase_matches].
  - apply (@pattern_found_accepts 0); [vm_compute; lia| |exact He].
    eapply found_in_stripped; [| |exact H]; [reflexivity | phrase_matches].
  - apply (@pattern_found_accepts 3); [vm_compute; lia| |exact He].
    eapply found_in_stripped; [| |exact H]; [reflexivity | phrase_matches].
  - apply (@pattern_found_accepts 4); [vm_compute; lia| |exact He].
    eapply found_in_stripped; [| |exact H]; [reflexivity | phrase_matches].
Qed.

Lemma check_eps_pattern_accepts_witness :
  check_eps_pattern (lit "  Net Income Per Share - Diluted:") = true.
Proof.
  apply check_eps_pattern_accepts.
  - right. right. right. right. left. vm_compute. reflexivity.
  - vm_compute. reflexivity.
  - vm_compute. reflexivity.
  - vm_compute. reflexivity.
Defined.

(* ================================================================== *)
(** * The scan, table by table and row by row *)
(* ================================================================== *)

Section ScanStructure.

Lemma scan_row_appends (rows : table) (tidx : nat) (acc : list occurrence)
    (ir : nat * row) :
  scan_row rows tidx acc ir = acc ++ row_occurrences rows tidx ir.
Proof.
  unfold row_occurrences, scan_row.
  destruct (check_eps_pattern _); [|rewrite app_nil_r; reflexivity].
  destruct (row_values _) as [|c cs]; [rewrite app_nil_r; reflexivity|].
  destruct (select_eps_value _ _ _); [reflexivity | rewrite app_nil_r; reflexivity].
Qed.

Lemma fold_left_appends {A B} (f : list A -> B -> list A) (g : B -> list A) :
  (forall acc b, f acc b = acc ++ g b) ->
  forall l acc, fold_left f l acc = acc ++ flat_map g l.
Proof.
  intros Hf. induction l as [|b l IH]; intros acc; simpl.
  - rewrite app_nil_r. reflexivity.
  - rewrite IH, Hf, <- app_assoc. reflexivity.
Qed.

Lemma scan_table_appends (acc : list occurrence) (it : nat * table) :
  scan_table acc it = acc ++ table_occurrences it.
Proof.
  unfold scan_table, table_occurrences.
  apply fold_left_appends. intros a b. apply scan_row_appends.
Qed.

(** The scan is the concatenation, over the tables and their rows in
    order, of what each row adds. *)
Lemma extract_by_rows (tables : document) :
  extract_eps_from_filing tables = flat_map table_occurrences (enumerate tables).
Proof.
  unfold extract_eps_from_filing.
  rewrite (fold_left_appends scan_table table_occurrences scan_table_appends).
  reflexivity.
Qed.

Lemma in_enumerate_from {A} (l : list A) :
  forall (start i : nat) (x : A),
    In (i, x) (combine (seq start (length l)) l) ->
    start <= i /\ nth_error l (i - start) = Some x.
Proof.
  induction l as [|a l IH]; intros start i x H; simpl in H; [contradiction|].
  destruct H as [[= <- <-]|H].
  - rewrite Nat.sub_diag. auto.
  - apply IH in H as [Hle Hn]. split; [lia|].
    replace (i - start) with (S (i - S start)) by lia. exact Hn.
Qed.

Lemma in_enumerate {A} (l : list A) (i : nat) (x : A) :
  In (i, x) (enumerate l) -> nth_error l i = Some x.
Proof.
  intros H. apply in_enumerate_from in H as [_ H].
  rewrite Nat.sub_0_r in H. exact H.
Qed.

End ScanStructure.

Section ScanRows.

Lemma cell_candidates_values (b d g : bool) (cells : list str) :
  map cand_value (cell_candidates b d g cells) = cell_values cells.
Proof.
  unfold cell_candidates, cell_values.
  induction cells as [|cell cells IH]; [reflexivity|].
  simpl. rewrite map_app, IH.
  destruct (extract_numeric_value (strip cell)); reflexivity.
Qed.

Lemma cell_candidates_flags (b d g : bool) (cells : list str) :
  Forall (fun c => cand_basic c = b /\ cand_diluted c = d /\ cand_gaap c = g)
         (cell_candidates b d g cells).
Proof.
  unfold cell_candidates. apply Forall_forall. intros c Hc.
  apply in_flat_map in Hc as (cell & _ & Hc).
  destruct (extract_numeric_value (strip cell)); [|contradiction].
  destruct Hc as [<-|[]]. auto.
Qed.

(** The candidates found by advancing are the candidates of one row. *)
Lemma advance_rows_one_row (later : list row) :
  forall b d g,
  exists b' d' g' cells,
    adv_values (advance_rows later b d g) = cell_candidates b' d' g' cells.
Proof.
  induction later as [|r later IH]; intros b d g; cbn -[cell_candidates].
  - exists b, d, g, []. reflexivity.
  - set (bd := if b && d then (true, true) else is_basic_eps (text_of_row r)).
    set (g' := is_gaap_eps (text_of_row r)).
    destruct (cell_candidates (fst bd) (snd bd) g' (row_cells r)) as [|c cs] eqn:E.
    + cbn -[cell_candidates]. apply IH.
    + cbn -[cell_candidates]. exists (fst bd), (snd bd), g', (row_cells r).
      symmetry. exact E.
Qed.

Lemma advance_rows_values (later : list row) :
  forall b d g,
    map cand_value (adv_values (advance_rows later b d g)) = first_values later.
Proof.
  induction later as [|r later IH]; intros b d g; cbn -[cell_candidates cell_values];
    [reflexivity|].
  set (bd := if b && d then (true, true) else is_basic_eps (text_of_row r)).
  set (g' := is_gaap_eps (text_of_row r)).
  rewrite <- (cell_candidates_values (fst bd) (snd bd) g').
  destruct (cell_candidates (fst bd) (snd bd) g' (row_cells r)) as [|c cs].
  + cbn -[cell_candidates cell_values]. apply IH.
  + reflexivity.
Qed.

(** The candidates stitched to a label row: those of the row itself, or
    what advancing finds. *)
Lemma stitch_row_values (rows : table) (idx : nat) (r : row) :
  let bd := is_basic_eps (text_of_row r) in
  let g := is_gaap_eps (text_of_row r) in
  row_values (stitch rows idx r)
  = match cell_candidates (fst bd) (snd bd) g (row_cells r) with
    | [] => adv_values (advance_rows (skipn (S idx) rows) (fst bd) (snd bd) g)
    | c :: cs => c :: cs
    end.
Proof.
  cbv zeta. unfold stitch.
  rewrite scan_cells_candidates. simpl fst at 1. simpl snd at 1. simpl app.
  destruct (cell_candidates _ _ _ (row_cells r)) as [|c cs].
  - simpl fst. simpl snd.
    rewrite (@stitch_loop_advances (skipn (S idx) rows) rows idx _ _ _ (length rows) eq_refl)
      by (rewrite length_skipn; lia).
    reflexivity.
  - rewrite stitch_loop_found by reflexivity. reflexivity.
Qed.

Lemma stitch_one_row (rows : table) (idx : nat) (r : row) :
  exists b d g cells,
    row_values (stitch rows idx r) = cell_candidates b d g cells.
Proof.
  rewrite stitch_row_values. cbv zeta.
  destruct (cell_candidates _ _ _ (row_cells r)) as [|c cs] eqn:E.
  - apply advance_rows_one_row.
  - eexists _, _, _, _. symmetry. exact E.
Qed.

Lemma stitch_values (rows : table) (idx : nat) (r : row) :
  map cand_value (row_values (stitch rows idx r))
  = first_values (r :: skipn (S idx) rows).
Proof.
  rewrite stitch_row_values. cbv zeta. cbn -[cell_candidates cell_values skipn].
  rewrite <- (cell_candidates_values (fst (is_basic_eps (text_of_row r)))
                (snd (is_basic_eps (text_of_row r))) (is_gaap_eps (text_of_row r))).
  destruct (cell_candidates _ _ _ (row_cells r)) as [|c cs].
  - apply advance_rows_values.
  - reflexivity.
Qed.

(** With candidates that share their flags the selector takes the first. *)
Lemma preferred_uniform (b d : bool) (first : candidate) (rest : list candidate) :
  Forall (fun c => cand_basic c = b /\ cand_diluted c = d) (first :: rest) ->
  preferred first rest = first.
Proof.
  intros H. unfold preferred.
  assert (Hf : cand_basic first = b /\ cand_diluted first = d)
    by (inversion H; assumption).
  destruct Hf as [Hb Hd].
  destruct b.
  - simpl. rewrite Hb. reflexivity.
  - assert (Nb : find cand_basic (first :: rest) = None).
    { destruct (find cand_basic (first :: rest)) as [c|] eqn:E; [|reflexivity].
      apply find_some in E as [Hin Hc]. rewrite Forall_forall in H.
      destruct (H c Hin). congruence. }
    rewrite Nb. destruct d.
    + simpl. rewrite Hd. reflexivity.
    + destruct (find cand_diluted (first :: rest)) as [c|] eqn:E; [|reflexivity].
      apply find_some in E as [Hin Hc]. rewrite Forall_forall in H.
      destruct (H c Hin). congruence.
Qed.

(** What a row adds to the scan. *)
Lemma row_occurrences_inv (rows : table) (tidx idx : nat) (r : row)
    (e : occurrence) :
  In e (row_occurrences rows tidx (idx, r)) ->
  is_label r = true
  /\ exists first rest,
       row_values (stitch rows idx r) = first :: rest
       /\ select_eps_value (first :: rest) (text_of_row r) tidx = Some e.
Proof.
  unfold row_occurrences, scan_row, is_label. simpl fst. simpl snd.
  destruct (check_eps_pattern (text_of_row r)); [|contradiction].
  destruct (row_values (stitch rows idx r)) as [|c cs] eqn:E; [contradiction|].
  destruct (select_eps_value (c :: cs) (text_of_row r) tidx) as [e'|] eqn:Es;
    [|contradiction].
  intros [<-|[]]. split; [reflexivity|]. eauto.
Qed.

Lemma in_extract (tables : document) (e : occurrence) :
  In e (extract_eps_from_filing tables) ->
  exists tidx rows idx r,
    nth_error tables tidx = Some rows
    /\ nth_error rows idx = Some r
    /\ In e (row_occurrences rows tidx (idx, r)).
Proof.
  rewrite extract_by_rows. intros H.
  apply in_flat_map in H as ([tidx rows] & Ht & H).
  unfold table_occurrences in H. simpl fst in H. simpl snd in H.
  apply in_flat_map in H as ([idx r] & Hr & H).
  apply in_enumerate in Ht. apply in_enumerate in Hr.
  exists tidx, rows, idx, r. auto.
Qed.

Lemma skipn_nth_cons {A} (l : list A) :
  forall (n : nat) (x : A), nth_error l n = Some x -> skipn n l = x :: skipn (S n) l.
Proof.
  induction l as [|a l IH]; intros [|n] x H; simpl in H; try discriminate.
  - injection H as ->. reflexivity.
  - simpl. apply IH. exact H.
Qed.

End ScanRows.

(** Every occurrence comes from a label row of the table it names: a row
    whose text passes [check_eps_pattern], and whose text, cut at 100
    characters, is the occurrence's [row_text]. *)
Theorem extract_eps_from_filing_origin (tables : document) :
  Forall (fun e =>
            exists rows idx r,
              nth_error tables (table_idx e) = Some rows
              /\ nth_error rows idx = Some r
              /\ check_eps_pattern (text_of_row r) = true
              /\ row_text e = firstn 100 (text_of_row r))
         (extract_eps_from_filing tables).
Proof.
  apply Forall_forall. intros e He.
  apply in_extract in He as (tidx & rows & idx & r & Ht & Hr & He).
  apply row_occurrences_inv in He as (Hl & first & rest & _ & Hs).
  rewrite selected_is_preferred in Hs. injection Hs as <-.
  exists rows, idx, r. simpl. auto.
Qed.

(** The values an occurrence lists are the numbers of the first row, from
    its label row on, that has a number in some cell. *)
Theorem extract_eps_from_filing_all_values (tables : document) :
  Forall (fun e =>
            exists rows idx r,
              nth_error tables (table_idx e) = Some rows
              /\ nth_error rows idx = Some r
              /\ row_text e = firstn 100 (text_of_row r)
              /\ all_values e = first_values (skipn idx rows))
         (extract_eps_from_filing tables).
Proof.
  apply Forall_forall. intros e He.
  apply in_extract in He as (tidx & rows & idx & r & Ht & Hr & He).
  apply row_occurrences_inv in He as (Hl & first & rest & Hv & Hs).
  rewrite selected_is_preferred in Hs. injection Hs as <-.
  exists rows, idx, r. cbn [table_idx row_text all_values]. repeat split; auto.
  change (cand_value first :: map cand_value rest)
    with (map cand_value (first :: rest)).
  rewrite <- Hv, stitch_values, (skipn_nth_cons _ _ Hr). reflexivity.
Qed.

(** The candidates of an occurrence come from one row and share their
    flags, so the priority among them never decides: the value of every
    occurrence is the first of its [all_values]. *)
Theorem extract_eps_from_filing_value_first (tables : document) :
  Forall (fun e => hd_error (all_values e) = Some (value e))
         (extract_eps_from_filing tables).
Proof.
  apply Forall_forall. intros e He.
  apply in_extract in He as (tidx & rows & idx & r & Ht & Hr & He).
  apply row_occurrences_inv in He as (Hl & first & rest & Hv & Hs).
  rewrite selected_is_preferred in Hs. injection Hs as <-.
  cbn [value all_values].
  destruct (stitch_one_row rows idx r) as (b & d & g & cells & Hc).
  rewrite (@preferred_uniform b d); [reflexivity|].
  rewrite <- Hv, Hc.
  eapply Forall_impl; [|apply cell_candidates_flags]. simpl. tauto.
Qed.

(** Every value an occurrence carries is a run of digits and dots with or
    without a minus sign. *)
Theorem extract_eps_from_filing_values_shaped (tables : document) :
  Forall (fun e =>
            numeric_shape (value e) = true
            /\ Forall (fun v => numeric_shape v = true) (all_values e))
         (extract_eps_from_filing tables).
Proof.
  apply Forall_forall. intros e He.
  apply in_extract in He as (tidx & rows & idx & r & Ht & Hr & He).
  apply row_occurrences_inv in He as (Hl & first & rest & Hv & Hs).
  rewrite selected_is_preferred in Hs. injection Hs as <-.
  cbn [value all_values].
  assert (Hall : Forall (fun v => numeric_shape v = true)
                        (map cand_value (first :: rest))).
  { rewrite <- Hv.
    destruct (stitch_one_row rows idx r) as (b & d & g & cells & ->).
    rewrite cell_candidates_values. unfold cell_values.
    apply Forall_forall. intros v Hin.
    apply in_flat_map in Hin as (cell & _ & Hin).
    destruct (extract_numeric_value (strip cell)) as [w|] eqn:E; [|contradiction].
    destruct Hin as [<-|[]]. apply (returned_value_shaped _ E). }
  split; [|exact Hall].
  rewrite Forall_forall in Hall. apply Hall.
  apply (in_map cand_value (first :: rest)), preferred_in.
Qed.

Section ScanTables.

Lemma extract_from_zero (tables : document) :
  extract_eps_from_filing tables = occurrences_from 0 tables.
Proof. apply extract_by_rows. Qed.

Lemma occurrences_from_cons (start : nat) (t : table) (l : list table) :
  occurrences_from start (t :: l)
  = table_occurrences (start, t) ++ occurrences_from (S start) l.
Proof. reflexivity. Qed.

Lemma occurrences_from_app (l1 l2 : list table) :
  forall start,
    occurrences_from start (l1 ++ l2)
    = occurrences_from start l1 ++ occurrences_from (start + length l1) l2.
Proof.
  induction l1 as [|t l1 IH]; intros start.
  - simpl. rewrite Nat.add_0_r. reflexivity.
  - simpl app. rewrite !occurrences_from_cons, IH, <- app_assoc.
    simpl length. rewrite Nat.add_succ_r. reflexivity.
Qed.

Lemma select_shifted (n : nat) (rv : list candidate) (text : str) (tidx : nat) :
  select_eps_value rv text (n + tidx)
  = option_map (shift_table n) (select_eps_value rv text tidx).
Proof. destruct rv; reflexivity. Qed.

Lemma row_occurrences_shifted (n : nat) (rows : table) (tidx : nat)
    (ir : nat * row) :
  row_occurrences rows (n + tidx) ir
  = map (shift_table n) (row_occurrences rows tidx ir).
Proof.
  unfold row_occurrences, scan_row.
  destruct (check_eps_pattern _); [|reflexivity].
  destruct (row_values _) as [|c cs]; [reflexivity|].
  rewrite select_shifted.
  destruct (select_eps_value (c :: cs) _ tidx); reflexivity.
Qed.

Lemma table_occurrences_shifted (n tidx : nat) (t : table) :
  table_occurrences (n + tidx, t) = map (shift_table n) (table_occurrences (tidx, t)).
Proof.
  unfold table_occurrences. simpl fst. simpl snd.
  induction (enumerate t) as [|ir l IH]; [reflexivity|].
  simpl. rewrite map_app, IH, row_occurrences_shifted. reflexivity.
Qed.

Lemma occurrences_from_shifted (n : nat) (l : list table) :
  forall start,
    occurrences_from (n + start) l = map (shift_table n) (occurrences_from start l).
Proof.
  induction l as [|t l IH]; intros start; [reflexivity|].
  rewrite !occurrences_from_cons, map_app, table_occurrences_shifted.
  rewrite <- IH, Nat.add_succ_r. reflexivity.
Qed.

Lemma table_occurrences_idx (tidx : nat) (t : table) (e : occurrence) :
  In e (table_occurrences (tidx, t)) -> table_idx e = tidx.
Proof.
  unfold table_occurrences. simpl fst. simpl snd. intros H.
  apply in_flat_map in H as ([idx r] & _ & H).
  apply row_occurrences_inv in H as (_ & first & rest & _ & Hs).
  rewrite selected_is_preferred in Hs. injection Hs as <-. reflexivity.
Qed.

Lemma occurrences_from_lower (l : list table) :
  forall start e, In e (occurrences_from start l) -> start <= table_idx e.
Proof.
  induction l as [|t l IH]; intros start e H; [contradiction|].
  rewrite occurrences_from_cons in H. apply in_app_or in H as [H|H].
  - apply table_occurrences_idx in H. lia.
  - apply IH in H. lia.
Qed.

Lemma occurrences_from_sorted (l : list table) :
  forall start, StronglySorted le (map table_idx (occurrences_from start l)).
Proof.
  induction l as [|t l IH]; intros start; [constructor|].
  rewrite occurrences_from_cons, map_app.
  assert (Ht : forall e, In e (table_occurrences (start, t)) -> table_idx e = start)
    by (intros e; apply table_occurrences_idx).
  induction (table_occurrences (start, t)) as [|e es IHe]; [apply IH|].
  simpl. constructor.
  - apply IHe. intros e' He'. apply Ht. right. exact He'.
  - rewrite (Ht e (or_introl eq_refl)).
    apply Forall_app. split.
    + apply Forall_forall. intros x Hx. apply in_map_iff in Hx as (e' & <- & He').
      rewrite (Ht e' (or_intror He')). lia.
    + apply Forall_forall. intros x Hx. apply in_map_iff in Hx as (e' & <- & He').
      apply occurrences_from_lower in He'. lia.
Qed.

Lemma row_occurrences_count (rows : table) (tidx : nat) (ir : nat * row) :
  length (row_occurrences rows tidx ir) <= if is_label (snd ir) then 1 else 0.
Proof.
  unfold row_occurrences, scan_row, is_label.
  destruct (check_eps_pattern _); [|simpl; lia].
  destruct (row_values _) as [|c cs]; [simpl; lia|].
  destruct (select_eps_value _ _ _); simpl; lia.
Qed.

Lemma rows_count (rows : table) (tidx : nat) (l : list row) :
  forall start,
    length (flat_map (row_occurrences rows tidx) (combine (seq start (length l)) l))
    <= length (filter is_label l).
Proof.
  induction l as [|r l IH]; intros start; [simpl; lia|].
  simpl. rewrite length_app.
  pose proof (row_occurrences_count rows tidx (start, r)) as Hr.
  specialize (IH (S start)). simpl snd in Hr.
  destruct (is_label r); simpl; lia.
Qed.

Lemma occurrences_from_count (l : list table) :
  forall start,
    length (occurrences_from start l) <= length (filter is_label (concat l)).
Proof.
  induction l as [|t l IH]; intros start; [simpl; lia|].
  rewrite occurrences_from_cons, length_app. simpl concat.
  rewrite filter_app, length_app.
  specialize (IH (S start)).
  pose proof (rows_count t start t 0) as Ht.
  unfold table_occurrences. simpl fst. simpl snd. unfold enumerate. lia.
Qed.

End ScanTables.

(** The scan returns at most one occurrence per label row; a document
    without a row that passes [check_eps_pattern] gives none. *)
Theorem extract_eps_from_filing_count (tables : document) :
  length (extract_eps_from_filing tables)
  <= length (filter (fun r => check_eps_pattern (text_of_row r)) (concat tables)).
Proof. rewrite extract_from_zero. apply occurrences_from_count. Qed.

(** The occurrences are listed in the order of the tables. *)
Theorem extract_eps_from_filing_table_order (tables : document) :
  StronglySorted le (map table_idx (extract_eps_from_filing tables)).
Proof. rewrite extract_from_zero. apply occurrences_from_sorted. Qed.

(** Tables are scanned independently: the scan of two lists of tables put
    together is the scan of the first followed by the scan of the second
    with its table indices moved on by the number of tables of the first. *)
Theorem extract_eps_from_filing_app (tables1 tables2 : document) :
  extract_eps_from_filing (tables1 ++ tables2)
  = extract_eps_from_filing tables1
    ++ map (shift_table (length tables1)) (extract_eps_from_filing tables2).
Proof.
  rewrite !extract_from_zero, occurrences_from_app.
  rewrite <- occurrences_from_shifted, Nat.add_0_r. reflexivity.
Qed.

(* ================================================================== *)
(** * More on the final resolver *)
(* ================================================================== *)

Section ResolverOrder.

Variable float_of_text : str -> option float.
Variable float_sum : list float -> float.
Variable format_fixed : float -> nat -> str.

Let prio := get_priority float_of_text.
Let sort := sort_by_priority float_of_text.
Let ins := insert_desc float_of_text.

(** The score without the penalty lies between 0 and 180. *)
Lemma priority_bounds (e : occurrence) :
  (if out_of_band float_of_text e
   then -1000 <= prio e <= -820
   else 0 <= prio e <= 180)%Z.
Proof.
  unfold prio, out_of_band. rewrite get_priority_parts.
  destruct (float_of_text (value e)) as [x|];
    [destruct (in_eps_band x)|];
    destruct (basic e), (gaap e),
      (contains (lit "basic") (lower (row_text e))),
      (contains (lit "diluted") (lower (row_text e)));
    simpl; lia.
Qed.

(** The head of the sorted list is the first entry of the highest score. *)
Lemma sort_head_first_best (l : list occurrence) :
  forall top rest,
    sort l = top :: rest ->
    exists before after,
      l = before ++ top :: after
      /\ Forall (fun e => (prio e < prio top)%Z) before
      /\ Forall (fun e => (prio e <= prio top)%Z) after.
Proof.
  induction l as [|x l IH]; intros top rest H; [discriminate|].
  change (sort (x :: l)) with (ins x (sort l)) in H.
  pose proof (sort_sorted float_of_text l) as Hs.
  pose proof (sort_perm float_of_text l) as Hp.
  fold sort in Hs, Hp.
  destruct (sort l) as [|y ys] eqn:Esort.
  - simpl in H. injection H as <- <-.
    apply Permutation_sym, Permutation_nil in Hp. subst l.
    exists [], []. auto.
  - destruct (IH y ys eq_refl) as (before & after & El & Hb & Ha).
    simpl in H. fold prio in H. destruct (prio x <? prio y)%Z eqn:E.
    + injection H as <- <-. apply Z.ltb_lt in E.
      exists (x :: before), after. rewrite El. repeat split; auto.
    + injection H as <- <-. apply Z.ltb_ge in E.
      exists [], l. repeat split; auto.
      rewrite El. apply Forall_app. split.
      * eapply Forall_impl; [|exact Hb]. simpl. intros e He. lia.
      * constructor; [exact E|].
        eapply Forall_impl; [|exact Ha]. simpl. intros e He. lia.
Qed.

Lemma sort_nonempty (l : list occurrence) : l <> [] -> sort l <> [].
Proof.
  destruct l as [|x l]; [contradiction|]. intros _.
  change (sort (x :: l)) with (ins x (sort l)).
  destruct (insert_desc_cons float_of_text x (sort l)) as (top & rest & E).
  fold ins in E. rewrite E. discriminate.
Qed.

(** The resolver has an answer exactly when an occurrence survives. *)
Lemma resolver_none_iff (eps_values : list occurrence) :
  select_final_eps float_of_text float_sum format_fixed eps_values = None
  <-> survivors eps_values = [].
Proof.
  rewrite resolve_top_group. fold sort. split.
  - destruct (survivors eps_values) as [|s0 ss] eqn:E; [reflexivity|].
    pose proof (@sort_nonempty (s0 :: ss) ltac:(discriminate)) as Hne.
    destruct (sort (s0 :: ss)) as [|top rest]; [contradiction|].
    cbv zeta. destruct (forallb _ _); [discriminate|].
    destruct (float_values _ _); discriminate.
  - intros ->. reflexivity.
Qed.

End ResolverOrder.

(** An occurrence whose value reads as a float outside [-100, 100] scores
    below every occurrence whose value does not: the penalty outweighs all
    the bonuses together. *)
Theorem get_priority_penalty_ranks_last
    (float_of_text : str -> option float) (e1 e2 : occurrence) :
  out_of_band float_of_text e2 = true ->
  out_of_band float_of_text e1 = false ->
  (get_priority float_of_text e2 < get_priority float_of_text e1)%Z.
Proof.
  intros H2 H1.
  pose proof (priority_bounds float_of_text e1) as B1.
  pose proof (priority_bounds float_of_text e2) as B2.
  rewrite H1 in B1. rewrite H2 in B2. lia.
Qed.

Lemma get_priority_penalty_ranks_last_witness :
  (get_priority PyFloat.float_of_text
     (Occurrence 0 (lit "basic eps") true false true (lit "1234.50") [])
   < get_priority PyFloat.float_of_text
       (Occurrence 1 (lit "net loss per share") false false false (lit "-0.12") []))%Z.
Proof.
  apply get_priority_penalty_ranks_last; vm_compute; reflexivity.
Defined.

(** [select_final_eps] returns None exactly when no occurrence is left
    after the rows that match "shares outstanding" are dropped (an empty
    input included); otherwise it always returns a value. *)
Theorem select_final_eps_none_iff
    (float_of_text : str -> option float) (float_sum : list float -> float)
    (format_fixed : float -> nat -> str) (eps_values : list occurrence) :
  select_final_eps float_of_text float_sum format_fixed eps_values = None
  <-> filter (fun entry => negb (found shares_outstanding_re (row_text entry)))
             eps_values = [].
Proof. apply resolver_none_iff. Qed.

(** The occurrence that heads the sorted list, and so names the top group,
    is the first of the surviving occurrences with the highest score:
    every survivor before it scores strictly less, every survivor after it
    scores at most as much. *)
Theorem select_final_eps_first_best
    (float_of_text : str -> option float) (eps_values : list occurrence)
    (top : occurrence) (rest : list occurrence) :
  sort_by_priority float_of_text (survivors eps_values) = top :: rest ->
  exists before after,
    survivors eps_values = before ++ top :: after
    /\ Forall (fun e => (get_priority float_of_text e
                         < get_priority float_of_text top)%Z) before
    /\ Forall (fun e => (get_priority float_of_text e
                         <= get_priority float_of_text top)%Z) after.
Proof. apply sort_head_first_best. Qed.

Lemma select_final_eps_first_best_witness :
  let a := Occurrence 0 (lit "diluted eps") false true true (lit "1.10") [] in
  let b := Occurrence 1 (lit "basic eps") true false true (lit "1.20") [] in
  let c := Occurrence 2 (lit "basic eps (restated)") true false true (lit "1.30") [] in
  exists before after,
    survivors [a; b; c] = before ++ b :: after
    /\ Forall (fun e => (get_priority PyFloat.float_of_text e
                         < get_priority PyFloat.float_of_text b)%Z) before
    /\ Forall (fun e => (get_priority PyFloat.float_of_text e
                         <= get_priority PyFloat.float_of_text b)%Z) after.
Proof.
  intros a b c.
  apply (select_final_eps_first_best PyFloat.float_of_text [a; b; c] (rest := [c; a])).
  vm_compute. reflexivity.
Defined.

(** With a single surviving occurrence the resolver returns its value as
    it is, whatever [float] makes of it. *)
Theorem select_final_eps_single
    (float_of_text : str -> option float) (float_sum : list float -> float)
    (format_fixed : float -> nat -> str) (eps_values : list occurrence)
    (e : occurrence) :
  survivors eps_values = [e] ->
  select_final_eps float_of_text float_sum format_fixed eps_values
  = Some (value e).
Proof.
  intros H. rewrite resolve_top_group, H. simpl.
  rewrite !str_eqb_refl. simpl. rewrite str_eqb_refl. reflexivity.
Qed.

Lemma select_final_eps_single_witness :
  select_final_eps PyFloat.float_of_text PyFloat.float_sum PyFloat.format_fixed
    [Occurrence 0 (lit "weighted average shares outstanding") false false true
       (lit "1200") [lit "1200"];
     Occurrence 1 (lit "diluted eps") false true true (lit "-.") [lit "-."]]
  = Some (lit "-.").
Proof.
  apply (@select_final_eps_single
           PyFloat.float_of_text PyFloat.float_sum PyFloat.format_fixed _
           (Occurrence 1 (lit "diluted eps") false true true (lit "-.") [lit "-."])).
  vm_compute. reflexivity.
Defined.

(** Within the same band, the basic flag decides before the gaap flag, and
    the gaap flag before the bonus for the row text. *)
Theorem get_priority_basic_then_gaap
    (float_of_text : str -> option float) (e1 e2 : occurrence) :
  out_of_band float_of_text e1 = out_of_band float_of_text e2 ->
  (basic e1 = true -> basic e2 = false ->
   (get_priority float_of_text e2 < get_priority float_of_text e1)%Z)
  /\ (basic e1 = basic e2 -> gaap e1 = true -> gaap e2 = false ->
      (get_priority float_of_text e2 < get_priority float_of_text e1)%Z).
Proof.
  intros Hband.
  pose proof (priority_bounds float_of_text e1) as B1.
  pose proof (priority_bounds float_of_text e2) as B2.
  rewrite !get_priority_parts. unfold out_of_band in Hband.
  split.
  - intros -> ->.
    destruct (float_of_text (value e1)) as [x1|];
      destruct (float_of_text (value e2)) as [x2|];
      try destruct (in_eps_band x1); try destruct (in_eps_band x2);
      try discriminate Hband;
      destruct (gaap e1), (gaap e2),
        (contains (lit "basic") (lower (row_text e1))),
        (contains (lit "diluted") (lower (row_text e1))),
        (contains (lit "basic") (lower (row_text e2))),
        (contains (lit "diluted") (lower (row_text e2)));
      simpl; lia.
  - intros -> -> ->.
    destruct (float_of_text (value e1)) as [x1|];
      destruct (float_of_text (value e2)) as [x2|];
      try destruct (in_eps_band x1); try destruct (in_eps_band x2);
      try discriminate Hband;
      destruct (basic e2),
        (contains (lit "basic") (lower (row_text e1))),
        (contains (lit "diluted") (lower (row_text e1))),
        (contains (lit "basic") (lower (row_text e2))),
        (contains (lit "diluted") (lower (row_text e2)));
      simpl; lia.
Qed.

Lemma get_priority_basic_then_gaap_witness :
  (get_priority PyFloat.float_of_text
     (Occurrence 0 (lit "basic and diluted eps, adjusted") false true true
        (lit "1.10") [])
   < get_priority PyFloat.float_of_text
       (Occurrence 1 (lit "net loss per share") true false false (lit "-0.12") []))%Z.
Proof.
  refine (proj1 (@get_priority_basic_then_gaap PyFloat.float_of_text
                   (Occurrence 1 (lit "net loss per share") true false false
                      (lit "-0.12") [])
                   (Occurrence 0 (lit "basic and diluted eps, adjusted") false true
                      true (lit "1.10") []) _) _ _);
    vm_compute; reflexivity.
Defined.

(* ================================================================== *)
(** * From the scan to the resolver *)
(* ================================================================== *)

Section Pipeline.

Lemma forallb_lower_space (t : str) :
  forallb is_space (lower t) = forallb is_space t.
Proof.
  induction t as [|c t IH]; [reflexivity|].
  simpl. rewrite is_space_lower_char, IH. reflexivity.
Qed.

(** [a\s*b] under [re.IGNORECASE], on any text. *)
Lemma occurs_spaced_anycase (a b s : str) :
  lower a = a -> lower b = b ->
  occurs (cats [seq_of ChrI a; ws; seq_of ChrI b]) s ->
  spaced_in false a b (lower s).
Proof.
  intros Ha Hb (pre & t & post & -> & M).
  cbn [cats fold_right matches ws] in M.
  destruct M as (t1 & t2 & -> & M1 & t3 & t4 & -> & M3 & t5 & t6 & -> & M5 & ->).
  apply matches_literal_nocase in M1, M5. rewrite Ha in M1. rewrite Hb in M5.
  exists (lower t3). split; [rewrite forallb_lower_space; exact M3|].
  split; [discriminate|].
  rewrite app_nil_r, !lower_app, M1, M5. apply contains_intro.
Qed.

Lemma contains_prefix (sub s : str) (n : nat) :
  contains sub (firstn n s) = true -> contains sub s = true.
Proof.
  intros H. apply contains_split in H as (pre & post & E).
  rewrite <- (firstn_skipn n s), E.
  replace ((pre ++ sub ++ post) ++ skipn n s) with (pre ++ sub ++ (post ++ skipn n s))
    by (rewrite <- !app_assoc; reflexivity).
  apply contains_intro.
Qed.

(** The text of a label row, cut anywhere, does not match the filter of the
    resolver: the exclusion of [check_eps_pattern] has ruled it out. *)
Lemma label_passes_filter (text : str) (n : nat) :
  check_eps_pattern text = true ->
  found shares_outstanding_re (slice_to n text) = false.
Proof.
  intros H. destruct (found shares_outstanding_re (slice_to n text)) eqn:E;
    [exfalso | reflexivity].
  apply found_iff_occurs in E. unfold shares_outstanding_re, LitI in E.
  apply occurs_spaced_anycase in E; [|reflexivity|reflexivity].
  destruct E as (w & Hw & _ & Hc).
  unfold slice_to, lower in Hc. rewrite <- firstn_map in Hc.
  apply contains_prefix in Hc. fold (lower text) in Hc.
  assert (Hx : found exclusion_re (strip (lower text)) = true).
  { apply excluded_iff. right. right. exists w. repeat split; auto. discriminate. }
  unfold check_eps_pattern in H. cbv zeta in H.
  rewrite scan_patterns_gate, Hx, andb_false_r in H. discriminate.
Qed.

Lemma filter_all {A} (f : A -> bool) (l : list A) :
  (forall x, In x l -> f x = true) -> filter f l = l.
Proof.
  induction l as [|a l IH]; intros H; [reflexivity|].
  simpl. rewrite (H a (or_introl eq_refl)). f_equal.
  apply IH. intros x Hx. apply H. right. exact Hx.
Qed.

(** Nothing the scan returns is dropped by the resolver. *)
Lemma scan_survives (tables : document) :
  survivors (extract_eps_from_filing tables) = extract_eps_from_filing tables.
Proof.
  apply filter_all. intros e He.
  apply in_extract in He as (tidx & rows & idx & r & Ht & Hr & He).
  apply row_occurrences_inv in He as (Hl & first & rest & _ & Hs).
  rewrite selected_is_preferred in Hs. injection Hs as <-.
  cbn [row_text]. apply negb_true_iff.
  apply (label_passes_filter (text_of_row r) 100 Hl).
Qed.

Lemma in_enumerate_intro {A} (l : list A) :
  forall (start i : nat) (x : A),
    nth_error l i = Some x -> In (start + i, x) (combine (seq start (length l)) l).
Proof.
  induction l as [|a l IH]; intros start [|i] x H; simpl in H; try discriminate.
  - injection H as ->. rewrite Nat.add_0_r. left. reflexivity.
  - right. rewrite Nat.add_succ_r. apply (IH (S start) i x H).
Qed.

Lemma flat_map_nil {A B} (f : A -> list B) (l : list A) (x : A) :
  flat_map f l = [] -> In x l -> f x = [].
Proof.
  intros E Hx. destruct (f x) as [|b bs] eqn:Ef; [reflexivity|].
  assert (Hb : In b (flat_map f l)).
  { apply in_flat_map. exists x. split; [exact Hx|]. rewrite Ef. left. reflexivity. }
  rewrite E in Hb. contradiction.
Qed.

(** The scan returns nothing exactly when no label row has a number in its
    own cells or below it. *)
Lemma scan_empty_iff (tables : document) :
  extract_eps_from_filing tables = [] <-> no_labelled_value tables.
Proof.
  unfold no_labelled_value. split.
  - intros E rows idx r Hrows Hr Hl.
    apply In_nth_error in Hrows as [tidx Ht].
    rewrite extract_by_rows in E.
    pose proof (in_enumerate_intro tables 0 tidx Ht) as Hin. simpl in Hin.
    apply (flat_map_nil _ _ _ E) in Hin.
    unfold table_occurrences in Hin. simpl fst in Hin. simpl snd in Hin.
    pose proof (in_enumerate_intro rows 0 idx Hr) as Hir. simpl in Hir.
    apply (flat_map_nil _ _ _ Hin) in Hir.
    unfold row_occurrences, scan_row, is_label in *.
    simpl fst in Hir. simpl snd in Hir. rewrite Hl in Hir.
    rewrite (skipn_nth_cons _ _ Hr), <- stitch_values.
    destruct (row_values (stitch rows idx r)) as [|c cs]; [reflexivity|].
    rewrite selected_is_preferred in Hir. discriminate.
  - intros H.
    destruct (extract_eps_from_filing tables) as [|e es] eqn:E; [reflexivity|].
    exfalso.
    assert (He : In e (extract_eps_from_filing tables)) by (rewrite E; left; reflexivity).
    apply in_extract in He as (tidx & rows & idx & r & Ht & Hr & He).
    apply row_occurrences_inv in He as (Hl & first & rest & Hv & _).
    specialize (H rows idx r (nth_error_In _ _ Ht) Hr Hl).
    rewrite (skipn_nth_cons _ _ Hr), <- stitch_values, Hv in H. discriminate.
Qed.

Variable float_of_text : str -> option float.
Variable float_sum : list float -> float.
Variable format_fixed : float -> nat -> str.

(** What a file adds to the data frame. *)
Lemma process_file_appends (acc : list result_row) (f : filing) :
  process_file float_of_text float_sum format_fixed acc f
  = acc ++ (if endswith (lit ".html") (filename f)
            then [ResultRow (filename f)
                    (select_final_eps float_of_text float_sum format_fixed
                       (extract_eps_from_filing (filing_tables f)))]
            else []).
Proof.
  unfold process_file. destruct (endswith _ _); [reflexivity|].
  rewrite app_nil_r. reflexivity.
Qed.

(** The resolver run on the scan of a document. *)
Lemma pipeline_none_iff (tables : document) :
  select_final_eps float_of_text float_sum format_fixed
    (extract_eps_from_filing tables) = None
  <-> no_labelled_value tables.
Proof.
  rewrite resolver_none_iff, scan_survives. apply scan_empty_iff.
Qed.

End Pipeline.

(** The filter of the resolver removes nothing of what the scan returns:
    a row whose text matches "shares outstanding" is never a label row. *)
Theorem extract_eps_from_filing_survives (tables : document) :
  filter (fun entry => negb (found shares_outstanding_re (row_text entry)))
         (extract_eps_from_filing tables)
  = extract_eps_from_filing tables.
Proof. apply scan_survives. Qed.

(** The scan returns the empty list exactly when no label row has a number
    in its own cells or in the cells of a row below it in its table. *)
Theorem extract_eps_from_filing_empty_iff (tables : document) :
  extract_eps_from_filing tables = []
  <-> forall rows idx r,
        In rows tables -> nth_error rows idx = Some r ->
        check_eps_pattern (text_of_row r) = true ->
        first_values (skipn idx rows) = [].
Proof. apply scan_empty_iff. Qed.

(** [process_directory] gives one row per entry whose name ends with
    ".html", in the order of the listing, with that name; the row's eps is
    None exactly when the file has no label row with a number in or below
    it. *)
Theorem process_directory_rows
    (float_of_text : str -> option float) (float_sum : list float -> float)
    (format_fixed : float -> nat -> str) (listing : list filing) :
  Forall2 (fun f row =>
             res_filename row = filename f
             /\ (res_eps row = None <-> no_labelled_value (filing_tables f)))
          (filter (fun f => endswith (lit ".html") (filename f)) listing)
          (process_directory float_of_text float_sum format_fixed listing).
Proof.
  unfold process_directory.
  rewrite (fold_left_appends _ _ (process_file_appends float_of_text float_sum format_fixed)).
  simpl app.
  induction listing as [|f listing IH]; [constructor|].
  simpl. destruct (endswith (lit ".html") (filename f)); [|exact IH].
  simpl app. constructor; [|exact IH].
  split; [reflexivity|]. simpl. apply pipeline_none_iff.
Qed.

(* ================================================================== *)
(** * The flags of an occurrence *)
(* ================================================================== *)

Section ScanFlags.

(** The candidates found by advancing carry the classification of the row
    they were found in; basic and diluted are both set when they were both
    set before or a row passed on the way names both. *)
Lemma advance_rows_flags (later : list row) :
  forall b d g,
    adv_values (advance_rows later b d g) <> [] ->
    exists span vr,
      rows_to_value later = span ++ [vr]
      /\ Forall (fun c =>
                   cand_gaap c = is_gaap_eps (text_of_row vr)
                   /\ (cand_basic c, cand_diluted c)
                      = if (b && d) || existsb names_both (span ++ [vr])
                        then (true, true)
                        else is_basic_eps (text_of_row vr))
                (adv_values (advance_rows later b d g)).
Proof.
  induction later as [|r later IH]; intros b d g;
    cbn -[cell_candidates cell_values is_basic_eps is_gaap_eps names_both existsb].
  - intros H. contradiction.
  - set (bd := if b && d then (true, true) else is_basic_eps (text_of_row r)).
    set (g' := is_gaap_eps (text_of_row r)).
    assert (Hbd : fst bd && snd bd = (b && d) || names_both r).
    { unfold bd, names_both. destruct (b && d); reflexivity. }
    rewrite <- (cell_candidates_values (fst bd) (snd bd) g').
    destruct (cell_candidates (fst bd) (snd bd) g' (row_cells r)) as [|c cs] eqn:E;
      cbn -[cell_candidates cell_values is_basic_eps is_gaap_eps names_both existsb].
    + intros H. destruct (IH _ _ _ H) as (span & vr & Es & Hall).
      exists (r :: span), vr. split; [rewrite Es; reflexivity|].
      eapply Forall_impl; [|exact Hall]. intros x [Hg Hx].
      split; [exact Hg|]. rewrite Hx, Hbd.
      simpl app. simpl existsb. rewrite orb_assoc. reflexivity.
    + intros _. exists [], r. split; [reflexivity|].
      rewrite <- E. eapply Forall_impl; [|apply cell_candidates_flags].
      intros x (Hb & Hd & Hg). split; [exact Hg|].
      rewrite Hb, Hd. simpl app. simpl existsb. rewrite orb_false_r, <- Hbd.
      unfold bd. destruct (b && d); [reflexivity|].
      destruct (is_basic_eps (text_of_row r)) as [x1 x2].
      destruct x1, x2; reflexivity.
Qed.

(** Stitching is advancing from the label row itself, with no flag set. *)
Lemma stitch_as_advance (rows : table) (idx : nat) (r : row) :
  row_values (stitch rows idx r)
  = adv_values (advance_rows (r :: skipn (S idx) rows) false false true).
Proof.
  rewrite stitch_row_values. cbv zeta.
  cbn -[cell_candidates skipn is_basic_eps is_gaap_eps].
  destruct (cell_candidates _ _ _ (row_cells r)); reflexivity.
Qed.

End ScanFlags.

(** The flags of an occurrence are those of the row its values were found
    in, which is the label row only when that row has a number: gaap is
    the gaap classification of that row's text, and basic and diluted are
    that row's, unless a row from the label row down to it is classified
    as both, in which case both are set. *)
Theorem extract_eps_from_filing_flags (tables : document) :
  Forall (fun e =>
            exists rows idx r span vr,
              nth_error tables (table_idx e) = Some rows
              /\ nth_error rows idx = Some r
              /\ row_text e = firstn 100 (text_of_row r)
              /\ rows_to_value (skipn idx rows) = span ++ [vr]
              /\ gaap e = is_gaap_eps (text_of_row vr)
              /\ (basic e, diluted e)
                 = if existsb names_both (span ++ [vr])
                   then (true, true)
                   else is_basic_eps (text_of_row vr))
         (extract_eps_from_filing tables).
Proof.
  apply Forall_forall. intros e He.
  apply in_extract in He as (tidx & rows & idx & r & Ht & Hr & He).
  apply row_occurrences_inv in He as (Hl & first & rest & Hv & Hs).
  rewrite selected_is_preferred in Hs. injection Hs as <-.
  cbn [table_idx row_text basic diluted gaap].
  rewrite stitch_as_advance in Hv.
  destruct (@advance_rows_flags (r :: skipn (S idx) rows) false false true)
    as (span & vr & Es & Hall).
  { rewrite Hv. discriminate. }
  rewrite Hv, Forall_forall in Hall.
  destruct (Hall _ (preferred_in first rest)) as [Hg Hbd].
  exists rows, idx, r, span, vr.
  rewrite (skipn_nth_cons _ _ Hr). repeat split; auto.
Qed.

(* ================================================================== *)
(** * Where a returned value comes from *)
(* ================================================================== *)

Section Provenance.

Lemma contains_suffix (sub pre s : str) :
  contains sub s = true -> contains sub (pre ++ s) = true.
Proof.
  intros H. apply contains_split in H as (a & b & ->).
  replace (pre ++ a ++ sub ++ b) with ((pre ++ a) ++ sub ++ b)
    by (rewrite <- app_assoc; reflexivity).
  apply contains_intro.
Qed.

Lemma contains_head (t rest : str) : contains t (t ++ rest) = true.
Proof. apply (contains_intro t [] rest). Qed.

(** An optional character in front of a pattern, with the position the
    pattern matches at. *)
Lemma optional_char_then_at {R} (c0 : char) (r : regex) (prev : option char)
    (s : str) (g : option str) (k : cont R) x :
  rmatch (Cat (Opt (Chr c0)) r) prev s g k = Some x ->
  exists skipped prev' s',
    s = skipped ++ s' /\ rmatch r prev' s' g k = Some x.
Proof.
  change (rmatch (Cat (Opt (Chr c0)) r) prev s g k)
    with (match
            match s with
            | c :: s' => if char_eqb c0 c then rmatch r (Some c) s' g k else None
            | [] => None
            end
          with
          | Some y => Some y
          | None => rmatch r prev s g k
          end).
  destruct s as [|c s']; [intros H; exists [], prev, []; auto|].
  destruct (char_eqb c0 c).
  - destruct (rmatch r (Some c) s' g k) eqn:E.
    + intros [= <-]. exists [c], (Some c), s'. auto.
    + intros H. exists [], prev, (c :: s'). auto.
  - intros H. exists [], prev, (c :: s'). auto.
Qed.

(** What a capturing pattern reports stands in the text searched. *)
Lemma search_group_from (r : regex) (P : str -> Prop) :
  (forall prev s m, match_at r prev s = Some m ->
                    exists v, group1 m = Some v /\ P v /\ contains v s = true) ->
  forall s v, search_group r s = Some v -> P v /\ contains v s = true.
Proof.
  intros Hr s v. unfold search_group, search.
  destruct (search_from r None s) as [m|] eqn:E; [|discriminate].
  apply search_from_position in E as (pre & post & -> & E).
  apply Hr in E as (w & Hw & HP & Hc). rewrite Hw. intros [= <-].
  split; [exact HP | apply contains_suffix, Hc].
Qed.

Lemma number_re_from (prev : option char) (s : str) (m : matched) :
  match_at number_re prev s = Some m ->
  exists v, group1 m = Some v /\ digits_and_dots v = true /\ contains v s = true.
Proof.
  unfold match_at, number_re. intros H.
  apply group_plus_captures in H as (t & rest & -> & Hne & Ht & [= <-]).
  exists t. repeat split;
    [apply digits_and_dots_intro; assumption | apply contains_head].
Qed.

Lemma open_paren_re_from (prev : option char) (s : str) (m : matched) :
  match_at open_paren_re prev s = Some m ->
  exists v, group1 m = Some v /\ digits_and_dots v = true /\ contains v s = true.
Proof.
  unfold match_at, open_paren_re. intros H.
  apply optional_char_then_at in H as (skipped & prev' & s' & -> & H).
  apply group_plus_captures in H as (t & rest & -> & Hne & Ht & [= <-]).
  exists t. repeat split;
    [apply digits_and_dots_intro; assumption
    | apply contains_suffix, contains_head].
Qed.

Lemma paren_re_from (prev : option char) (s : str) (m : matched) :
  match_at paren_re prev s = Some m ->
  exists v, group1 m = Some v /\ digits_and_dots v = true /\ contains v s = true.
Proof.
  unfold match_at, paren_re, Chr. intros H.
  rewrite rmatch_cat in H.
  apply cls_consumes in H as (c & s' & -> & _ & H).
  rewrite rmatch_cat in H.
  apply group_plus_captures in H as (t & rest & -> & Hne & Ht & H).
  apply cls_consumes in H as (c' & rest' & _ & _ & [= <-]).
  exists t. repeat split;
    [apply digits_and_dots_intro; assumption
    | apply (contains_suffix _ [c]), contains_head].
Qed.

Lemma decimal_re_from (prev : option char) (s : str) (m : matched) :
  match_at decimal_re prev s = Some m ->
  exists v, group1 m = Some v /\ digits_and_dots v = true /\ contains v s = true.
Proof.
  unfold match_at, decimal_re, Chr. intros H.
  rewrite rmatch_grp, rmatch_cat in H.
  apply plus_consumes in H as (t1 & s2 & -> & Hne1 & Ht1 & H).
  rewrite rmatch_cat in H.
  apply cls_consumes in H as (dot & s3 & -> & Hdot & H).
  apply char_eqb_eq in Hdot. subst dot.
  apply plus_consumes in H as (t2 & s5 & -> & Hne2 & Ht2 & H).
  injection H as <-. simpl group1.
  replace (t1 ++ Latin "." :: t2 ++ s5) with ((t1 ++ Latin "." :: t2) ++ s5)
    by (rewrite <- app_assoc; reflexivity).
  rewrite firstn_consumed.
  exists (t1 ++ Latin "." :: t2). repeat split; [|apply contains_head].
  apply digits_and_dots_intro; [destruct t1; discriminate|].
  rewrite forallb_app. simpl.
  rewrite (digits_are_digits_or_dots _ Ht1), (digits_are_digits_or_dots _ Ht2).
  reflexivity.
Qed.

Lemma int_token_re_at (prev : option char) (s : str) (m : matched) :
  match_at int_token_re prev s = Some m ->
  exists v,
    group1 m = Some v /\ v <> [] /\ forallb is_digit v = true
    /\ s = v ++ after m.
Proof.
  unfold match_at, int_token_re. intros H.
  rewrite rmatch_cat in H. apply bnd_passes in H.
  rewrite rmatch_cat in H.
  apply group_plus_captures in H as (t & rest & -> & Hne & Ht & H).
  apply bnd_passes in H. injection H as <-. exists t. auto.
Qed.

(** Every token of [findall] stands in the text. *)
Lemma findall_from_parts :
  forall (fuel : nat) (prev : option char) (s : str),
    Forall (fun v => contains v s = true) (findall_from fuel int_token_re prev s).
Proof.
  induction fuel as [|fuel IH]; intros prev s; simpl; [constructor|].
  destruct (match_at int_token_re prev s) as [m|] eqn:E.
  - apply int_token_re_at in E as (v & Hv & Hne & Hd & Hs). rewrite Hv.
    destruct s as [|c s'].
    + destruct v; [contradiction | discriminate Hs].
    + assert (Hc : contains v (c :: s') = true) by (rewrite Hs; apply contains_head).
      destruct (_ <? _); constructor; try exact Hc.
      * eapply Forall_impl; [|apply IH]. intros x Hx. cbv beta in Hx.
        rewrite Hs. apply contains_suffix, Hx.
      * eapply Forall_impl; [|apply IH]. intros x Hx.
        apply (contains_suffix _ [c]), Hx.
  - destruct s as [|c s']; [constructor|].
    eapply Forall_impl; [|apply IH]. intros x Hx.
    apply (contains_suffix _ [c]), Hx.
Qed.

Lemma sign_rule_from (r : regex) (cleaned v : str) :
  (forall prev s m, match_at r prev s = Some m ->
                    exists w, group1 m = Some w /\ digits_and_dots w = true
                              /\ contains w s = true) ->
  option_map negative (search_group r cleaned) = Some v ->
  exists u, v = negative u /\ digits_and_dots u = true
            /\ contains u cleaned = true.
Proof.
  intros Hr H. destruct (search_group r cleaned) as [w|] eqn:E; [|discriminate].
  injection H as <-.
  destruct (@search_group_from _ (fun w => digits_and_dots w = true) Hr _ _ E).
  exists w. auto.
Qed.

Lemma integer_case_from (cleaned v : str) :
  integer_case cleaned = Some v ->
  digits_and_dots v = true /\ contains v cleaned = true.
Proof.
  unfold integer_case.
  pose proof (findall_from_digits (S (length cleaned)) None cleaned) as F.
  pose proof (findall_from_parts (S (length cleaned)) None cleaned) as G.
  fold (findall int_token_re cleaned) in F, G.
  rewrite Forall_forall in F, G.
  assert (D : forall x, In x (findall int_token_re cleaned) ->
                        digits_and_dots x = true /\ contains x cleaned = true).
  { intros x Hx. destruct (F x Hx) as [Hne Hd]. split; [|apply G, Hx].
    apply digits_and_dots_intro; [exact Hne|].
    apply digits_are_digits_or_dots, Hd. }
  destruct (findall int_token_re cleaned) as [|t ts] eqn:E; [discriminate|].
  destruct (filter survives (t :: ts)) as [|w ws] eqn:Ef.
  - destruct (max_by_int (t :: ts)) as [largest|] eqn:Em; [|discriminate].
    destruct (_ <? _); [|discriminate].
    intros [= <-]. apply D, max_by_int_in, Em.
  - intros [= <-]. apply D.
    assert (Hin : In w (filter survives (t :: ts))) by (rewrite Ef; left; reflexivity).
    apply filter_In in Hin. tauto.
Qed.

(** A returned value is a run of digits and dots of the cleaned text, with
    or without a minus sign put in front. *)
Lemma returned_from_text (text v : str) :
  extract_numeric_value text = Some v ->
  exists u,
    (v = u \/ v = negative u)
    /\ digits_and_dots u = true
    /\ contains u (clean text) = true.
Proof.
  unfold extract_numeric_value. destruct text as [|c0 text0]; [discriminate|].
  cbv zeta. set (cleaned := clean (c0 :: text0)).
  destruct (search_group decimal_re cleaned) as [d|] eqn:Ed.
  { intros [= <-].
    destruct (@search_group_from _ (fun w => digits_and_dots w = true)
                decimal_re_from _ _ Ed) as [Hd Hc].
    exists d. split; [|auto]. unfold decimal_case.
    repeat match goal with |- context [if ?b then _ else _] => destruct b end;
      auto. }
  unfold split_paren_case, paren_case, minus_case.
  destruct (opens_unclosed cleaned);
    [destruct (option_map negative (search_group open_paren_re cleaned)) eqn:E1;
     [intros [= <-];
      destruct (@sign_rule_from _ _ _ open_paren_re_from E1) as (u & -> & Hu);
      exists u; auto|]|];
  simpl or_else;
  (destruct (contains (lit "(") cleaned && contains (lit ")") cleaned);
    [destruct (option_map negative (search_group paren_re cleaned)) eqn:E2;
     [intros [= <-];
      destruct (@sign_rule_from _ _ _ paren_re_from E2) as (u & -> & Hu);
      exists u; auto|]|]);
  simpl or_else;
  (destruct (found leading_minus_re cleaned);
    [destruct (option_map negative (search_group number_re cleaned)) eqn:E3;
     [intros [= <-];
      destruct (@sign_rule_from _ _ _ number_re_from E3) as (u & -> & Hu);
      exists u; auto|]|]);
  simpl or_else;
  (destruct (str_eqb cleaned (lit ")")); [discriminate|]);
  intros H; exists v; (split; [left; reflexivity|]);
  apply (@integer_case_from _ _ H).
Qed.

Lemma in_strip (c : char) (s : str) : In c (strip s) -> In c s.
Proof.
  intros H. destruct (strip_infix s) as (a & b & E & _).
  rewrite E. apply in_or_app. right. apply in_or_app. left. exact H.
Qed.

Lemma in_clean (c : char) (text : str) : In c (clean text) -> In c text.
Proof.
  unfold clean, remove_char. intros H. apply in_strip in H.
  apply filter_In in H as [H _]. apply filter_In in H as [H _]. exact H.
Qed.

Lemma contains_incl (sub s : str) :
  contains sub s = true -> forall c, In c sub -> In c s.
Proof.
  intros H c Hc. apply contains_split in H as (pre & post & ->).
  apply in_or_app. right. apply in_or_app. left. exact Hc.
Qed.

(** A text without a digit and without a dot gives no value. *)
Lemma no_digit_no_value (text : str) :
  no_digit_or_dot (clean text) = true -> extract_numeric_value text = None.
Proof.
  intros H. destruct (extract_numeric_value text) as [v|] eqn:E; [|reflexivity].
  exfalso. apply returned_from_text in E as (u & _ & Hu & Hc).
  destruct u as [|c u]; [discriminate|]. simpl in Hu.
  apply andb_prop in Hu as [Hd _].
  pose proof (contains_incl _ _ Hc c (or_introl eq_refl)) as Hin.
  unfold no_digit_or_dot in H. rewrite forallb_forall in H.
  specialize (H c Hin). rewrite Hd in H. discriminate.
Qed.

End Provenance.

(** The digits of a returned value are copied from the cleaned text in one
    piece: the value is a run of digits and dots that stands in the cleaned
    text, as it is or with a minus sign put in front. *)
Theorem extract_numeric_value_from_text (text v : str) :
  extract_numeric_value text = Some v ->
  exists u,
    (v = u \/ v = negative u)
    /\ digits_and_dots u = true
    /\ contains u (clean text) = true.
Proof. apply returned_from_text. Qed.

Lemma extract_numeric_value_from_text_witness :
  exists u,
    (lit "-1234.56" = u \/ lit "-1234.56" = negative u)
    /\ digits_and_dots u = true
    /\ contains u (clean (lit "$(1,234.56)")) = true.
Proof.
  apply (extract_numeric_value_from_text (lit "$(1,234.56)")).
  vm_compute. reflexivity.
Defined.

(** A text with no digit and no dot (an empty or blank cell, a dash, a
    word) gives None. *)
Theorem extract_numeric_value_needs_digit (text : str) :
  no_digit_or_dot text = true -> extract_numeric_value text = None.
Proof.
  intros H. apply no_digit_no_value.
  unfold no_digit_or_dot in *. rewrite forallb_forall in *.
  intros c Hc. apply H, in_clean, Hc.
Qed.

Lemma extract_numeric_value_needs_digit_witness :
  extract_numeric_value (lit " $ (N/A) ") = None.
Proof.
  apply extract_numeric_value_needs_digit. vm_compute. reflexivity.
Defined.
